(** * btree.js: a binary search tree of keys, each carrying a set of ids

    A shallow embedding of [src/btree.js].  The JavaScript objects of the
    tree live in a store addressed by locations, because [remove] rewires
    [left]/[right] links in place and two of its paths depend on which
    object a variable points at.  Loops and the recursive traversal run on
    a fuel taken from the number of objects in the store: a walk that is
    longer than that has met one object twice, and since the walk only
    reads the store it then repeats for ever.  *)

From stdpp Require Import gmap strings list fin_maps sorting.

Open Scope Z_scope.

(** ** Keys, ids, nodes *)

(** The code compares keys with [<] and [>] only.  [a > b] is evaluated
    by JavaScript as [b < a].  [js_lt a b] is the boolean that [a < b]
    evaluates to: [K] stands for values on which the comparison answers
    (on a symbol it throws, and such keys are not part of this model). *)
Class Compare (K : Type) := js_lt : K → K → bool.

Definition js_gt `{Compare K} (a b : K) : bool := js_lt b a.

(** Keys on which [<] is a strict total order. *)
Class StrictTotal (K : Type) `{Compare K} : Prop := {
  lt_irrefl : ∀ a : K, js_lt a a = false;
  lt_trans : ∀ a b c : K, js_lt a b = true → js_lt b c = true → js_lt a c = true;
  lt_total : ∀ a b : K, js_lt a b = false → js_lt b a = false → a = b
}.

(** An id is used as a property name of the object [ids]: it stands for
    the string that JavaScript makes of the id.  Ids that are symbols are
    not part of this model. *)
Definition id := string.

(** [ids[id] = true] on an object made by the literal [{ }].  The name
    ["__proto__"] is an accessor of [Object.prototype]: the assignment
    runs its setter, which ignores a value that is not an object, and no
    property is stored.  Every other name becomes a property of [ids]. *)
Definition set_id (i : id) (s : gset id) : gset id :=
  if decide (i = "__proto__"%string) then s else {[ i ]} ∪ s.

(** Address of a node object. *)
Definition loc := positive.

(** A local variable that holds a node: declared and never assigned
    ([undefined]), [null], or a reference. *)
Inductive jsvar : Type :=
| undefined
| null
| ref (l : loc).

Section Tree.
Context {K : Type} `{Compare K}.

(** [{ value, left, right, ids }]; [None] is [null]. *)
Record node : Type := Node {
  value : K;
  left : option loc;
  right : option loc;
  ids : gset id
}.

(** The object [BinarySearchTree] with the store its nodes live in. *)
Record BinarySearchTree : Type := Tree {
  _root : option loc;
  heap : gmap loc node
}.

(** [new BinarySearchTree()] *)
Definition new_tree : BinarySearchTree := Tree None ∅.

(** How a mutating method ends: it returns, it throws a [TypeError]
    (the tree is then as the statements before the throw left it), or it
    does not return at all. *)
Inductive outcome : Type :=
| Returns (t : BinarySearchTree)
| TypeError (t : BinarySearchTree)
| NoResult.

Definition fuel_of (h : gmap loc node) : nat := S (size h).

(** ** Field access *)

Definition get_left (h : gmap loc node) (l : loc) : option loc :=
  match h !! l with Some n => left n | None => None end.

Definition get_right (h : gmap loc node) (l : loc) : option loc :=
  match h !! l with Some n => right n | None => None end.

Definition set_left (l : loc) (v : option loc) (h : gmap loc node) : gmap loc node :=
  alter (λ n, Node (value n) v (right n) (ids n)) l h.

Definition set_right (l : loc) (v : option loc) (h : gmap loc node) : gmap loc node :=
  alter (λ n, Node (value n) (left n) v (ids n)) l h.

Definition set_ids (l : loc) (s : gset id) (h : gmap loc node) : gmap loc node :=
  alter (λ n, Node (value n) (left n) (right n) s) l h.

(** ** add *)

(** The [while (true)] loop of [add]; [nd] is the address of the new
    node. *)
Fixpoint add_loop (fuel : nat) (v : K) (i : id) (nd : loc)
    (h : gmap loc node) (current : loc) : option (gmap loc node) :=
  match fuel with
  | O => None
  | S fuel' =>
    match h !! current with
    | None => None
    | Some c =>
      if js_lt v (value c) then
        match left c with
        | None => Some (set_left current (Some nd) h)
        | Some l => add_loop fuel' v i nd h l
        end
      else if js_gt v (value c) then
        match right c with
        | None => Some (set_right current (Some nd) h)
        | Some r => add_loop fuel' v i nd h r
        end
      else Some (set_ids current (set_id i (ids c)) h)
    end
  end.

Definition add (v : K) (i : id) (t : BinarySearchTree) : outcome :=
  let nd := fresh (dom (heap t)) in
  let h := <[ nd := Node v None None (set_id i ∅) ]> (heap t) in
  match _root t with
  | None => Returns (Tree (Some nd) h)
  | Some r =>
    match add_loop (fuel_of h) v i nd h r with
    | Some h' => Returns (Tree (Some r) h')
    | None => NoResult
    end
  end.

(** ** contains, equals

    The methods that only read give [None] when they do not return. *)

(** The loop [while (!found && current)] of [contains] and [equals];
    the result is [(found, current)]. *)
Fixpoint search_loop (fuel : nat) (v : K) (h : gmap loc node)
    (current : option loc) : option (bool * option loc) :=
  match fuel with
  | O => None
  | S fuel' =>
    match current with
    | None => Some (false, None)
    | Some c =>
      match h !! c with
      | None => None
      | Some n =>
        if js_lt v (value n) then search_loop fuel' v h (left n)
        else if js_gt v (value n) then search_loop fuel' v h (right n)
        else Some (true, Some c)
      end
    end
  end.

Definition contains (v : K) (t : BinarySearchTree) : option bool :=
  match search_loop (fuel_of (heap t)) v (heap t) (_root t) with
  | Some (found, _) => Some found
  | None => None
  end.

Definition equals (v : K) (t : BinarySearchTree) : option (gset id) :=
  match search_loop (fuel_of (heap t)) v (heap t) (_root t) with
  | Some (true, Some c) =>
    match heap t !! c with Some n => Some (ids n) | None => None end
  | Some (_, _) => Some ∅
  | None => None
  end.

(** ** traverse, toArray, size *)

Fixpoint inOrder {A : Type} (fuel : nat) (h : gmap loc node)
    (process : node → A → A) (nd : option loc) (acc : A) : option A :=
  match fuel with
  | O => None
  | S fuel' =>
    match nd with
    | None => Some acc
    | Some l =>
      match h !! l with
      | None => None
      | Some n =>
        match
          match left n with
          | None => Some acc
          | Some _ => inOrder fuel' h process (left n) acc
          end
        with
        | None => None
        | Some acc1 =>
          let acc2 := process n acc1 in
          match right n with
          | None => Some acc2
          | Some _ => inOrder fuel' h process (right n) acc2
          end
        end
      end
    end
  end.

Definition traverse {A : Type} (process : node → A → A) (init : A)
    (t : BinarySearchTree) : option A :=
  inOrder (fuel_of (heap t)) (heap t) process (_root t) init.

(** [result.push({ value: node.value, ids: node.ids })] *)
Definition toArray (t : BinarySearchTree) : option (list (K * gset id)) :=
  traverse (λ n result, result ++ [(value n, ids n)]) [] t.

(** [size]; the name is taken by the size of finite maps and sets. *)
Definition size_ (t : BinarySearchTree) : option nat :=
  traverse (λ _ length, S length) O t.

(** The node objects of a tree: the root, and what the [left] and
    [right] links of a node of the tree point at. *)
Inductive reachable (t : BinarySearchTree) : loc → Prop :=
| reach_root r : _root t = Some r → reachable t r
| reach_left l n c :
    reachable t l → heap t !! l = Some n → left n = Some c → reachable t c
| reach_right l n c :
    reachable t l → heap t !! l = Some n → right n = Some c → reachable t c.

(** ** remove *)

(** The search loop of [remove], which also tracks [parent]; the result
    is [(found, parent, current)]. *)
Fixpoint remove_search (fuel : nat) (v : K) (h : gmap loc node)
    (parent current : option loc) : option (bool * option loc * option loc) :=
  match fuel with
  | O => None
  | S fuel' =>
    match current with
    | None => Some (false, parent, None)
    | Some c =>
      match h !! c with
      | None => None
      | Some n =>
        if js_lt v (value n) then remove_search fuel' v h (Some c) (left n)
        else if js_gt v (value n) then remove_search fuel' v h (Some c) (right n)
        else Some (true, parent, Some c)
      end
    end
  end.

(** [while (replacement.right !== null)]; the result is
    [(replacementParent, replacement)]. *)
Fixpoint rightmost (fuel : nat) (h : gmap loc node)
    (replacementParent : jsvar) (replacement : loc) : option (jsvar * loc) :=
  match fuel with
  | O => None
  | S fuel' =>
    match h !! replacement with
    | None => None
    | Some n =>
      match right n with
      | None => Some (replacementParent, replacement)
      | Some r => rightmost fuel' h (ref replacement) r
      end
    end
  end.

Definition childCount (n : node) : nat :=
  ((match left n with Some _ => 1 | None => 0 end) +
   (match right n with Some _ => 1 | None => 0 end))%nat.

(** [if (current.value < parent.value) parent.left = x else parent.right = x],
    with [c] and [p] the nodes that [current] and [parent] point at. *)
Definition relink (h : gmap loc node) (c p : node) (parent : loc)
    (x : option loc) : gmap loc node :=
  if js_lt (value c) (value p) then set_left parent x h
  else set_right parent x h.

(** The part of [remove] that runs once the id set of [current] is
    empty and [current] is the root. *)
Definition remove_root (h : gmap loc node) (root : loc) (cn : node) : outcome :=
  match childCount cn with
  | 0%nat => Returns (Tree None h)
  | 1%nat =>
    Returns (Tree (match right cn with None => left cn | Some _ => right cn end) h)
  | 2%nat =>
    match get_left h root with
    | None => TypeError (Tree (Some root) h)
    | Some l =>
      match rightmost (fuel_of h) h undefined l with
      | None => NoResult
      | Some (replacementParent, replacement) =>
        match replacementParent with
        | ref rp =>
          let h1 := set_right rp (get_left h replacement) h in
          let h2 := set_right replacement (get_right h1 root) h1 in
          let h3 := set_left replacement (get_left h2 root) h2 in
          Returns (Tree (Some replacement) h3)
        | undefined => TypeError (Tree (Some root) h)
        | null =>
          let h1 := set_right replacement (get_right h root) h in
          Returns (Tree (Some replacement) h1)
        end
      end
    end
  | _ => Returns (Tree (Some root) h)
  end.

(** That statement as [remove] runs it, [parent] being [null] or a node:
    reading [parent.value] throws when [parent] is [null]. *)
Definition place (root : option loc) (h : gmap loc node) (c : node)
    (parent : option loc) (x : option loc) : outcome :=
  match parent with
  | None => TypeError (Tree root h)
  | Some p =>
    match h !! p with
    | None => NoResult
    | Some pn => Returns (Tree root (relink h c pn p x))
    end
  end.

(** The part of [remove] that runs once the id set of [current] is
    empty and [current] is not the root. *)
Definition remove_inner (t : BinarySearchTree) (h : gmap loc node)
    (parent : option loc) (current : loc) (cn : node) : outcome :=
  match childCount cn with
  | 0%nat => place (_root t) h cn parent None
  | 1%nat =>
    place (_root t) h cn parent
      (match left cn with None => right cn | Some _ => left cn end)
  | 2%nat =>
    match left cn with
    | None => TypeError (Tree (_root t) h)
    | Some l =>
      match rightmost (fuel_of h) h (ref current) l with
      | None => NoResult
      | Some (replacementParent, replacement) =>
        match replacementParent with
        | ref rp =>
          let h1 := set_right rp (get_left h replacement) h in
          let h2 := set_right replacement (get_right h1 current) h1 in
          let h3 := set_left replacement (get_left h2 current) h2 in
          place (_root t) h3 cn parent (Some replacement)
        | _ => TypeError (Tree (_root t) h)
        end
      end
    end
  | _ => Returns (Tree (_root t) h)
  end.

(** [remove]: search, [delete current.ids[id]], return if ids are left
    ([Object.keys(current.ids).length]), else excise [current]. *)
Definition remove (v : K) (i : id) (t : BinarySearchTree) : outcome :=
  match remove_search (fuel_of (heap t)) v (heap t) None (_root t) with
  | None => NoResult
  | Some (false, _, _) => Returns t
  | Some (true, _, None) => NoResult
  | Some (true, parent, Some current) =>
    match heap t !! current with
    | None => NoResult
    | Some cn =>
      let s := ids cn ∖ {[ i ]} in
      let h := set_ids current s (heap t) in
      if negb (Nat.eqb (size s) 0) then Returns (Tree (_root t) h)
      else
        let cn' := Node (value cn) (left cn) (right cn) s in
        if decide (Some current = _root t)
        then remove_root h current cn'
        else remove_inner t h parent current cn'
    end
  end.

End Tree.

Arguments node K : clear implicits.
Arguments BinarySearchTree K : clear implicits.
Arguments outcome K : clear implicits.

(** Integer keys, the JavaScript numbers of the spec's scenarios. *)
Global Instance Z_compare : Compare Z := Z.ltb.

(** JavaScript numbers with [NaN]: every comparison with [NaN] is
    false. *)
Inductive number : Type :=
| Num (z : Z)
| NaN.

Global Instance number_compare : Compare number := λ a b,
  match a, b with
  | Num x, Num y => Z.ltb x y
  | _, _ => false
  end.

(** A run of [add] calls, stopping at the first that does not return. *)
Definition adds {K} `{Compare K} (ops : list (K * id)) (t : BinarySearchTree K) : outcome K :=
  foldl (λ o op, match o with Returns t => add op.1 op.2 t | _ => o end) (Returns t) ops.

(** The tree object that a run of [add] calls builds from a new tree. *)
Definition built (ops : list (Z * id)) : BinarySearchTree Z :=
  match adds ops new_tree with Returns t => t | _ => new_tree end.

(** Root 5 with the left subtree 2, 1, 4, 3 and the right subtree 8, 7, 9. *)
Definition tree_two_children : BinarySearchTree Z :=
  built [(5, "e"); (2, "b"); (1, "a"); (4, "d"); (3, "c");
         (8, "h"); (7, "g"); (9, "i")].

(** Root 5 with the children 3 and 8. *)
Definition tree_root_538 : BinarySearchTree Z :=
  built [(5, "a"); (3, "b"); (8, "c")].

(** Root 10 with the left child 5, whose children are 3 and 8. *)
Definition tree_inner_538 : BinarySearchTree Z :=
  built [(10, "a"); (5, "b"); (3, "c"); (8, "d")].

(** A tree object with the single key 5. *)
Definition tree5 : BinarySearchTree Z :=
  Tree (Some 1%positive) {[ 1%positive := Node 5 None None {[ "a" ]} ]}.

(** A tree object with the single key 1, over numbers with [NaN]. *)
Definition tree1 : BinarySearchTree number :=
  Tree (Some 1%positive) {[ 1%positive := Node (Num 1) None None {[ "a" ]} ]}.

(** ** The tree a store holds

    [ptree] is the shape reachable from a root: every node with its
    address.  [repr h T] reads: store [h] holds, at the addresses of [T],
    exactly the nodes of [T] linked as in [T]. *)
Section Shape.
Context {K : Type} `{Compare K}.

Inductive ptree : Type :=
| Leaf
| Br (l : loc) (L : ptree) (k : K) (s : gset id) (R : ptree).

Definition ptr (T : ptree) : option loc :=
  match T with Leaf => None | Br l _ _ _ _ => Some l end.

Fixpoint plocs (T : ptree) : list loc :=
  match T with
  | Leaf => []
  | Br l L _ _ R => plocs L ++ l :: plocs R
  end.

Fixpoint pnodes (T : ptree) : list (node K) :=
  match T with
  | Leaf => []
  | Br _ L k s R => pnodes L ++ Node k (ptr L) (ptr R) s :: pnodes R
  end.

Fixpoint pitems (T : ptree) : list (K * gset id) :=
  match T with
  | Leaf => []
  | Br _ L k s R => pitems L ++ (k, s) :: pitems R
  end.

Fixpoint pkeys (T : ptree) : list K :=
  match T with
  | Leaf => []
  | Br _ L k _ R => pkeys L ++ k :: pkeys R
  end.

Fixpoint pheight (T : ptree) : nat :=
  match T with
  | Leaf => O
  | Br _ L _ _ R => S (Nat.max (pheight L) (pheight R))
  end.

Fixpoint repr (h : gmap loc (node K)) (T : ptree) : Prop :=
  match T with
  | Leaf => True
  | Br l L k s R =>
    h !! l = Some (Node k (ptr L) (ptr R) s) ∧ repr h L ∧ repr h R
  end.

(** The tree object [t] holds the tree [T], and no node twice. *)
Definition represents (t : BinarySearchTree K) (T : ptree) : Prop :=
  _root t = ptr T ∧ repr (heap t) T ∧ NoDup (plocs T).

(** Search order: smaller keys to the left, greater to the right. *)
Fixpoint bst (T : ptree) : Prop :=
  match T with
  | Leaf => True
  | Br _ L k _ R =>
    (∀ x, x ∈ pkeys L → js_lt x k = true) ∧
    (∀ x, x ∈ pkeys R → js_lt k x = true) ∧
    bst L ∧ bst R
  end.

Definition ids_nonempty (T : ptree) : Prop :=
  ∀ k s, (k, s) ∈ pitems T → s ≠ ∅.

(** The data model of the spec: a search tree, no node shared, every
    id set non-empty. *)
Definition valid (t : BinarySearchTree K) : Prop :=
  ∃ T, represents t T ∧ bst T ∧ ids_nonempty T.

(** What the search loop finds in [T]. *)
Fixpoint psearch (v : K) (T : ptree) : option (loc * gset id) :=
  match T with
  | Leaf => None
  | Br l L k s R =>
    if js_lt v k then psearch v L
    else if js_gt v k then psearch v R
    else Some (l, s)
  end.

(** What the loop of [add] makes of [T]. *)
Fixpoint pinsert (nd : loc) (v : K) (i : id) (T : ptree) : ptree :=
  match T with
  | Leaf => Br nd Leaf v (set_id i ∅) Leaf
  | Br l L k s R =>
    if js_lt v k then Br l (pinsert nd v i L) k s R
    else if js_gt v k then Br l L k s (pinsert nd v i R)
    else Br l L k (set_id i s) R
  end.

Definition ascending (l : list K) : Prop :=
  StronglySorted (λ a b, js_lt a b = true) l.

(** Two tree objects hold the same tree: the same root and, at every
    address reachable from it, the same node. *)
Definition same_tree (t1 t2 : BinarySearchTree K) : Prop :=
  ∃ T, represents t1 T ∧ represents t2 T.

(** The structure of a tree object: its root and, for every node, the
    key and the two links; the id sets are left out. *)
Definition structure (t : BinarySearchTree K) :
    option loc * gmap loc (K * option loc * option loc) :=
  (_root t, (λ n, (value n, left n, right n)) <$> heap t).

(** What the search loop of [remove] returns on [T]. *)
Fixpoint pparent (parent : option loc) (v : K) (T : ptree) :
    bool * option loc * option loc :=
  match T with
  | Leaf => (false, parent, None)
  | Br l L k s R =>
    if js_lt v k then pparent (Some l) v L
    else if js_gt v k then pparent (Some l) v R
    else (true, parent, Some l)
  end.

(** [T] with a childless node for [v] hung where the search for [v]
    leaves [T]; a node of [T] that the search finds is left as it is. *)
Fixpoint pgraft (nd : loc) (v : K) (s : gset id) (T : ptree) : ptree :=
  match T with
  | Leaf => Br nd Leaf v s Leaf
  | Br l L k s' R =>
    if js_lt v k then Br l (pgraft nd v s L) k s' R
    else if js_gt v k then Br l L k s' (pgraft nd v s R)
    else Br l L k s' R
  end.

(** The subtree of [T] at the node the search for [v] stops at. *)
Fixpoint pfind (v : K) (T : ptree) : ptree :=
  match T with
  | Leaf => Leaf
  | Br l L k s R =>
    if js_lt v k then pfind v L
    else if js_gt v k then pfind v R
    else T
  end.

(** [T] with that subtree replaced by [N]. *)
Fixpoint preplace (v : K) (N : ptree) (T : ptree) : ptree :=
  match T with
  | Leaf => Leaf
  | Br l L k s R =>
    if js_lt v k then Br l (preplace v N L) k s R
    else if js_gt v k then Br l L k s (preplace v N R)
    else N
  end.

(** The right-most node of a tree: address, key and id set. *)
Fixpoint pmax (l : loc) (k : K) (s : gset id) (R : ptree) : loc * K * gset id :=
  match R with
  | Leaf => (l, k, s)
  | Br l' _ k' s' R' => pmax l' k' s' R'
  end.

(** A tree without its right-most node, whose left subtree takes its
    place. *)
Fixpoint pdelmax (T : ptree) : ptree :=
  match T with
  | Leaf => Leaf
  | Br l L k s Leaf => L
  | Br l L k s R => Br l L k s (pdelmax R)
  end.

(** The left subtree of the right-most node. *)
Fixpoint pmaxleft (L R : ptree) : ptree :=
  match R with
  | Leaf => L
  | Br _ L' _ _ R' => pmaxleft L' R'
  end.

(** What [replacementParent] holds after the descent to the right-most
    node, having been [rp] before it. *)
Fixpoint pmaxparent (rp : jsvar) (l : loc) (R : ptree) : jsvar :=
  match R with
  | Leaf => rp
  | Br l' _ _ _ R' => pmaxparent (ref l) l' R'
  end.

(** What [remove] makes of the subtree at a node whose id set became
    empty, on the paths that keep the tree a tree: a childless node goes,
    an only child moves up, and of two children the right-most node of
    the left subtree moves up when it is not the left child itself. *)
Definition pexcise (N : ptree) : option ptree :=
  match N with
  | Leaf => None
  | Br _ Leaf _ _ R => Some R
  | Br _ L _ _ Leaf => Some L
  | Br _ (Br _ _ _ _ Leaf) _ _ _ => None
  | Br _ (Br ll LL kl sl LR as L) _ _ R =>
    let '(m, km, sm) := pmax ll kl sl LR in
    Some (Br m (pdelmax L) km sm R)
  end.

End Shape.

(** The three assignments that move [replacement] into the place of
    [current]: [replacementParent.right = replacement.left],
    [replacement.right = current.right], [replacement.left = current.left]. *)
Definition splice {K : Type} (h : gmap loc (node K))
    (current rp replacement : loc) : gmap loc (node K) :=
  let h1 := set_right rp (get_left h replacement) h in
  let h2 := set_right replacement (get_right h1 current) h1 in
  set_left replacement (get_left h2 current) h2.

(** The node at which the search for [v] stops, if it finds one. *)
Definition found_node {K : Type} `{Compare K} (v : K) (t : BinarySearchTree K) :
    option loc :=
  match search_loop (fuel_of (heap t)) v (heap t) (_root t) with
  | Some (true, Some c) => Some c
  | _ => None
  end.

(** The shape on which the two-children paths of [remove] go wrong: node
    [cn] has two children and its left child has no right child. *)
Definition left_child_is_rightmost {K : Type} (h : gmap loc (node K))
    (cn : node K) : Prop :=
  ∃ l r ln, left cn = Some l ∧ right cn = Some r ∧
            h !! l = Some ln ∧ right ln = None.

Arguments ptree K : clear implicits.

(** Solves [Forall (λ op, op.2 ≠ "__proto__") ops] on a literal list. *)
Ltac no_proto := repeat (constructor; [discriminate|]); constructor.

(** ** Storing an id *)
Lemma elem_of_set_id (j i : id) (s : gset id) :
  j ∈ set_id i s ↔ (j = i ∧ i ≠ "__proto__"%string) ∨ j ∈ s.
Proof. unfold set_id. case_decide; set_solver. Qed.

Lemma set_id_idem (i : id) (s : gset id) : set_id i (set_id i s) = set_id i s.
Proof. unfold set_id. case_decide; set_solver. Qed.

Lemma set_id_difference (i : id) (s : gset id) :
  i ∉ s → set_id i s ∖ {[ i ]} = s.
Proof. intros Hi. unfold set_id. case_decide; set_solver. Qed.

(** ** Reading a represented tree *)
Section Read.
Context {K : Type} `{Compare K}.
Implicit Types (h : gmap loc (node K)) (T : ptree K) (t : BinarySearchTree K).

Lemma repr_frame h h' T :
  repr h T → (∀ l, l ∈ plocs T → h' !! l = h !! l) → repr h' T.
Proof.
  induction T as [|l L IHL k s R IHR]; simpl; [done|].
  intros (Hl & HL & HR) Hsame. split_and!.
  - rewrite Hsame; [done|]. set_solver.
  - apply IHL; [done|]. intros; apply Hsame; set_solver.
  - apply IHR; [done|]. intros; apply Hsame; set_solver.
Qed.

Lemma repr_is_Some h T l : repr h T → l ∈ plocs T → is_Some (h !! l).
Proof.
  induction T as [|l' L IHL k s R IHR]; simpl; [set_solver|].
  intros (Hl & HL & HR) Hin.
  apply elem_of_app in Hin as [Hin|Hin]; [by apply IHL|].
  apply elem_of_cons in Hin as [->|Hin]; [by eexists|by apply IHR].
Qed.

Lemma pheight_length T : (pheight T ≤ length (plocs T))%nat.
Proof.
  induction T as [|l L IHL k s R IHR]; simpl; [done|].
  rewrite length_app; simpl. lia.
Qed.

Lemma plocs_size h T : repr h T → NoDup (plocs T) → (length (plocs T) ≤ size h)%nat.
Proof.
  intros Hr Hnd.
  rewrite <- (size_list_to_set (C := gset loc)) by done.
  rewrite <- (size_dom (D := gset loc)).
  apply subseteq_size. intros l Hl.
  apply elem_of_list_to_set in Hl. apply elem_of_dom. by eapply repr_is_Some.
Qed.

Lemma fuel_enough h T : repr h T → NoDup (plocs T) → (pheight T < fuel_of h)%nat.
Proof.
  intros Hr Hnd. unfold fuel_of.
  pose proof (pheight_length T). pose proof (plocs_size h T Hr Hnd). lia.
Qed.

Lemma search_loop_spec v h T fuel :
  repr h T → (pheight T < fuel)%nat →
  search_loop fuel v h (ptr T) =
    Some (match psearch v T with
          | Some (l, _) => (true, Some l)
          | None => (false, None)
          end).
Proof.
  revert fuel. induction T as [|l L IHL k s R IHR]; intros fuel Hr Hf.
  - destruct fuel; [lia|done].
  - destruct fuel as [|fuel]; [simpl in Hf; lia|].
    destruct Hr as (Hl & HL & HR). simpl in Hf. simpl. rewrite Hl. simpl.
    destruct (js_lt v k); [apply IHL; [done|lia]|].
    destruct (js_gt v k); [apply IHR; [done|lia]|]. done.
Qed.

Lemma psearch_lookup v h T l s :
  repr h T → psearch v T = Some (l, s) → ∃ n, h !! l = Some n ∧ ids n = s ∧ l ∈ plocs T.
Proof.
  induction T as [|l' L IHL k s' R IHR]; simpl; [done|].
  intros (Hl & HL & HR).
  destruct (js_lt v k).
  { intros Hs. destruct (IHL HL Hs) as (n & ? & ? & ?). exists n.
    rewrite elem_of_app. split_and!; auto. }
  destruct (js_gt v k).
  { intros Hs. destruct (IHR HR Hs) as (n & ? & ? & ?). exists n.
    rewrite elem_of_app, elem_of_cons. split_and!; auto. }
  intros [= <- <-]. eexists. rewrite elem_of_app, elem_of_cons. split_and!; eauto.
Qed.

Lemma contains_spec v t T :
  represents t T → contains v t = Some (bool_decide (is_Some (psearch v T))).
Proof.
  intros (Hroot & Hr & Hnd). unfold contains.
  rewrite Hroot, (search_loop_spec v _ T) by eauto using fuel_enough.
  by destruct (psearch v T) as [[??]|].
Qed.

Lemma equals_spec v t T :
  represents t T → equals v t = Some (from_option snd ∅ (psearch v T)).
Proof.
  intros (Hroot & Hr & Hnd). unfold equals.
  rewrite Hroot, (search_loop_spec v _ T) by eauto using fuel_enough.
  destruct (psearch v T) as [[l s]|] eqn:Hs; [|done].
  destruct (psearch_lookup v _ T l s Hr Hs) as (n & -> & <- & _). done.
Qed.

Lemma inOrder_spec {A} (process : node K → A → A) h T fuel acc :
  repr h T → (pheight T < fuel)%nat →
  inOrder fuel h process (ptr T) acc =
    Some (foldl (λ a n, process n a) acc (pnodes T)).
Proof.
  revert fuel acc. induction T as [|l L IHL k s R IHR]; intros fuel acc Hr Hf.
  - destruct fuel; [lia|done].
  - destruct fuel as [|fuel]; [simpl in Hf; lia|].
    destruct Hr as (Hl & HL & HR). simpl in Hf. simpl. rewrite Hl. simpl.
    rewrite foldl_app. simpl.
    assert (match ptr L with
            | Some _ => inOrder fuel h process (ptr L) acc
            | None => Some acc
            end = Some (foldl (λ a n, process n a) acc (pnodes L))) as ->.
    { destruct L; [done|]. apply IHL; [done|lia]. }
    destruct R; [done|]. apply IHR; [done|lia].
Qed.

Lemma pnodes_items T : (λ n : node K, (value n, ids n)) <$> pnodes T = pitems T.
Proof.
  induction T as [|l L IHL k s R IHR]; [done|].
  cbn [pnodes pitems]. rewrite fmap_app, fmap_cons, IHL, IHR. done.
Qed.

Lemma toArray_spec t T : represents t T → toArray t = Some (pitems T).
Proof.
  intros (Hroot & Hr & Hnd). unfold toArray, traverse.
  rewrite Hroot, (inOrder_spec _ _ T) by eauto using fuel_enough.
  f_equal. rewrite <- pnodes_items.
  generalize (pnodes T). intros ns.
  assert (∀ acc : list (K * gset id),
    foldl (λ a n, a ++ [(value n, ids n)]) acc ns =
    acc ++ ((λ n : node K, (value n, ids n)) <$> ns)) as Hgen.
  { induction ns as [|n ns IH]; intros acc; simpl; [by rewrite app_nil_r|].
    rewrite IH. by rewrite <- app_assoc. }
  apply (Hgen []).
Qed.

Lemma size_spec t T : represents t T → size_ t = Some (length (pitems T)).
Proof.
  intros (Hroot & Hr & Hnd). unfold size_, traverse.
  rewrite Hroot, (inOrder_spec _ _ T) by eauto using fuel_enough.
  f_equal. rewrite <- pnodes_items, length_fmap.
  generalize (pnodes T). intros ns.
  assert (∀ acc : nat, foldl (λ a (_ : node K), S a) acc ns = (acc + length ns)%nat) as Hgen.
  { induction ns as [|n ns IH]; intros acc; simpl; [lia|]. rewrite IH. lia. }
  apply (Hgen O).
Qed.

End Read.

(** ** Writing into a represented tree *)
Section Write.
Context {K : Type} `{Compare K}.
Implicit Types (h : gmap loc (node K)) (T : ptree K) (t : BinarySearchTree K).

Lemma lookup_set_left h l x n :
  h !! l = Some n → set_left l x h !! l = Some (Node (value n) x (right n) (ids n)).
Proof. intros Hl. unfold set_left. by rewrite lookup_alter_eq, Hl. Qed.

Lemma lookup_set_right h l x n :
  h !! l = Some n → set_right l x h !! l = Some (Node (value n) (left n) x (ids n)).
Proof. intros Hl. unfold set_right. by rewrite lookup_alter_eq, Hl. Qed.

Lemma lookup_set_ids h l x n :
  h !! l = Some n → set_ids l x h !! l = Some (Node (value n) (left n) (right n) x).
Proof. intros Hl. unfold set_ids. by rewrite lookup_alter_eq, Hl. Qed.

Lemma lookup_set_left_ne h l l' x : l ≠ l' → set_left l x h !! l' = h !! l'.
Proof. intros. unfold set_left. by rewrite lookup_alter_ne. Qed.

Lemma lookup_set_right_ne h l l' x : l ≠ l' → set_right l x h !! l' = h !! l'.
Proof. intros. unfold set_right. by rewrite lookup_alter_ne. Qed.

Lemma lookup_set_ids_ne h l l' x : l ≠ l' → set_ids l x h !! l' = h !! l'.
Proof. intros. unfold set_ids. by rewrite lookup_alter_ne. Qed.

Lemma ptree_cases T : T = Leaf ∨ ∃ l, ptr T = Some l ∧ T ≠ Leaf.
Proof. destruct T; [by left|right]. by eexists. Qed.

Lemma ptr_pinsert nd v i T : T ≠ Leaf → ptr (pinsert nd v i T) = ptr T.
Proof.
  destruct T as [|l L k s R]; [done|]. intros _. simpl.
  destruct (js_lt v k); [done|]. by destruct (js_gt v k).
Qed.

Lemma plocs_pinsert nd v i T l :
  l ∈ plocs (pinsert nd v i T) → l = nd ∨ l ∈ plocs T.
Proof.
  induction T as [|l' L IHL k s R IHR]; simpl.
  - rewrite elem_of_cons. intros [->|Hin]; [auto|]. by apply elem_of_nil in Hin.
  - destruct (js_lt v k); [|destruct (js_gt v k)]; simpl;
      rewrite !elem_of_app, !elem_of_cons; naive_solver.
Qed.

Lemma NoDup_pinsert nd v i T :
  NoDup (plocs T) → nd ∉ plocs T → NoDup (plocs (pinsert nd v i T)).
Proof.
  induction T as [|l' L IHL k s R IHR]; simpl.
  - intros _ _. apply NoDup_singleton.
  - rewrite elem_of_app, elem_of_cons.
    intros (HL & Hdisj & HR)%NoDup_app Hnd.
    apply NoDup_cons in HR as [HlR HR].
    destruct (js_lt v k); [|destruct (js_gt v k)]; simpl.
    + apply NoDup_app. split_and!.
      * apply IHL; [done|]. naive_solver.
      * intros x [->|Hx]%plocs_pinsert; [|by apply Hdisj].
        rewrite elem_of_cons. naive_solver.
      * by apply NoDup_cons.
    + apply NoDup_app. split_and!; [done| |].
      * intros x Hx. rewrite elem_of_cons.
        intros [->|[->|Hx']%plocs_pinsert].
        -- apply (Hdisj l' Hx). by left.
        -- naive_solver.
        -- apply (Hdisj x Hx). by right.
      * apply NoDup_cons. split.
        -- intros [->|Hx']%plocs_pinsert; naive_solver.
        -- apply IHR; [done|]. naive_solver.
    + apply NoDup_app. split_and!; [done|done|by apply NoDup_cons].
Qed.

Lemma add_loop_spec nd v i T : ∀ fuel h l,
  repr h T → ptr T = Some l → NoDup (plocs T) → nd ∉ plocs T →
  h !! nd = Some (Node v None None (set_id i ∅)) → (pheight T < fuel)%nat →
  ∃ h', add_loop fuel v i nd h l = Some h' ∧
        repr h' (pinsert nd v i T) ∧
        (∀ l', l' ∉ plocs T → h' !! l' = h !! l').
Proof.
  induction T as [|l' L IHL k s R IHR]; intros fuel h l Hr Hptr Hnd Hfresh Hnew Hf;
    [done|].
  simpl in Hptr. injection Hptr as ->.
  destruct fuel as [|fuel]; [simpl in Hf; lia|].
  destruct Hr as (Hl & HL & HR). simpl in Hf, Hnd, Hfresh.
  apply NoDup_app in Hnd as (HndL & Hdisj & HndR).
  apply NoDup_cons in HndR as [HlR HndR].
  rewrite elem_of_app, elem_of_cons in Hfresh.
  assert (l ∉ plocs L) as HlL.
  { intros Hin. apply (Hdisj l Hin). by left. }
  simpl. rewrite Hl. simpl.
  destruct (js_lt v k) eqn:Hlt; [|destruct (js_gt v k) eqn:Hgt].
  - destruct (ptree_cases L) as [->|(lL & HpL & HneL)].
    + eexists. split; [done|]. split.
      * simpl. split_and!; [|by rewrite lookup_set_left_ne by naive_solver|done..|].
        -- by rewrite (lookup_set_left _ _ _ _ Hl).
        -- apply (repr_frame h); [done|]. intros x Hx.
           apply lookup_set_left_ne. by intros ->.
      * intros x Hx. apply lookup_set_left_ne. intros ->. apply Hx.
        simpl. by left.
    + rewrite HpL.
      destruct (IHL fuel h lL) as (h' & Hrun & Hr' & Hframe);
        [done|done|done|naive_solver|done|lia|].
      exists h'. split; [done|]. split.
      * cbn [repr]. split_and!; [|done|].
        -- rewrite Hframe by done. rewrite Hl. f_equal. f_equal.
           symmetry. by apply ptr_pinsert.
        -- apply (repr_frame h); [done|]. intros x Hx. apply Hframe.
           intros Hin. apply (Hdisj x Hin). by right.
      * intros x Hx. apply Hframe. intros Hin. apply Hx.
        rewrite elem_of_app. by left.
  - destruct (ptree_cases R) as [->|(lR & HpR & HneR)].
    + eexists. split; [done|]. split.
      * simpl. split_and!; [| |by rewrite lookup_set_right_ne by naive_solver|done..].
        -- by rewrite (lookup_set_right _ _ _ _ Hl).
        -- apply (repr_frame h); [done|]. intros x Hx.
           apply lookup_set_right_ne. by intros ->.
      * intros x Hx. apply lookup_set_right_ne. intros ->. apply Hx.
        rewrite elem_of_app. right. by left.
    + rewrite HpR.
      destruct (IHR fuel h lR) as (h' & Hrun & Hr' & Hframe);
        [done|done|done|naive_solver|done|lia|].
      exists h'. split; [done|]. split.
      * cbn [repr]. split_and!; [| |done].
        -- rewrite Hframe by done. rewrite Hl. f_equal. f_equal.
           symmetry. by apply ptr_pinsert.
        -- apply (repr_frame h); [done|]. intros x Hx. apply Hframe.
           intros Hin. apply (Hdisj x Hx). by right.
      * intros x Hx. apply Hframe. intros Hin. apply Hx.
        rewrite elem_of_app, elem_of_cons. auto.
  - eexists. split; [done|]. split.
    + simpl. split_and!.
      * by rewrite (lookup_set_ids _ _ _ _ Hl).
      * apply (repr_frame h); [done|]. intros x Hx.
        apply lookup_set_ids_ne. by intros ->.
      * apply (repr_frame h); [done|]. intros x Hx.
        apply lookup_set_ids_ne. by intros ->.
    + intros x Hx. apply lookup_set_ids_ne. intros ->. apply Hx.
      rewrite elem_of_app, elem_of_cons. auto.
Qed.

Lemma repr_dom h T l : repr h T → l ∈ plocs T → l ∈ dom h.
Proof. intros. apply elem_of_dom. by eapply repr_is_Some. Qed.

Lemma add_spec v i t T :
  represents t T →
  ∃ t', add v i t = Returns t' ∧
        represents t' (pinsert (fresh (dom (heap t))) v i T).
Proof.
  intros (Hroot & Hr & Hnd). unfold add.
  set (nd := fresh (dom (heap t))).
  assert (nd ∉ plocs T) as Hfresh.
  { intros Hin. apply (is_fresh (dom (heap t))). by eapply repr_dom. }
  set (h := <[nd:=Node v None None (set_id i ∅)]> (heap t)).
  assert (repr h T) as Hr'.
  { apply (repr_frame (heap t)); [done|]. intros l Hl.
    apply lookup_insert_ne. by intros <-. }
  rewrite Hroot. destruct T as [|l L k s R].
  - eexists. split; [done|]. split_and!; [done| |apply NoDup_singleton].
    simpl. split_and!; [|done..]. apply lookup_insert_eq.
  - simpl ptr.
    destruct (add_loop_spec nd v i (Br l L k s R) (fuel_of h) h l)
      as (h' & -> & Hr'' & _); [done..|apply lookup_insert_eq|by apply fuel_enough|].
    eexists. split; [done|]. split_and!; [|done|by apply NoDup_pinsert].
    simpl. symmetry. by apply (ptr_pinsert nd v i (Br l L k s R)).
Qed.

End Write.

(** ** The search order *)
Section Order.
Context {K : Type} `{Compare K}.
Implicit Types (T : ptree K).

Lemma pitems_keys T : (pitems T).*1 = pkeys T.
Proof.
  induction T as [|l L IHL k s R IHR]; [done|].
  cbn [pitems pkeys]. rewrite fmap_app, fmap_cons, IHL, IHR. done.
Qed.

Lemma pitems_key T k s : (k, s) ∈ pitems T → k ∈ pkeys T.
Proof.
  intros Hin. rewrite <- pitems_keys.
  by apply (list_elem_of_fmap_2 fst) in Hin.
Qed.

Lemma pkeys_pinsert nd v i T x :
  x ∈ pkeys (pinsert nd v i T) → x = v ∨ x ∈ pkeys T.
Proof.
  induction T as [|l L IHL k s R IHR]; simpl.
  - rewrite elem_of_cons. intros [->|Hin]; [auto|]. by apply elem_of_nil in Hin.
  - destruct (js_lt v k); [|destruct (js_gt v k)]; simpl;
      rewrite !elem_of_app, !elem_of_cons; naive_solver.
Qed.

Lemma bst_pinsert nd v i T : bst T → bst (pinsert nd v i T).
Proof.
  induction T as [|l L IHL k s R IHR]; simpl.
  - intros _. split_and!; [|  |done..]; intros x Hx; by apply elem_of_nil in Hx.
  - intros (HL & HR & HbL & HbR).
    destruct (js_lt v k) eqn:Hlt; [|destruct (js_gt v k) eqn:Hgt]; simpl.
    + split_and!; [|done|by apply IHL|done].
      intros x [->|Hx]%pkeys_pinsert; [done|by apply HL].
    + split_and!; [done| |done|by apply IHR].
      intros x [->|Hx]%pkeys_pinsert; [done|by apply HR].
    + done.
Qed.

Lemma pitems_pinsert nd v i T k s :
  i ≠ "__proto__"%string →
  (k, s) ∈ pitems (pinsert nd v i T) → (k, s) ∈ pitems T ∨ i ∈ s.
Proof.
  intros Hi. induction T as [|l L IHL k' s' R IHR]; simpl.
  - rewrite elem_of_cons. intros [[= -> ->]|Hin].
    + right. apply elem_of_set_id. auto.
    + by apply elem_of_nil in Hin.
  - destruct (js_lt v k') eqn:Hlt; [|destruct (js_gt v k') eqn:Hgt]; simpl;
      rewrite !elem_of_app, !elem_of_cons; [naive_solver..|].
    intros [Hin|[[= -> ->]|Hin]]; [auto| |auto].
    right. apply elem_of_set_id. auto.
Qed.

Lemma ids_nonempty_pinsert nd v i T :
  i ≠ "__proto__"%string →
  ids_nonempty T → ids_nonempty (pinsert nd v i T).
Proof.
  intros Hi Hne k s [Hin|Hin]%pitems_pinsert; [by eapply Hne| |done].
  intros ->. by apply not_elem_of_empty in Hin.
Qed.

(** An insertion under a key the search finds changes that node's id
    set and nothing else. *)
Lemma pinsert_present nd v i T l s :
  psearch v T = Some (l, s) →
  psearch v (pinsert nd v i T) = Some (l, set_id i s) ∧
  pkeys (pinsert nd v i T) = pkeys T ∧
  plocs (pinsert nd v i T) = plocs T.
Proof.
  induction T as [|l' L IHL k s' R IHR]; simpl; [done|].
  destruct (js_lt v k) eqn:Hlt; [|destruct (js_gt v k) eqn:Hgt]; simpl;
    rewrite ?Hlt, ?Hgt.
  - intros (-> & -> & ->)%IHL. done.
  - intros (-> & -> & ->)%IHR. done.
  - intros [= <- <-]. done.
Qed.

End Order.

Section OrderLaws.
Context {K : Type} `{StrictTotal K}.
Implicit Types (T : ptree K).

Lemma lt_asym (a b : K) : js_lt a b = true → js_lt b a = false.
Proof.
  intros Hab. destruct (js_lt b a) eqn:Hba; [|done].
  by rewrite <- (lt_irrefl a), (lt_trans a b a).
Qed.

Lemma bst_ascending T : bst T → ascending (pkeys T).
Proof.
  induction T as [|l L IHL k s R IHR]; simpl; [intros _; constructor|].
  intros (HL & HR & HbL & HbR). apply StronglySorted_app_2.
  - intros x1 x2 Hx1 [->|Hx2]%elem_of_cons; [by apply HL|].
    apply (lt_trans x1 k x2); [by apply HL|by apply HR].
  - by apply IHL.
  - apply StronglySorted_cons. split; [|by apply IHR].
    by apply Forall_forall.
Qed.

Lemma ascending_NoDup (l : list K) : ascending l → NoDup l.
Proof.
  induction 1 as [|x l Hs IH Hx]; [constructor|].
  apply NoDup_cons. split; [|done].
  intros Hin. rewrite Forall_forall in Hx.
  specialize (Hx x Hin). by rewrite lt_irrefl in Hx.
Qed.

Lemma psearch_absent v T : v ∉ pkeys T → psearch v T = None.
Proof.
  induction T as [|l L IHL k s R IHR]; simpl; [done|].
  rewrite elem_of_app, elem_of_cons. intros Hnot.
  destruct (js_lt v k) eqn:Hlt; [apply IHL; naive_solver|].
  unfold js_gt. destruct (js_lt k v) eqn:Hgt; [apply IHR; naive_solver|].
  destruct Hnot. right; left. by apply lt_total.
Qed.

Lemma psearch_item v T l s : psearch v T = Some (l, s) → (v, s) ∈ pitems T.
Proof.
  induction T as [|l' L IHL k s' R IHR]; simpl; [done|].
  rewrite elem_of_app, elem_of_cons.
  destruct (js_lt v k) eqn:Hlt; [auto|].
  unfold js_gt. destruct (js_lt k v) eqn:Hgt; [auto|].
  intros [= <- <-]. right; left. f_equal. by apply lt_total.
Qed.

Lemma psearch_present T k s :
  bst T → (k, s) ∈ pitems T → ∃ l, psearch k T = Some (l, s).
Proof.
  induction T as [|l L IHL k' s' R IHR]; simpl.
  - intros _ Hin. by apply elem_of_nil in Hin.
  - intros (HL & HR & HbL & HbR).
    rewrite elem_of_app, elem_of_cons. unfold js_gt.
    intros [Hin|[[= -> ->]|Hin]].
    + rewrite (HL k) by by eapply pitems_key. by apply IHL.
    + rewrite lt_irrefl. by eexists.
    + assert (js_lt k' k = true) as Hlt by (apply HR; by eapply pitems_key).
      rewrite (lt_asym k' k), Hlt by done. by apply IHR.
Qed.

Lemma pinsert_idem nd nd' v i T :
  pinsert nd' v i (pinsert nd v i T) = pinsert nd v i T.
Proof.
  induction T as [|l L IHL k s R IHR]; simpl.
  - unfold js_gt. rewrite lt_irrefl. f_equal. apply set_id_idem.
  - destruct (js_lt v k) eqn:Hlt; [|destruct (js_gt v k) eqn:Hgt]; simpl;
      rewrite ?Hlt, ?Hgt; [by rewrite ?IHL, ?IHR..|].
    f_equal. apply set_id_idem.
Qed.

End OrderLaws.

Global Instance Z_strict_total : StrictTotal Z.
Proof.
  split; unfold js_lt, Z_compare.
  - intros a. apply Z.ltb_irrefl.
  - intros a b c ?%Z.ltb_lt ?%Z.ltb_lt. apply Z.ltb_lt. lia.
  - intros a b ?%Z.ltb_ge ?%Z.ltb_ge. lia.
Qed.

(** ** Trees built by insertions *)
Section Insertions.
Context {K : Type} `{Compare K}.
Implicit Types (T : ptree K) (t : BinarySearchTree K).

Lemma new_tree_valid : valid (new_tree (K := K)).
Proof.
  exists Leaf. split; [|split; [done|]].
  - split; [done|]. split; [done|constructor].
  - intros k s Hin. by apply elem_of_nil in Hin.
Qed.

Lemma add_valid v i t :
  i ≠ "__proto__"%string → valid t → ∃ t', add v i t = Returns t' ∧ valid t'.
Proof.
  intros Hi (T & Hrep & Hbst & Hne).
  destruct (add_spec v i t T Hrep) as (t' & Hadd & Hrep').
  exists t'. split; [done|]. eexists. split; [done|]. split.
  - by apply bst_pinsert.
  - by apply ids_nonempty_pinsert.
Qed.

Lemma adds_snoc ops v i t :
  adds (ops ++ [(v, i)]) t =
    match adds ops t with Returns t' => add v i t' | o => o end.
Proof.
  unfold adds. rewrite foldl_app. simpl.
  by destruct (foldl _ _ ops).
Qed.

(** A run of [add] calls keeps the data model when none of its ids is
    ["__proto__"]; with that id a node with an empty id set comes to be. *)
Lemma adds_valid ops t :
  Forall (λ op, op.2 ≠ "__proto__"%string) ops →
  valid t → ∃ t', adds ops t = Returns t' ∧ valid t'.
Proof.
  intros Hops Hv. induction ops as [|[v i] ops IH] using rev_ind.
  - by exists t.
  - apply Forall_app in Hops as [Hops Hi].
    rewrite Forall_singleton in Hi. simpl in Hi.
    destruct (IH Hops) as (t1 & Hrun & Hv1).
    destruct (add_valid v i t1 Hi Hv1) as (t2 & Hadd & Hv2).
    exists t2. by rewrite adds_snoc, Hrun.
Qed.

Lemma new_tree_represents : represents (new_tree (K := K)) Leaf.
Proof. split; [done|]. split; [done|constructor]. Qed.

End Insertions.

Lemma tree5_represents : represents tree5 (Br 1%positive Leaf 5 {[ "a" ]} Leaf).
Proof.
  split; [reflexivity|]. split; [|apply NoDup_singleton].
  simpl. split; [reflexivity|]. split; exact I.
Qed.

Lemma tree5_valid : valid tree5.
Proof.
  exists (Br 1%positive Leaf 5 {[ "a" ]} Leaf).
  split; [exact tree5_represents|]. split.
  - simpl. split_and!; [| |done..]; intros x Hx; by apply elem_of_nil in Hx.
  - intros k s Hin. simpl in Hin. apply list_elem_of_singleton in Hin.
    injection Hin as -> ->. intros Hempty.
    assert ("a" ∈ ({[ "a" ]} : gset id)) as Ha by by apply elem_of_singleton.
    rewrite Hempty in Ha. by apply not_elem_of_empty in Ha.
Qed.

(** ** Claims on insertion *)

(** C4.  The run add(5, "a"), add(5, "__proto__") on a new tree: both
    calls return and [toArray] lists the one key 5; the second call, an
    insertion under an equal key, creates no node, and it does not
    augment the id set of the node either: [equals(5)] is the set of
    ["a"] alone before the call and after it. *)
Theorem C4_equal_key_add_stores_no_proto :
  ∃ t t',
    adds [(5, "a")] new_tree = Returns t ∧
    add 5 "__proto__" t = Returns t' ∧
    toArray t = Some [(5, {[ "a" ]})] ∧
    toArray t' = Some [(5, {[ "a" ]})] ∧
    equals 5 t = Some {[ "a" ]} ∧
    equals 5 t' = Some {[ "a" ]} ∧
    size_ t' = Some 1%nat.
Proof.
  eexists _, _.
  split; [vm_compute; reflexivity|].
  split; [vm_compute; reflexivity|].
  repeat split; vm_compute; reflexivity.
Qed.

(** C5.  A second [add] of the same key and id returns, and leaves the
    tree that the first one made: the same root, the same nodes with the
    same links and id sets, hence the same [equals] and [toArray]. *)
Theorem C5_add_twice_same_tree {K : Type} `{StrictTotal K}
    (t : BinarySearchTree K) (T : ptree K) (v : K) (i : id) :
  represents t T →
  ∃ t1 t2,
    add v i t = Returns t1 ∧ add v i t1 = Returns t2 ∧
    same_tree t1 t2 ∧
    _root t2 = _root t1 ∧
    equals v t2 = equals v t1 ∧
    toArray t2 = toArray t1.
Proof.
  intros Hrep.
  destruct (add_spec v i t T Hrep) as (t1 & Hadd1 & Hrep1).
  destruct (add_spec v i t1 _ Hrep1) as (t2 & Hadd2 & Hrep2).
  rewrite pinsert_idem in Hrep2.
  exists t1, t2. split_and!; [done|done|by eexists| | |].
  - destruct Hrep1 as (-> & _), Hrep2 as (-> & _). done.
  - by rewrite (equals_spec v t2 _ Hrep2), (equals_spec v t1 _ Hrep1).
  - by rewrite (toArray_spec t2 _ Hrep2), (toArray_spec t1 _ Hrep1).
Qed.

(** C6.  On the tree built by add(5, "a"), add(2, "b"): right after
    add(7, "__proto__") the call [contains(7)] gives true and
    [equals(7)] gives the empty set; right after add(5, "__proto__") the
    call [equals(5)] gives the set of ["a"] alone.  In neither case does
    the set hold the id just added. *)
Theorem C6_add_proto_then_lookup :
  ∃ t t7 t5,
    adds [(5, "a"); (2, "b")] new_tree = Returns t ∧
    add 7 "__proto__" t = Returns t7 ∧
    contains 7 t7 = Some true ∧
    equals 7 t7 = Some ∅ ∧
    add 5 "__proto__" t = Returns t5 ∧
    contains 5 t5 = Some true ∧
    equals 5 t5 = Some {[ "a" ]} ∧
    "__proto__" ∉ ({[ "a" ]} : gset id).
Proof.
  eexists _, _, _.
  split; [vm_compute; reflexivity|].
  split; [vm_compute; reflexivity|].
  split; [vm_compute; reflexivity|].
  split; [vm_compute; reflexivity|].
  split; [vm_compute; reflexivity|].
  split; [vm_compute; reflexivity|].
  split; [vm_compute; reflexivity|].
  by intros [=]%elem_of_singleton.
Qed.

Lemma C5_witness :
  represents tree5 (Br 1%positive Leaf 5 {[ "a" ]} Leaf) ∧
  ∃ t1 t2,
    add 5 "b" tree5 = Returns t1 ∧ add 5 "b" t1 = Returns t2 ∧
    same_tree t1 t2 ∧
    _root t2 = _root t1 ∧
    equals 5 t2 = equals 5 t1 ∧
    toArray t2 = toArray t1.
Proof.
  split; [exact tree5_represents|].
  exact (C5_add_twice_same_tree tree5 _ 5 "b" tree5_represents).
Defined.

(** ** The scenario of the spec: root 5, left subtree 2, 1, 4, 3, right
    subtree 8, 7, 9 *)

(** C3.  Build the tree by inserting 5, then 2, 1, 4, 3, then 8, 7, 9,
    each with one id; [remove] of key 5 with its id returns, and then
    [toArray] lists exactly the keys 1, 2, 3, 4, 7, 8, 9 in this order,
    [contains] is true for each of them and false for 5. *)
Theorem C3_remove_root_two_children :
  ∃ t t' arr,
    adds [(5, "e"); (2, "b"); (1, "a"); (4, "d"); (3, "c");
          (8, "h"); (7, "g"); (9, "i")] new_tree = Returns t ∧
    remove 5 "e" t = Returns t' ∧
    toArray t' = Some arr ∧
    arr.*1 = [1; 2; 3; 4; 7; 8; 9] ∧
    Forall (λ k, contains k t' = Some true) [1; 2; 3; 4; 7; 8; 9] ∧
    contains 5 t' = Some false.
Proof.
  eexists _, _, _.
  split; [vm_compute; reflexivity|].
  split; [vm_compute; reflexivity|].
  split; [vm_compute; reflexivity|].
  split; [vm_compute; reflexivity|].
  split; [|vm_compute; reflexivity].
  repeat constructor; vm_compute; reflexivity.
Qed.

(** ** remove on a represented tree *)
Section Remove.
Context {K : Type} `{Compare K}.
Implicit Types (h : gmap loc (node K)) (T : ptree K) (t : BinarySearchTree K).

Lemma remove_search_spec v h T : ∀ fuel parent,
  repr h T → (pheight T < fuel)%nat →
  remove_search fuel v h parent (ptr T) = Some (pparent parent v T).
Proof.
  induction T as [|l L IHL k s R IHR]; intros fuel parent Hr Hf.
  - destruct fuel; [lia|done].
  - destruct fuel as [|fuel]; [simpl in Hf; lia|].
    destruct Hr as (Hl & HL & HR). simpl in Hf. simpl. rewrite Hl. simpl.
    destruct (js_lt v k); [apply IHL; [done|lia]|].
    destruct (js_gt v k); [apply IHR; [done|lia]|]. done.
Qed.

Lemma pparent_search v T : ∀ parent,
  match psearch v T with
  | Some (l, _) => ∃ p, pparent parent v T = (true, p, Some l)
  | None => ∃ p, pparent parent v T = (false, p, None)
  end.
Proof.
  induction T as [|l L IHL k s R IHR]; intros parent; simpl; [by eexists|].
  destruct (js_lt v k); [apply IHL|].
  destruct (js_gt v k); [apply IHR|]. by eexists.
Qed.

Lemma set_ids_same h l n : h !! l = Some n → set_ids l (ids n) h = h.
Proof.
  intros Hl. unfold set_ids. apply alter_id.
  intros x Hx. rewrite Hl in Hx. injection Hx as <-. by destruct n.
Qed.

Lemma remove_found_keep v i t parent current cn :
  remove_search (fuel_of (heap t)) v (heap t) None (_root t) =
    Some (true, parent, Some current) →
  heap t !! current = Some cn → ids cn ∖ {[ i ]} ≠ ∅ →
  remove v i t =
    Returns (Tree (_root t) (set_ids current (ids cn ∖ {[ i ]}) (heap t))).
Proof.
  intros Hsearch Hcn Hne. unfold remove. rewrite Hsearch, Hcn.
  destruct (size (ids cn ∖ {[i]})) eqn:Hsz; [|done].
  apply size_empty_iff in Hsz. by apply leibniz_equiv in Hsz.
Qed.

Lemma remove_found_excise v i t parent current cn :
  remove_search (fuel_of (heap t)) v (heap t) None (_root t) =
    Some (true, parent, Some current) →
  heap t !! current = Some cn → ids cn ∖ {[ i ]} = ∅ →
  remove v i t =
    if decide (Some current = _root t)
    then remove_root (set_ids current ∅ (heap t)) current
           (Node (value cn) (left cn) (right cn) ∅)
    else remove_inner t (set_ids current ∅ (heap t)) parent current
           (Node (value cn) (left cn) (right cn) ∅).
Proof.
  intros Hsearch Hcn Hempty. unfold remove. rewrite Hsearch, Hcn, Hempty.
  by rewrite size_empty.
Qed.

Lemma remove_search_found v t T l s :
  represents t T → psearch v T = Some (l, s) →
  remove_search (fuel_of (heap t)) v (heap t) None (_root t) =
    Some (pparent None v T) ∧
  ∃ p, pparent None v T = (true, p, Some l).
Proof.
  intros (Hroot & Hr & Hnd) Hs. split.
  - rewrite Hroot. apply remove_search_spec; eauto using fuel_enough.
  - pose proof (pparent_search v T None) as Hp. by rewrite Hs in Hp.
Qed.

Lemma remove_not_found v i t T :
  represents t T → psearch v T = None → remove v i t = Returns t.
Proof.
  intros (Hroot & Hr & Hnd) Hs. unfold remove.
  rewrite Hroot, (remove_search_spec v _ T) by eauto using fuel_enough.
  pose proof (pparent_search v T None) as Hp. rewrite Hs in Hp.
  destruct Hp as (p & ->). done.
Qed.

Lemma remove_id_absent v i t T l s :
  represents t T → psearch v T = Some (l, s) → i ∉ s → s ≠ ∅ →
  remove v i t = Returns t.
Proof.
  intros Hrep Hs Hi Hne.
  destruct (remove_search_found v t T l s Hrep Hs) as (Hsearch & p & Hp).
  rewrite Hp in Hsearch. destruct Hrep as (Hroot & Hr & Hnd).
  destruct (psearch_lookup v _ T l s Hr Hs) as (n & Hl & <- & _).
  assert (ids n ∖ {[i]} = ids n) as Hsame by set_solver.
  rewrite (remove_found_keep v i t p l n Hsearch Hl) by by rewrite Hsame.
  rewrite Hsame, (set_ids_same _ _ _ Hl). by destruct t.
Qed.

End Remove.


(** ** A key hung on a tree that did not hold it, and taken off again *)
Section Graft.
Context {K : Type} `{Compare K}.
Implicit Types (h : gmap loc (node K)) (T : ptree K) (t : BinarySearchTree K).

Lemma pinsert_absent nd v i T :
  psearch v T = None → pinsert nd v i T = pgraft nd v (set_id i ∅) T.
Proof.
  induction T as [|l L IHL k s R IHR]; simpl; [done|].
  destruct (js_lt v k); [by intros ->%IHL|].
  destruct (js_gt v k); [by intros ->%IHR|done].
Qed.

Lemma pinsert_pgraft nd nd' v j s T :
  js_lt v v = false → psearch v T = None →
  pinsert nd' v j (pgraft nd v s T) = pgraft nd v (set_id j s) T.
Proof.
  intros Hirr. induction T as [|l L IHL k s' R IHR]; simpl.
  - intros _. unfold js_gt. by rewrite Hirr.
  - destruct (js_lt v k) eqn:Hlt; [|destruct (js_gt v k) eqn:Hgt]; simpl;
      rewrite ?Hlt, ?Hgt; [by intros ->%IHL|by intros ->%IHR|done].
Qed.

Lemma psearch_pgraft nd v s T :
  js_lt v v = false → psearch v T = None →
  psearch v (pgraft nd v s T) = Some (nd, s).
Proof.
  intros Hirr. induction T as [|l L IHL k s' R IHR]; simpl.
  - intros _. unfold js_gt. by rewrite Hirr.
  - destruct (js_lt v k) eqn:Hlt; [|destruct (js_gt v k) eqn:Hgt]; simpl;
      rewrite ?Hlt, ?Hgt; [by intros ->%IHL|by intros ->%IHR|done].
Qed.

Lemma plocs_pgraft nd v s s' T : plocs (pgraft nd v s T) = plocs (pgraft nd v s' T).
Proof.
  induction T as [|l L IHL k s0 R IHR]; simpl; [done|].
  destruct (js_lt v k); [|destruct (js_gt v k)]; simpl; by rewrite ?IHL, ?IHR.
Qed.

Lemma ptr_pgraft nd v s T : T ≠ Leaf → ptr (pgraft nd v s T) = ptr T.
Proof.
  destruct T as [|l L k s' R]; [done|]. intros _. simpl.
  destruct (js_lt v k); [done|]. by destruct (js_gt v k).
Qed.

Lemma ptr_pgraft_ids nd v s s' T : ptr (pgraft nd v s T) = ptr (pgraft nd v s' T).
Proof.
  destruct (ptree_cases T) as [->|(l & _ & Hne)]; [done|].
  by rewrite !ptr_pgraft.
Qed.

Lemma NoDup_pgraft nd v s T :
  psearch v T = None → NoDup (plocs T) → nd ∉ plocs T →
  NoDup (plocs (pgraft nd v s T)).
Proof.
  intros Hs Hnd Hfresh. rewrite (plocs_pgraft nd v s (set_id ""%string ∅)).
  rewrite <- pinsert_absent by done. by apply NoDup_pinsert.
Qed.

Lemma repr_pgraft_set_ids nd v s s' T h :
  psearch v T = None → nd ∉ plocs T →
  repr h (pgraft nd v s T) → repr (set_ids nd s' h) (pgraft nd v s' T).
Proof.
  induction T as [|l L IHL k s0 R IHR]; simpl.
  - intros _ _ (Hl & _). split; [|done]. by rewrite (lookup_set_ids _ _ _ _ Hl).
  - rewrite elem_of_app, elem_of_cons. intros Hs Hfresh.
    destruct (js_lt v k); [|destruct (js_gt v k)]; [| |done]; simpl;
      intros (Hl & HL & HR).
    + split_and!.
      * rewrite lookup_set_ids_ne by naive_solver.
        by rewrite (ptr_pgraft_ids nd v s' s).
      * apply IHL; [done|naive_solver|done].
      * apply (repr_frame h); [done|]. intros x Hx.
        apply lookup_set_ids_ne. naive_solver.
    + split_and!.
      * rewrite lookup_set_ids_ne by naive_solver.
        by rewrite (ptr_pgraft_ids nd v s' s).
      * apply (repr_frame h); [done|]. intros x Hx.
        apply lookup_set_ids_ne. naive_solver.
      * apply IHR; [done|naive_solver|done].
Qed.

Lemma pparent_pgraft_ids nd v s s' T : ∀ parent,
  pparent parent v (pgraft nd v s T) = pparent parent v (pgraft nd v s' T).
Proof.
  induction T as [|l L IHL k s0 R IHR]; intros parent; simpl; [done|].
  destruct (js_lt v k) eqn:Hlt; [|destruct (js_gt v k) eqn:Hgt]; simpl;
    rewrite ?Hlt, ?Hgt; [apply IHL|apply IHR|done].
Qed.

Lemma repr_pgraft_node nd v s T h :
  psearch v T = None → repr h (pgraft nd v s T) →
  h !! nd = Some (Node v None None s).
Proof.
  induction T as [|l L IHL k s0 R IHR]; simpl.
  - by intros _ (Hl & _).
  - destruct (js_lt v k); [|destruct (js_gt v k)]; [| |done]; simpl;
      intros Hs (_ & HL & HR); [by apply IHL|by apply IHR].
Qed.

Lemma lookup_relink_ne h c pn p x l : l ≠ p → relink h c pn p x !! l = h !! l.
Proof.
  intros Hne. unfold relink.
  destruct (js_lt _ _); [by apply lookup_set_left_ne|by apply lookup_set_right_ne].
Qed.

(** Unlinking the hung node from its parent gives back [T]. *)
Lemma relink_prune nd v s T : ∀ parent h,
  T ≠ Leaf → js_lt v v = false → psearch v T = None →
  NoDup (plocs T) → nd ∉ plocs T →
  repr h (pgraft nd v s T) →
  ∃ p pn,
    pparent parent v (pgraft nd v s T) = (true, Some p, Some nd) ∧
    p ∈ plocs T ∧ h !! p = Some pn ∧
    repr (relink h (Node v None None s) pn p None) T.
Proof.
  induction T as [|l L IHL k s0 R IHR]; intros parent h Hne Hirr Hs Hnd Hfresh;
    [done|].
  simpl in Hs, Hnd, Hfresh |- *.
  apply NoDup_app in Hnd as (HndL & Hdisj & HndR).
  apply NoDup_cons in HndR as [HlR HndR].
  rewrite elem_of_app, elem_of_cons in Hfresh.
  assert (l ∉ plocs L) as HlL.
  { intros Hin. apply (Hdisj l Hin). by left. }
  destruct (js_lt v k) eqn:Hlt; [|destruct (js_gt v k) eqn:Hgt]; [| |done];
    cbn [repr]; intros (Hl & HL & HR).
  - destruct (ptree_cases L) as [->|(lL & HpL & HneL)].
    + exists l, (Node k (Some nd) (ptr R) s0). simpl in *.
      rewrite Hlt. unfold js_gt. rewrite Hirr. split; [done|]. split; [by left|].
      split; [done|]. unfold relink. simpl. rewrite Hlt.
      split_and!; [by rewrite (lookup_set_left _ _ _ _ Hl)|done|].
      apply (repr_frame h); [done|]. intros x Hx.
      apply lookup_set_left_ne. by intros ->.
    + destruct (IHL (Some l) h) as (p & pn & Hpp & Hp & Hhp & Hr');
        [done|done|done|done|naive_solver|done|].
      exists p, pn. cbn [pparent]. rewrite Hlt.
      split; [done|]. split; [rewrite elem_of_app; by left|].
      split; [done|]. split_and!; [|done|].
      * rewrite lookup_relink_ne by (by intros ->).
        by rewrite Hl, ptr_pgraft.
      * apply (repr_frame h); [done|]. intros x Hx. apply lookup_relink_ne.
        intros ->. apply (Hdisj p Hp). by right.
  - destruct (ptree_cases R) as [->|(lR & HpR & HneR)].
    + exists l, (Node k (ptr L) (Some nd) s0). simpl in *.
      rewrite Hlt, Hgt. unfold js_gt. rewrite Hirr. split; [done|].
      split; [rewrite elem_of_app; right; by left|].
      split; [done|]. unfold relink. simpl. rewrite Hlt.
      split_and!; [by rewrite (lookup_set_right _ _ _ _ Hl)| |done].
      apply (repr_frame h); [done|]. intros x Hx.
      apply lookup_set_right_ne. by intros ->.
    + destruct (IHR (Some l) h) as (p & pn & Hpp & Hp & Hhp & Hr');
        [done|done|done|done|naive_solver|done|].
      exists p, pn. cbn [pparent]. rewrite Hlt, Hgt. split; [done|].
      split; [rewrite elem_of_app, elem_of_cons; auto|].
      split; [done|]. split_and!; [| |done].
      * rewrite lookup_relink_ne by (by intros ->).
        by rewrite Hl, ptr_pgraft.
      * apply (repr_frame h); [done|]. intros x Hx. apply lookup_relink_ne.
        intros ->. apply (Hdisj p Hx). by right.
Qed.

End Graft.

Section RemoveGrafted.
Context {K : Type} `{Compare K}.
Implicit Types (h : gmap loc (node K)) (T : ptree K) (t : BinarySearchTree K).

Lemma structure_set_ids r h l s :
  structure (Tree r (set_ids l s h)) = structure (Tree r h).
Proof.
  unfold structure, set_ids. simpl. f_equal.
  rewrite (fmap_alter _ _ (λ x, x)) by done. by apply alter_id.
Qed.

(** The id set of the hung node stays non-empty: only that set changes. *)
Lemma remove_shrink nd v i s T t :
  js_lt v v = false → psearch v T = None → nd ∉ plocs T →
  represents t (pgraft nd v s T) → s ∖ {[ i ]} ≠ ∅ →
  let t' := Tree (_root t) (set_ids nd (s ∖ {[ i ]}) (heap t)) in
  remove v i t = Returns t' ∧ represents t' (pgraft nd v (s ∖ {[ i ]}) T).
Proof.
  intros Hirr Hs Hfresh Hrep Hne t'.
  pose proof (psearch_pgraft nd v s T Hirr Hs) as Hfound.
  destruct (remove_search_found v t _ nd s Hrep Hfound) as (Hsearch & p & Hp).
  rewrite Hp in Hsearch. destruct Hrep as (Hroot & Hr & Hnd).
  pose proof (repr_pgraft_node nd v s T _ Hs Hr) as Hn.
  split.
  - by rewrite (remove_found_keep v i t p nd _ Hsearch Hn).
  - split; [|split].
    + simpl. rewrite Hroot. apply ptr_pgraft_ids.
    + simpl. by apply (repr_pgraft_set_ids nd v s).
    + by rewrite (plocs_pgraft nd v _ s).
Qed.

(** The id set of the hung node becomes empty: the node is taken off. *)
Lemma remove_excise nd v i s T t :
  js_lt v v = false → psearch v T = None → nd ∉ plocs T → NoDup (plocs T) →
  represents t (pgraft nd v s T) → s ∖ {[ i ]} = ∅ →
  ∃ t', remove v i t = Returns t' ∧ represents t' T.
Proof.
  intros Hirr Hs Hfresh HndT Hrep Hempty.
  pose proof (psearch_pgraft nd v s T Hirr Hs) as Hfound.
  destruct (remove_search_found v t _ nd s Hrep Hfound) as (Hsearch & p0 & Hp0).
  rewrite Hp0 in Hsearch. destruct Hrep as (Hroot & Hr & Hnd).
  pose proof (repr_pgraft_node nd v s T _ Hs Hr) as Hn.
  rewrite (remove_found_excise v i t p0 nd _ Hsearch Hn Hempty). simpl.
  pose proof (repr_pgraft_set_ids nd v s ∅ T _ Hs Hfresh Hr) as Hr0.
  destruct (ptree_cases T) as [->|(l & HpT & HneT)].
  - rewrite decide_True by done.
    eexists. split; [reflexivity|]. split; [done|]. split; [done|constructor].
  - destruct (relink_prune nd v ∅ T None _ HneT Hirr Hs HndT Hfresh Hr0)
      as (p & pn & Hpp & Hp & Hhp & Hr').
    rewrite (pparent_pgraft_ids nd v s ∅), Hpp in Hp0. injection Hp0 as <-.
    rewrite ptr_pgraft in Hroot by done.
    rewrite decide_False.
    2:{ rewrite Hroot, HpT. intros [= ->]. apply Hfresh.
        destruct T; [done|]. simpl in HpT. injection HpT as ->.
        simpl. rewrite elem_of_app, elem_of_cons. auto. }
    unfold remove_inner, childCount, place. simpl. rewrite Hhp.
    eexists. split; [reflexivity|]. split; [done|]. split; done.
Qed.

End RemoveGrafted.

(** C7.  Take a tree of the data model that does not list key [k], and two
    different ids [i] and [j] (1 and 3 in the spec; [j], the id that is
    to stay, is any id that [add] stores, that is any but ["__proto__"]).
    After [add(k, i)] and [add(k, j)], the call [remove(k, i)] returns and
    leaves [contains(k)] true, [equals(k)] equal to the set of [j] alone,
    and the root, keys and links of every node as they were; then
    [remove(k, j)] returns and leaves [contains(k)] false and [toArray]
    without [k]: it lists what it listed before the insertions. *)
Theorem C7_remove_shrinks_then_excises {K : Type} `{StrictTotal K}
    (t : BinarySearchTree K) (arr : list (K * gset id)) (k : K) (i j : id) :
  valid t → toArray t = Some arr → k ∉ arr.*1 →
  i ≠ j → j ≠ "__proto__"%string →
  ∃ t1 t2 t3 t4,
    add k i t = Returns t1 ∧ add k j t1 = Returns t2 ∧
    contains k t2 = Some true ∧
    remove k i t2 = Returns t3 ∧
    contains k t3 = Some true ∧
    equals k t3 = Some {[ j ]} ∧
    structure t3 = structure t2 ∧
    remove k j t3 = Returns t4 ∧
    contains k t4 = Some false ∧
    toArray t4 = Some arr ∧ k ∉ arr.*1.
Proof.
  intros (T & Hrep & Hbst & Hne) Harr Habs Hij Hj.
  rewrite (toArray_spec t T Hrep) in Harr. injection Harr as <-.
  assert (psearch k T = None) as Hs.
  { apply psearch_absent. by rewrite <- pitems_keys. }
  pose proof (lt_irrefl k) as Hirr.
  set (nd := fresh (dom (heap t))).
  assert (nd ∉ plocs T) as Hfresh.
  { intros Hin. apply (is_fresh (dom (heap t))).
    destruct Hrep as (_ & Hr & _). by eapply repr_dom. }
  assert (NoDup (plocs T)) as HndT by apply Hrep.
  destruct (add_spec k i t T Hrep) as (t1 & Hadd1 & Hrep1).
  fold nd in Hrep1. rewrite pinsert_absent in Hrep1 by done.
  destruct (add_spec k j t1 _ Hrep1) as (t2 & Hadd2 & Hrep2).
  rewrite pinsert_pgraft in Hrep2 by done.
  assert (set_id j (set_id i ∅) ∖ {[ i ]} = {[ j ]}) as Hset.
  { apply set_eq. intros x.
    rewrite elem_of_difference, !elem_of_set_id, !elem_of_singleton.
    pose proof (not_elem_of_empty (C := gset id) x). naive_solver. }
  destruct (remove_shrink nd k i _ T t2 Hirr Hs Hfresh Hrep2) as (Hrem3 & Hrep3).
  { rewrite Hset. intros Hempty.
    assert (j ∈ ({[ j ]} : gset id)) as Hjj by by apply elem_of_singleton.
    rewrite Hempty in Hjj. by apply not_elem_of_empty in Hjj. }
  rewrite Hset in Hrem3, Hrep3.
  destruct (remove_excise nd k j _ T _ Hirr Hs Hfresh HndT Hrep3) as (t4 & Hrem4 & Hrep4).
  { set_solver. }
  eexists t1, t2, _, t4.
  split_and!; [done|done| |exact Hrem3| | | |done| | |done].
  - by rewrite (contains_spec k _ _ Hrep2), psearch_pgraft.
  - by rewrite (contains_spec k _ _ Hrep3), psearch_pgraft.
  - by rewrite (equals_spec k _ _ Hrep3), psearch_pgraft.
  - rewrite structure_set_ids. by destruct t2.
  - by rewrite (contains_spec k _ _ Hrep4), Hs.
  - by apply toArray_spec.
Qed.

(** X5.  On a tree of the data model [contains] and [equals] return, and
    [contains(k)] is true exactly when [equals(k)] is not empty. *)
Lemma contains_iff_equals_nonempty {K : Type} `{StrictTotal K}
    (t : BinarySearchTree K) (k : K) :
  valid t →
  ∃ b s, contains k t = Some b ∧ equals k t = Some s ∧ (b = true ↔ s ≠ ∅).
Proof.
  intros (T & Hrep & Hbst & Hne).
  rewrite (contains_spec k t T Hrep), (equals_spec k t T Hrep).
  do 2 eexists. split; [done|]. split; [done|].
  destruct (psearch k T) as [[l s]|] eqn:Hs; simpl.
  - split; [|done]. intros _. apply (Hne k s). by eapply psearch_item.
  - split; [done|]. by intros [].
Qed.


Lemma C7_witness :
  valid tree5 ∧ toArray tree5 = Some [(5, {[ "a" ]})] ∧
  7 ∉ [(5, ({[ "a" ]} : gset id))].*1 ∧ "1" ≠ "3" ∧ "3" ≠ "__proto__" ∧
  ∃ t1 t2 t3 t4,
    add 7 "1" tree5 = Returns t1 ∧ add 7 "3" t1 = Returns t2 ∧
    contains 7 t2 = Some true ∧
    remove 7 "1" t2 = Returns t3 ∧
    contains 7 t3 = Some true ∧
    equals 7 t3 = Some {[ "3" ]} ∧
    structure t3 = structure t2 ∧
    remove 7 "3" t3 = Returns t4 ∧
    contains 7 t4 = Some false ∧
    toArray t4 = Some [(5, {[ "a" ]})] ∧
    7 ∉ [(5, ({[ "a" ]} : gset id))].*1.
Proof.
  assert (7 ∉ [(5, ({[ "a" ]} : gset id))].*1) as Habs.
  { simpl. intros Hin. apply list_elem_of_singleton in Hin. discriminate Hin. }
  assert ("1" ≠ "3") as Hne by discriminate.
  assert ("3" ≠ "__proto__") as Hp by discriminate.
  split; [exact tree5_valid|]. split; [reflexivity|].
  split; [exact Habs|]. split; [exact Hne|]. split; [exact Hp|].
  exact (C7_remove_shrinks_then_excises tree5 _ 7 "1" "3" tree5_valid eq_refl
           Habs Hne Hp).
Defined.

(** ** Where remove departs from the spec *)

(** C1 (the code at the failing input).  Insert 10, 5, 3, 8, 1: node 5 is
    not the root, its children are 3 and 8, and 3 has the left child 1 and
    no right child.  [remove(5, "b")] returns; afterwards node 3 stands in
    the place of 5, but its [left] link points at node 3 itself, its
    [right] link at node 1, and node 8 is no longer linked: [contains(8)]
    is false and the recursion of [toArray] never ends. *)
Theorem C1_inner_removal_with_left_child_replacement :
  ∃ t t',
    adds [(10, "a"); (5, "b"); (3, "c"); (8, "d"); (1, "e")] new_tree = Returns t ∧
    _root t = Some 1%positive ∧
    heap t !! 1%positive = Some (Node 10 (Some 2%positive) None {[ "a" ]}) ∧
    heap t !! 2%positive = Some (Node 5 (Some 3%positive) (Some 4%positive) {[ "b" ]}) ∧
    heap t !! 3%positive = Some (Node 3 (Some 5%positive) None {[ "c" ]}) ∧
    heap t !! 4%positive = Some (Node 8 None None {[ "d" ]}) ∧
    heap t !! 5%positive = Some (Node 1 None None {[ "e" ]}) ∧
    remove 5 "b" t = Returns t' ∧
    _root t' = Some 1%positive ∧
    heap t' !! 1%positive = Some (Node 10 (Some 3%positive) None {[ "a" ]}) ∧
    heap t' !! 3%positive =
      Some (Node 3 (Some 3%positive) (Some 5%positive) {[ "c" ]}) ∧
    contains 8 t' = Some false ∧
    toArray t' = None.
Proof.
  eexists _, _.
  split; [vm_compute; reflexivity|].
  repeat (split; [vm_compute; reflexivity|]).
  vm_compute; reflexivity.
Qed.

(** C2 (the code at the failing input).  Insert 5, 3, 8: the root 5 has
    two children and its left child 3 has no right child.
    [remove(5, "a")] throws a [TypeError]: [replacementParent] is still
    [undefined], which is not [null].  The id was deleted before the
    throw, so the root is left in place with an empty id set. *)
Theorem C2_root_removal_throws :
  ∃ t t',
    adds [(5, "a"); (3, "b"); (8, "c")] new_tree = Returns t ∧
    heap t !! 1%positive = Some (Node 5 (Some 2%positive) (Some 3%positive) {[ "a" ]}) ∧
    heap t !! 2%positive = Some (Node 3 None None {[ "b" ]}) ∧
    remove 5 "a" t = TypeError t' ∧
    structure t' = structure t ∧
    heap t' !! 1%positive = Some (Node 5 (Some 2%positive) (Some 3%positive) ∅).
Proof.
  eexists _, _.
  split; [vm_compute; reflexivity|].
  repeat (split; [vm_compute; reflexivity|]).
  vm_compute; reflexivity.
Qed.

(** C10 (the code at two failing inputs).  After the throw of
    [remove(5, "a")] above, the root 5 is found by [contains] while
    [equals] gives the empty set.  Without any throw: after the removal of
    5 in the tree 10, 5, 3, 8 the node 3 is its own left child, and
    [remove(3, "c")] then returns with that node still linked and its id
    set empty. *)
Theorem C10_contains_without_ids :
  (∃ t t',
     adds [(5, "a"); (3, "b"); (8, "c")] new_tree = Returns t ∧
     remove 5 "a" t = TypeError t' ∧
     contains 5 t' = Some true ∧ equals 5 t' = Some ∅) ∧
  (∃ t t1 t2,
     adds [(10, "a"); (5, "b"); (3, "c"); (8, "d")] new_tree = Returns t ∧
     remove 5 "b" t = Returns t1 ∧
     remove 3 "c" t1 = Returns t2 ∧
     contains 3 t2 = Some true ∧ equals 3 t2 = Some ∅).
Proof.
  split.
  - eexists _, _. repeat (split; [vm_compute; reflexivity|]).
    vm_compute; reflexivity.
  - eexists _, _, _. repeat (split; [vm_compute; reflexivity|]).
    vm_compute; reflexivity.
Qed.

(** ** Keys that do not compare *)

(** C9 (as the code has it).  When a loop of [contains], [equals], [add]
    or [remove] compares the given key with the key of the node it has
    reached and the two are incomparable (neither [<] nor [>] holds),
    nothing is signalled: the loop takes the branch of equal keys and
    stops at that node.  So for a key incomparable with the key of the
    root, [contains] returns true, [equals] returns the id set of the
    root, and [add] returns having stored the id in that id set, as it
    does under an equal key (every id but ["__proto__"] is stored). *)
Theorem C9_incomparable_key_taken_as_equal {K : Type} `{Compare K}
    (v : K) (i : id) :
  (∀ (h : gmap loc (node K)) (c : loc) (n : node K) (fuel : nat)
     (parent : option loc) (nd : loc),
     h !! c = Some n →
     js_lt v (value n) = false → js_gt v (value n) = false →
     search_loop (S fuel) v h (Some c) = Some (true, Some c) ∧
     remove_search (S fuel) v h parent (Some c) = Some (true, parent, Some c) ∧
     add_loop (S fuel) v i nd h c = Some (set_ids c (set_id i (ids n)) h)) ∧
  (∀ (t : BinarySearchTree K) (r : loc) (n : node K),
     _root t = Some r → heap t !! r = Some n →
     js_lt v (value n) = false → js_gt v (value n) = false →
     contains v t = Some true ∧
     equals v t = Some (ids n) ∧
     ∃ t', add v i t = Returns t' ∧
           _root t' = Some r ∧
           heap t' !! r =
             Some (Node (value n) (left n) (right n)
                     (if decide (i = "__proto__"%string) then ids n
                      else {[ i ]} ∪ ids n))).
Proof.
  assert (∀ (h : gmap loc (node K)) (c : loc) (n : node K) (fuel : nat)
     (parent : option loc) (nd : loc),
     h !! c = Some n →
     js_lt v (value n) = false → js_gt v (value n) = false →
     search_loop (S fuel) v h (Some c) = Some (true, Some c) ∧
     remove_search (S fuel) v h parent (Some c) = Some (true, parent, Some c) ∧
     add_loop (S fuel) v i nd h c = Some (set_ids c (set_id i (ids n)) h))
    as Hloops.
  { intros h c n fuel parent nd Hc Hlt Hgt. simpl. by rewrite Hc, Hlt, Hgt. }
  split; [exact Hloops|].
  intros t r n Hroot Hr Hlt Hgt. split; [|split].
  - unfold contains, fuel_of. rewrite Hroot.
    by destruct (Hloops (heap t) r n (size (heap t)) None r Hr Hlt Hgt) as (-> & _).
  - unfold equals, fuel_of. rewrite Hroot.
    destruct (Hloops (heap t) r n (size (heap t)) None r Hr Hlt Hgt) as (-> & _).
    by rewrite Hr.
  - unfold add. rewrite Hroot.
    assert (fresh (dom (heap t)) ≠ r) as Hne.
    { intros Heq. apply (is_fresh (dom (heap t))). rewrite Heq.
      apply elem_of_dom. by eexists. }
    set (nd := fresh (dom (heap t))) in *.
    set (h := <[nd:=Node v None None (set_id i ∅)]> (heap t)).
    assert (h !! r = Some n) as Hr' by (subst h; by rewrite lookup_insert_ne).
    unfold fuel_of.
    destruct (Hloops h r n (size h) None nd Hr' Hlt Hgt) as (_ & _ & ->).
    eexists. split; [done|]. split; [done|]. simpl.
    by apply lookup_set_ids.
Qed.

Lemma C9_witness :
  _root tree1 = Some 1%positive ∧
  heap tree1 !! 1%positive = Some (Node (Num 1) None None {[ "a" ]}) ∧
  js_lt NaN (Num 1) = false ∧ js_gt NaN (Num 1) = false ∧
  contains NaN tree1 = Some true ∧
  equals NaN tree1 = Some {[ "a" ]} ∧
  ∃ t', add NaN "b" tree1 = Returns t' ∧
        _root t' = Some 1%positive ∧
        heap t' !! 1%positive =
          Some (Node (Num 1) None None
                  (if decide ("b" = "__proto__"%string) then {[ "a" ]}
                   else {[ "b" ]} ∪ {[ "a" ]})).
Proof.
  split; [reflexivity|]. split; [reflexivity|].
  split; [reflexivity|]. split; [reflexivity|].
  exact (proj2 (C9_incomparable_key_taken_as_equal NaN "b")
           tree1 1%positive (Node (Num 1) None None {[ "a" ]})
           eq_refl eq_refl eq_refl eq_refl).
Defined.

(** C9 (counterexample).  With the key 1 in the tree, [NaN] is neither
    less nor greater than 1 and is not 1; yet [add(NaN, "b")] returns,
    puts "b" under the key 1, and [contains(NaN)] is true. *)
Lemma C9_counterexample :
  ∃ t t',
    adds [(Num 1, "a")] new_tree = Returns t ∧
    js_lt NaN (Num 1) = false ∧ js_gt NaN (Num 1) = false ∧ NaN ≠ Num 1 ∧
    add NaN "b" t = Returns t' ∧
    toArray t' = Some [(Num 1, {[ "a"; "b" ]})] ∧
    equals (Num 1) t' = Some {[ "a"; "b" ]} ∧
    contains NaN t' = Some true.
Proof.
  eexists _, _.
  split; [vm_compute; reflexivity|].
  split; [reflexivity|]. split; [reflexivity|]. split; [discriminate|].
  split; [vm_compute; reflexivity|].
  repeat (split; [vm_compute; reflexivity|]).
  vm_compute; reflexivity.
Qed.

(** * Further properties of the code *)

(** ** traverse, size, toArray on any tree object *)
Section Traverse.
Context {K : Type} `{Compare K}.
Implicit Types (h : gmap loc (node K)) (t : BinarySearchTree K).

(** Two visitors run over the same nodes in the same order. *)
Lemma inOrder_related {A B : Type} (R : A → B → Prop)
    (f : node K → A → A) (g : node K → B → B) h :
  (∀ n a b, R a b → R (f n a) (g n b)) →
  ∀ fuel nd a b, R a b →
    match inOrder fuel h f nd a, inOrder fuel h g nd b with
    | Some a', Some b' => R a' b'
    | None, None => True
    | _, _ => False
    end.
Proof.
  intros Hstep. induction fuel as [|fuel IH]; intros nd a b Hab; simpl; [done|].
  destruct nd as [l|]; [|done].
  destruct (h !! l) as [n|]; [|done].
  assert (match
            match left n with Some _ => inOrder fuel h f (left n) a | None => Some a end,
            match left n with Some _ => inOrder fuel h g (left n) b | None => Some b end
          with
          | Some a', Some b' => R a' b'
          | None, None => True
          | _, _ => False
          end) as Hleft.
  { destruct (left n); [by apply IH|done]. }
  destruct (match left n with Some _ => inOrder fuel h f (left n) a | None => Some a end)
    as [a1|],
    (match left n with Some _ => inOrder fuel h g (left n) b | None => Some b end)
    as [b1|]; try done.
  destruct (right n); [|by apply Hstep].
  apply IH. by apply Hstep.
Qed.

End Traverse.

(** X1.  [size] is the length of [toArray], on every tree object: either both
    return and the count is the length of the array, or neither
    returns. *)
Theorem size_is_length_of_toArray {K : Type} `{Compare K}
    (t : BinarySearchTree K) :
  size_ t = length <$> toArray t.
Proof.
  unfold size_, toArray, traverse.
  pose proof (inOrder_related (λ (a : list (K * gset id)) (b : nat), b = length a)
    (λ n result, result ++ [(value n, ids n)]) (λ _ length, S length) (heap t)) as Hrel.
  assert (∀ (n : node K) (a : list (K * gset id)) (b : nat),
    b = length a → S b = length (a ++ [(value n, ids n)])) as Hstep.
  { intros n a b ->. rewrite length_app. simpl. lia. }
  specialize (Hrel Hstep (fuel_of (heap t)) (_root t) [] O eq_refl).
  destruct (inOrder _ _ _ _ []) as [arr|], (inOrder _ _ _ _ O) as [n|]; simpl;
    [by subst|done..].
Qed.

(** ** Lookups against the listing, and what add changes *)
Section Lookup.
Context {K : Type} `{StrictTotal K}.
Implicit Types (T : ptree K) (t : BinarySearchTree K).

Lemma key_eq_dec (a b : K) : a = b ∨ a ≠ b.
Proof.
  destruct (js_lt a b) eqn:Hab.
  { right. intros ->. by rewrite lt_irrefl in Hab. }
  destruct (js_lt b a) eqn:Hba.
  { right. intros ->. by rewrite lt_irrefl in Hba. }
  left. by apply lt_total.
Qed.

Lemma psearch_found_key v T l s : psearch v T = Some (l, s) → v ∈ pkeys T.
Proof. intros Hs. eapply pitems_key. by eapply psearch_item. Qed.

Lemma psearch_pinsert_other nd v i v' T :
  v' ≠ v → psearch v' (pinsert nd v i T) = psearch v' T.
Proof.
  intros Hne. induction T as [|l L IHL k s R IHR]; simpl.
  - unfold js_gt. destruct (js_lt v' v) eqn:H1; [done|].
    destruct (js_lt v v') eqn:H2; [done|]. destruct Hne. by apply lt_total.
  - destruct (js_lt v k) eqn:Hlt; [|destruct (js_gt v k) eqn:Hgt]; simpl.
    + by rewrite IHL.
    + by rewrite IHR.
    + unfold js_gt in *. destruct (js_lt v' k) eqn:H1; [done|].
      destruct (js_lt k v') eqn:H2; [done|].
      destruct Hne. rewrite (lt_total v' k), (lt_total v k); done.
Qed.

Lemma psearch_pinsert_same nd v i T :
  ∃ l, psearch v (pinsert nd v i T) =
         Some (l, set_id i (from_option snd ∅ (psearch v T))).
Proof.
  destruct (psearch v T) as [[l s]|] eqn:Hs; simpl.
  - exists l. by apply pinsert_present.
  - exists nd. rewrite pinsert_absent by done.
    by rewrite psearch_pgraft by (done || apply lt_irrefl).
Qed.

Lemma pitems_pgraft nd v s T :
  psearch v T = None →
  ∃ A B, pitems T = A ++ B ∧ pitems (pgraft nd v s T) = A ++ (v, s) :: B.
Proof.
  induction T as [|l L IHL k s' R IHR]; simpl.
  - intros _. by exists [], [].
  - destruct (js_lt v k); [|destruct (js_gt v k)]; [| |done]; simpl; intros Hs.
    + destruct (IHL Hs) as (A & B & -> & ->).
      exists A, (B ++ (k, s') :: pitems R). by rewrite <- !app_assoc.
    + destruct (IHR Hs) as (A & B & -> & ->).
      exists (pitems L ++ (k, s') :: A), B. by rewrite <- !app_assoc.
Qed.

End Lookup.

(** X3.  On a tree of the data model [contains] returns, and it returns true
    exactly for the keys that [toArray] lists. *)
Theorem contains_agrees_with_toArray {K : Type} `{StrictTotal K}
    (t : BinarySearchTree K) (k : K) :
  valid t →
  ∃ arr b, toArray t = Some arr ∧ contains k t = Some b ∧
           (b = true ↔ k ∈ arr.*1).
Proof.
  intros (T & Hrep & Hbst & Hne).
  exists (pitems T), (bool_decide (is_Some (psearch k T))).
  split; [by apply toArray_spec|]. split; [by apply contains_spec|].
  rewrite pitems_keys, bool_decide_eq_true. split.
  - intros [[l s] Hs]. by eapply psearch_found_key.
  - intros Hin. destruct (psearch k T) eqn:Hs; [done|].
    rewrite <- pitems_keys in Hin.
    apply list_elem_of_fmap in Hin as ([k' s] & -> & Hin).
    destruct (psearch_present T k' s Hbst Hin) as (l & Hs'). simpl in Hs.
    by rewrite Hs' in Hs.
Qed.

Lemma contains_agrees_with_toArray_witness :
  valid tree5 ∧
  ∃ arr b, toArray tree5 = Some arr ∧ contains 5 tree5 = Some b ∧
           (b = true ↔ 5 ∈ arr.*1).
Proof.
  split; [exact tree5_valid|].
  exact (contains_agrees_with_toArray tree5 5 tree5_valid).
Defined.

(** X4.  On a tree of the data model [equals] returns the id set that
    [toArray] lists with the key, and the empty set for a key that is not
    listed. *)
Theorem equals_agrees_with_toArray {K : Type} `{StrictTotal K}
    (t : BinarySearchTree K) (k : K) :
  valid t →
  ∃ arr s, toArray t = Some arr ∧ equals k t = Some s ∧
           ((k, s) ∈ arr ∨ (k ∉ arr.*1 ∧ s = ∅)).
Proof.
  intros (T & Hrep & Hbst & Hne).
  exists (pitems T), (from_option snd ∅ (psearch k T)).
  split; [by apply toArray_spec|]. split; [by apply equals_spec|].
  destruct (psearch k T) as [[l s]|] eqn:Hs; simpl.
  - left. by eapply psearch_item.
  - right. split; [|done]. rewrite pitems_keys. intros Hin.
    rewrite <- pitems_keys in Hin.
    apply list_elem_of_fmap in Hin as ([k' s] & -> & Hin).
    destruct (psearch_present T k' s Hbst Hin) as (l & Hs'). simpl in Hs.
    by rewrite Hs' in Hs.
Qed.

Lemma equals_agrees_with_toArray_witness :
  valid tree5 ∧
  ∃ arr s, toArray tree5 = Some arr ∧ equals 7 tree5 = Some s ∧
           ((7, s) ∈ arr ∨ (7 ∉ arr.*1 ∧ s = ∅)).
Proof.
  split; [exact tree5_valid|].
  exact (equals_agrees_with_toArray tree5 7 tree5_valid).
Defined.

Lemma add_lookup {K : Type} `{StrictTotal K}
    (t : BinarySearchTree K) (T : ptree K) (k : K) (i : id) :
  represents t T →
  ∃ t', add k i t = Returns t' ∧
        represents t' (pinsert (fresh (dom (heap t))) k i T) ∧
        contains k t' = Some true ∧
        equals k t' = Some (set_id i (from_option snd ∅ (psearch k T))) ∧
        ∀ k', k' ≠ k →
          equals k' t' = equals k' t ∧ contains k' t' = contains k' t.
Proof.
  intros Hrep.
  destruct (add_spec k i t T Hrep) as (t' & Hadd & Hrep').
  destruct (psearch_pinsert_same (fresh (dom (heap t))) k i T) as (l & Hs).
  exists t'. split; [done|]. split; [done|]. split; [|split].
  - by rewrite (contains_spec k t' _ Hrep'), Hs.
  - by rewrite (equals_spec k t' _ Hrep'), Hs.
  - intros k' Hk'.
    rewrite (equals_spec k' t' _ Hrep'), (contains_spec k' t' _ Hrep').
    rewrite (equals_spec k' t T Hrep), (contains_spec k' t T Hrep).
    by rewrite psearch_pinsert_other.
Qed.

(** What a run of [add] calls on a new tree leaves: a tree without shared
    nodes, in search order, that holds the keys of the run, each with the
    ids that were added under it, ["__proto__"] left out. *)
Lemma adds_lookup {K : Type} `{StrictTotal K} (ops : list (K * id)) :
  ∃ t T, adds ops new_tree = Returns t ∧ represents t T ∧ bst T ∧
    ∀ k, (is_Some (psearch k T) ↔ k ∈ ops.*1) ∧
         ∀ i, i ∈ from_option snd ∅ (psearch k T) ↔
              (k, i) ∈ ops ∧ i ≠ "__proto__"%string.
Proof.
  induction ops as [|[v j] ops IH] using rev_ind.
  - exists new_tree, Leaf. split; [done|]. split; [apply new_tree_represents|].
    split; [done|]. intros k. simpl. split.
    + split; [by intros [? ?]|by intros ?%elem_of_nil].
    + intros i. split; [by intros ?%not_elem_of_empty|].
      by intros [?%elem_of_nil _].
  - destruct IH as (t & T & Hrun & Hrep & Hbst & Hlook).
    destruct (add_spec v j t T Hrep) as (t' & Hadd & Hrep').
    exists t', (pinsert (fresh (dom (heap t))) v j T).
    rewrite adds_snoc, Hrun. split; [done|]. split; [done|].
    split; [by apply bst_pinsert|]. intros k.
    rewrite fmap_app, elem_of_app. simpl. rewrite list_elem_of_singleton.
    destruct (Hlook k) as (Hkey & Hids).
    destruct (key_eq_dec k v) as [->|Hne].
    + destruct (psearch_pinsert_same (fresh (dom (heap t))) v j T) as (l & ->).
      simpl. split; [split; [auto|by eexists]|].
      intros i. rewrite elem_of_set_id, Hids, elem_of_app, list_elem_of_singleton.
      split.
      * intros [[-> Hj]|[Hin Hi]]; auto.
      * intros [[Hin|[= ->]] Hi]; auto.
    + rewrite psearch_pinsert_other by done. split.
      * rewrite Hkey. split; [auto|]. intros [Hin|Heq]; done.
      * intros i. rewrite Hids, elem_of_app, list_elem_of_singleton.
        split; [intros [Hin Hi]; auto|].
        intros [[Hin|[= -> ->]] Hi]; [done|by destruct Hne].
Qed.

(** X6.  [add] with an id other than ["__proto__"] on a tree of the data
    model returns, the tree it leaves is again one of the data model, and
    [contains] finds the key in it. *)
Theorem add_keeps_data_model {K : Type} `{StrictTotal K}
    (t : BinarySearchTree K) (k : K) (i : id) :
  valid t → i ≠ "__proto__"%string →
  ∃ t', add k i t = Returns t' ∧ valid t' ∧ contains k t' = Some true.
Proof.
  intros (T & Hrep & Hbst & Hne) Hi.
  destruct (add_lookup t T k i Hrep) as (t' & Hadd & Hrep' & Hc & _).
  exists t'. split; [done|]. split; [|done].
  eexists. split; [done|]. split.
  - by apply bst_pinsert.
  - by apply ids_nonempty_pinsert.
Qed.

Lemma add_keeps_data_model_witness :
  valid tree5 ∧ "b" ≠ "__proto__" ∧
  ∃ t', add 7 "b" tree5 = Returns t' ∧ valid t' ∧ contains 7 t' = Some true.
Proof.
  assert ("b" ≠ "__proto__") as Hb by discriminate.
  split; [exact tree5_valid|]. split; [exact Hb|].
  exact (add_keeps_data_model tree5 7 "b" tree5_valid Hb).
Defined.

(** X7.  [add(k, i)] on a tree without shared nodes returns; afterwards
    [contains(k)] is true, and [equals(k)] is the former id set of [k]
    joined with [i], or the former id set as it was when [i] is
    ["__proto__"]; [contains] and [equals] at every other key answer as
    before. *)
Theorem add_changes_one_key {K : Type} `{StrictTotal K}
    (t : BinarySearchTree K) (T : ptree K) (k : K) (i : id) :
  represents t T →
  ∃ t' s, add k i t = Returns t' ∧
          equals k t = Some s ∧
          equals k t' =
            Some (if decide (i = "__proto__"%string) then s else {[ i ]} ∪ s) ∧
          contains k t' = Some true ∧
          ∀ k', k' ≠ k →
            equals k' t' = equals k' t ∧ contains k' t' = contains k' t.
Proof.
  intros Hrep.
  destruct (add_lookup t T k i Hrep) as (t' & Hadd & _ & Hc & He & Hother).
  exists t', (from_option snd ∅ (psearch k T)).
  split; [done|]. split; [by apply equals_spec|]. done.
Qed.

Lemma add_changes_one_key_witness :
  represents tree5 (Br 1%positive Leaf 5 {[ "a" ]} Leaf) ∧
  ∃ t' s, add 5 "b" tree5 = Returns t' ∧
          equals 5 tree5 = Some s ∧
          equals 5 t' =
            Some (if decide ("b" = "__proto__"%string) then s else {[ "b" ]} ∪ s) ∧
          contains 5 t' = Some true ∧
          ∀ k', k' ≠ 5 →
            equals k' t' = equals k' tree5 ∧ contains k' t' = contains k' tree5.
Proof.
  split; [exact tree5_represents|].
  exact (add_changes_one_key tree5 _ 5 "b" tree5_represents).
Defined.

(** X8.  [add] of a key that [toArray] does not list puts one entry into
    the listing and leaves the other entries in their order; [size] grows
    by one.  The entry is the key with the id alone, or the key with the
    empty id set when the id is ["__proto__"]. *)
Theorem add_new_key_lists_it {K : Type} `{StrictTotal K}
    (t : BinarySearchTree K) (arr : list (K * gset id)) (k : K) (i : id) :
  valid t → toArray t = Some arr → k ∉ arr.*1 →
  ∃ t' A B, add k i t = Returns t' ∧
            arr = A ++ B ∧
            toArray t' =
              Some (A ++ (k, if decide (i = "__proto__"%string)
                             then ∅ else {[ i ]}) :: B) ∧
            size_ t = Some (length arr) ∧ size_ t' = Some (S (length arr)).
Proof.
  intros (T & Hrep & Hbst & Hne) Harr Habs.
  rewrite (toArray_spec t T Hrep) in Harr. injection Harr as <-.
  assert (psearch k T = None) as Hs.
  { apply psearch_absent. by rewrite <- pitems_keys. }
  destruct (add_spec k i t T Hrep) as (t' & Hadd & Hrep').
  rewrite pinsert_absent in Hrep' by done.
  destruct (pitems_pgraft (fresh (dom (heap t))) k (set_id i ∅) T Hs)
    as (A & B & HAB & HAB').
  exists t', A, B. split; [done|]. split; [done|]. split.
  { rewrite (toArray_spec t' _ Hrep'), HAB'. unfold set_id.
    case_decide; [done|]. by rewrite (right_id_L ∅ (∪)). }
  rewrite (size_spec t T Hrep), (size_spec t' _ Hrep'), HAB', HAB.
  rewrite !length_app. simpl. split; [done|]. f_equal. lia.
Qed.

Lemma add_new_key_lists_it_witness :
  valid tree5 ∧ toArray tree5 = Some [(5, {[ "a" ]})] ∧
  7 ∉ [(5, ({[ "a" ]} : gset id))].*1 ∧
  ∃ t' A B, add 7 "b" tree5 = Returns t' ∧
            [(5, ({[ "a" ]} : gset id))] = A ++ B ∧
            toArray t' =
              Some (A ++ (7, if decide ("b" = "__proto__"%string)
                             then ∅ else {[ "b" ]}) :: B) ∧
            size_ tree5 = Some (length [(5, ({[ "a" ]} : gset id))]) ∧
            size_ t' = Some (S (length [(5, ({[ "a" ]} : gset id))])).
Proof.
  assert (7 ∉ [(5, ({[ "a" ]} : gset id))].*1) as Habs.
  { simpl. intros Hin. apply list_elem_of_singleton in Hin. discriminate Hin. }
  split; [exact tree5_valid|]. split; [reflexivity|]. split; [exact Habs|].
  exact (add_new_key_lists_it tree5 _ 7 "b" tree5_valid eq_refl Habs).
Defined.

(** X9.  After any run of [add] calls on a new tree, [contains(k)] is true
    exactly when the run has a call with the key [k], and [equals(k)]
    returns exactly the ids that were added under [k], ["__proto__"]
    left out. *)
Theorem adds_collect_ids {K : Type} `{StrictTotal K}
    (ops : list (K * id)) (k : K) :
  ∃ t b s, adds ops new_tree = Returns t ∧
           contains k t = Some b ∧ (b = true ↔ k ∈ ops.*1) ∧
           equals k t = Some s ∧
           ∀ i, i ∈ s ↔ (k, i) ∈ ops ∧ i ≠ "__proto__"%string.
Proof.
  destruct (adds_lookup ops) as (t & T & Hrun & Hrep & Hbst & Hlook).
  destruct (Hlook k) as (Hkey & Hids).
  exists t, (bool_decide (is_Some (psearch k T))), (from_option snd ∅ (psearch k T)).
  split; [done|]. split; [by apply contains_spec|].
  split; [by rewrite bool_decide_eq_true|].
  split; [by apply equals_spec|done].
Qed.

Lemma adds_collect_ids_witness :
  ∃ t b s, adds [(5, "a"); (2, "b"); (5, "c"); (5, "__proto__")] new_tree = Returns t ∧
           contains 5 t = Some b ∧
           (b = true ↔ 5 ∈ [(5, "a"); (2, "b"); (5, "c"); (5, "__proto__")].*1) ∧
           equals 5 t = Some s ∧
           ∀ i, i ∈ s ↔ (5, i) ∈ [(5, "a"); (2, "b"); (5, "c"); (5, "__proto__")] ∧
                        i ≠ "__proto__"%string.
Proof. exact (adds_collect_ids (K := Z) _ 5). Defined.

(** X18.  After any run of [add] calls on a new tree, [toArray] and
    [size] return.  [toArray] lists the keys of the run, each once, in
    strictly ascending order, and each with the ids that the run added
    under it, ["__proto__"] left out; [size] is the number of listed
    keys. *)
Theorem adds_list_keys_ascending {K : Type} `{StrictTotal K}
    (ops : list (K * id)) :
  ∃ t arr,
    adds ops new_tree = Returns t ∧
    toArray t = Some arr ∧
    ascending arr.*1 ∧ NoDup arr.*1 ∧
    (∀ k, k ∈ arr.*1 ↔ k ∈ ops.*1) ∧
    (∀ k s, (k, s) ∈ arr →
       ∀ i, i ∈ s ↔ (k, i) ∈ ops ∧ i ≠ "__proto__"%string) ∧
    size_ t = Some (length arr).
Proof.
  destruct (adds_lookup ops) as (t & T & Hrun & Hrep & Hbst & Hlook).
  exists t, (pitems T). rewrite pitems_keys.
  split; [done|]. split; [by apply toArray_spec|].
  split; [by apply bst_ascending|].
  split; [by apply ascending_NoDup, bst_ascending|].
  split; [|split; [|by apply size_spec]].
  - intros k. destruct (Hlook k) as (<- & _). split.
    + rewrite <- pitems_keys.
      intros ([k' s] & -> & Hin)%list_elem_of_fmap.
      destruct (psearch_present T k' s Hbst Hin) as (l & Hs). by eexists.
    + intros [[l s] Hs]. by eapply psearch_found_key.
  - intros k s Hin. destruct (psearch_present T k s Hbst Hin) as (l & Hs).
    destruct (Hlook k) as (_ & Hids). by rewrite Hs in Hids.
Qed.

Lemma adds_list_keys_ascending_witness :
  ∃ t arr,
    adds [(5, "a"); (2, "b"); (5, "c"); (7, "__proto__")] new_tree = Returns t ∧
    toArray t = Some arr ∧
    ascending arr.*1 ∧ NoDup arr.*1 ∧
    (∀ k, k ∈ arr.*1 ↔ k ∈ [(5, "a"); (2, "b"); (5, "c"); (7, "__proto__")].*1) ∧
    (∀ k s, (k, s) ∈ arr →
       ∀ i, i ∈ s ↔ (k, i) ∈ [(5, "a"); (2, "b"); (5, "c"); (7, "__proto__")] ∧
                    i ≠ "__proto__"%string) ∧
    size_ t = Some (length arr).
Proof. exact (adds_list_keys_ascending (K := Z) _). Defined.

(** X19.  After any run of [add] calls on a new tree, an [add] under a
    key of the run creates no node: [toArray] lists the same keys and
    [size] is the same.  The entry of that key has the id joined to its
    id set, or its id set as it was when the id is ["__proto__"]; the
    other entries are the same. *)
Theorem add_under_listed_key_creates_no_node {K : Type} `{StrictTotal K}
    (ops : list (K * id)) (v : K) (i : id) :
  v ∈ ops.*1 →
  ∃ t t' arr arr' s,
    adds ops new_tree = Returns t ∧ add v i t = Returns t' ∧
    toArray t = Some arr ∧ toArray t' = Some arr' ∧
    arr'.*1 = arr.*1 ∧ size_ t' = size_ t ∧
    (v, s) ∈ arr ∧
    (v, if decide (i = "__proto__"%string) then s else {[ i ]} ∪ s) ∈ arr' ∧
    ∀ k' s', k' ≠ v → (k', s') ∈ arr' ↔ (k', s') ∈ arr.
Proof.
  intros Hv.
  destruct (adds_lookup ops) as (t & T & Hrun & Hrep & Hbst & Hlook).
  destruct (Hlook v) as (Hkey & _). apply Hkey in Hv as [[l s] Hs].
  destruct (add_spec v i t T Hrep) as (t' & Hadd & Hrep').
  set (nd := fresh (dom (heap t))) in *.
  destruct (pinsert_present nd v i T l s Hs) as (Hs' & Hk & Hl).
  pose proof (bst_pinsert nd v i T Hbst) as Hbst'.
  exists t, t', (pitems T), (pitems (pinsert nd v i T)), s.
  split; [done|]. split; [done|].
  split; [by apply toArray_spec|]. split; [by apply toArray_spec|].
  split; [by rewrite !pitems_keys|].
  split.
  { rewrite (size_spec t' _ Hrep'), (size_spec t T Hrep). f_equal.
    rewrite <- !(length_fmap fst), !pitems_keys. by rewrite Hk. }
  split; [by eapply psearch_item|].
  split; [by eapply psearch_item|].
  intros k' s' Hk'. split; intros Hin.
  - destruct (psearch_present _ k' s' Hbst' Hin) as (l' & Hs'').
    rewrite psearch_pinsert_other in Hs'' by done. by eapply psearch_item.
  - destruct (psearch_present _ k' s' Hbst Hin) as (l' & Hs'').
    rewrite <- (psearch_pinsert_other nd v i) in Hs'' by done.
    by eapply psearch_item.
Qed.

Lemma add_under_listed_key_creates_no_node_witness :
  5 ∈ [(5, "a"); (2, "b")].*1 ∧
  ∃ t t' arr arr' s,
    adds [(5, "a"); (2, "b")] new_tree = Returns t ∧ add 5 "c" t = Returns t' ∧
    toArray t = Some arr ∧ toArray t' = Some arr' ∧
    arr'.*1 = arr.*1 ∧ size_ t' = size_ t ∧
    (5, s) ∈ arr ∧
    (5, if decide ("c" = "__proto__"%string) then s else {[ "c" ]} ∪ s) ∈ arr' ∧
    ∀ k' s', k' ≠ 5 → (k', s') ∈ arr' ↔ (k', s') ∈ arr.
Proof.
  assert (5 ∈ [(5, "a"); (2, "b")].*1) as Hin by (simpl; by left).
  split; [exact Hin|].
  exact (add_under_listed_key_creates_no_node (K := Z) _ 5 "c" Hin).
Defined.

(** X20.  After any run of [add] calls on a new tree and an
    [add(k, i)] with an id [i] other than ["__proto__"], the call
    [contains(k)] gives true and [equals(k)] gives a set that holds
    [i]. *)
Theorem add_then_lookup {K : Type} `{StrictTotal K}
    (ops : list (K * id)) (k : K) (i : id) :
  i ≠ "__proto__"%string →
  ∃ t t' s,
    adds ops new_tree = Returns t ∧
    add k i t = Returns t' ∧
    contains k t' = Some true ∧
    equals k t' = Some s ∧ i ∈ s.
Proof.
  intros Hi.
  destruct (adds_lookup ops) as (t & T & Hrun & Hrep & _).
  destruct (add_lookup t T k i Hrep) as (t' & Hadd & _ & Hc & He & _).
  exists t, t', (set_id i (from_option snd ∅ (psearch k T))).
  split; [done|]. split; [done|]. split; [done|]. split; [done|].
  apply elem_of_set_id. auto.
Qed.

Lemma add_then_lookup_witness :
  "c" ≠ "__proto__" ∧
  ∃ t t' s,
    adds [(5, "a"); (2, "b")] new_tree = Returns t ∧
    add 2 "c" t = Returns t' ∧
    contains 2 t' = Some true ∧
    equals 2 t' = Some s ∧ "c" ∈ s.
Proof.
  assert ("c" ≠ "__proto__") as Hc by discriminate.
  split; [exact Hc|].
  exact (add_then_lookup (K := Z) [(5, "a"); (2, "b")] 2 "c" Hc).
Defined.

(** X21.  After any run of [add] calls on a new tree, [add(k, "__proto__")]
    returns and stores no id: [equals(k)] gives the set it gave before,
    which does not hold ["__proto__"], while [contains(k)] is true.  For
    a key that the run did not add, this leaves a node whose id set is
    empty: [contains(k)] is true and [equals(k)] is the empty set. *)
Theorem add_of_proto_stores_no_id {K : Type} `{StrictTotal K}
    (ops : list (K * id)) (k : K) :
  ∃ t t' s,
    adds ops new_tree = Returns t ∧
    equals k t = Some s ∧
    add k "__proto__" t = Returns t' ∧
    contains k t' = Some true ∧
    equals k t' = Some s ∧
    "__proto__"%string ∉ s ∧
    (k ∉ ops.*1 → s = ∅).
Proof.
  destruct (adds_lookup ops) as (t & T & Hrun & Hrep & _ & Hlook).
  destruct (add_lookup t T k "__proto__" Hrep) as (t' & Hadd & _ & Hc & He & _).
  destruct (Hlook k) as (Hkey & Hids).
  exists t, t', (from_option snd ∅ (psearch k T)).
  split; [done|]. split; [by apply equals_spec|]. split; [done|].
  split; [done|]. split; [done|]. split.
  - rewrite Hids. by intros [_ ?].
  - intros Habs. destruct (psearch k T) as [[l s]|] eqn:Hs; [|done].
    destruct Habs. apply Hkey. by eexists.
Qed.

Lemma add_of_proto_stores_no_id_witness :
  ∃ t t' s,
    adds [(5, "a"); (2, "b")] new_tree = Returns t ∧
    equals 7 t = Some s ∧
    add 7 "__proto__" t = Returns t' ∧
    contains 7 t' = Some true ∧
    equals 7 t' = Some s ∧
    "__proto__"%string ∉ s ∧
    (7 ∉ [(5, "a"); (2, "b")].*1 → s = ∅).
Proof. exact (add_of_proto_stores_no_id (K := Z) [(5, "a"); (2, "b")] 7). Defined.



(** ** The subtree that a search finds *)
Section Found.
Context {K : Type} `{Compare K}.
Implicit Types (h : gmap loc (node K)) (T N : ptree K) (t : BinarySearchTree K).

Lemma psearch_plocs v T l s : psearch v T = Some (l, s) → l ∈ plocs T.
Proof.
  induction T as [|l' L IHL k s' R IHR]; simpl; [done|].
  rewrite elem_of_app, elem_of_cons.
  destruct (js_lt v k); [auto|]. destruct (js_gt v k); [auto|].
  intros [= <- <-]. auto.
Qed.

Lemma pfind_search v T l s :
  psearch v T = Some (l, s) →
  ∃ L k R, pfind v T = Br l L k s R ∧ js_lt v k = false ∧ js_gt v k = false.
Proof.
  induction T as [|l' L IHL k s' R IHR]; simpl; [done|].
  destruct (js_lt v k) eqn:Hlt; [auto|]. destruct (js_gt v k) eqn:Hgt; [auto|].
  intros [= <- <-]. by exists L, k, R.
Qed.

Lemma pfind_plocs v T x : x ∈ plocs (pfind v T) → x ∈ plocs T.
Proof.
  induction T as [|l L IHL k s R IHR]; simpl; [done|].
  rewrite elem_of_app, elem_of_cons.
  destruct (js_lt v k); [auto|]. destruct (js_gt v k); [auto|].
  simpl. by rewrite elem_of_app, elem_of_cons.
Qed.

Lemma pfind_repr v T h : repr h T → repr h (pfind v T).
Proof.
  induction T as [|l L IHL k s R IHR]; simpl; [done|].
  intros (Hl & HL & HR).
  destruct (js_lt v k); [auto|]. destruct (js_gt v k); [auto|]. done.
Qed.

Lemma pfind_NoDup v T : NoDup (plocs T) → NoDup (plocs (pfind v T)).
Proof.
  induction T as [|l L IHL k s R IHR]; simpl; [done|].
  intros Hnd. pose proof Hnd as (HL & _ & HR)%NoDup_app.
  apply NoDup_cons in HR as [_ HR].
  destruct (js_lt v k); [auto|]. destruct (js_gt v k); [auto|]. done.
Qed.

(** The search stops at the root of [T]. *)
Lemma psearch_at_root v T l s :
  NoDup (plocs T) → psearch v T = Some (l, s) → ptr T = Some l →
  pfind v T = T ∧ (∀ N, preplace v N T = N) ∧
  (∀ parent, pparent parent v T = (true, parent, Some l)).
Proof.
  destruct T as [|l' L k s' R]; simpl; [done|].
  intros (HL & Hdisj & HR)%NoDup_app Hs [= ->].
  apply NoDup_cons in HR as [HlR HR].
  destruct (js_lt v k).
  { apply psearch_plocs in Hs. destruct (Hdisj l Hs). by left. }
  destruct (js_gt v k).
  { apply psearch_plocs in Hs. by destruct HlR. }
  done.
Qed.

(** The search goes on below the root of [T]. *)
Lemma psearch_below_root v T l s :
  psearch v T = Some (l, s) → ptr T ≠ Some l →
  ∃ l0 L0 k0 s0 R0, T = Br l0 L0 k0 s0 R0 ∧
    ((js_lt v k0 = true ∧ psearch v L0 = Some (l, s)) ∨
     (js_lt v k0 = false ∧ js_gt v k0 = true ∧ psearch v R0 = Some (l, s))).
Proof.
  destruct T as [|l0 L0 k0 s0 R0]; simpl; [done|].
  intros Hs Hptr. exists l0, L0, k0, s0, R0. split; [done|].
  destruct (js_lt v k0); [by left|]. destruct (js_gt v k0); [by right|].
  injection Hs as -> _. done.
Qed.

(** The parent that the search loop of [remove] tracks is a node of [T]
    outside the subtree found. *)
Lemma pparent_found v T l s : ∀ parent,
  NoDup (plocs T) → psearch v T = Some (l, s) → ptr T ≠ Some l →
  ∃ p, pparent parent v T = (true, Some p, Some l) ∧
       p ∈ plocs T ∧ p ∉ plocs (pfind v T).
Proof.
  induction T as [|l0 L0 IHL k0 s0 R0 IHR]; intros parent Hnd Hs Hptr; [done|].
  simpl in Hnd. apply NoDup_app in Hnd as (HndL & Hdisj & HndR).
  apply NoDup_cons in HndR as [HlR HndR].
  assert (l0 ∉ plocs L0) as HlL.
  { intros Hin. apply (Hdisj l0 Hin). by left. }
  destruct (psearch_below_root v _ l s Hs Hptr)
    as (? & ? & ? & ? & ? & [= <- <- <- <- <-] & [(Hlt & Hs')|(Hlt & Hgt & Hs')]);
    simpl; rewrite Hlt, ?Hgt.
  - destruct (decide (ptr L0 = Some l)) as [Hroot|Hroot].
    + destruct (psearch_at_root v L0 l s HndL Hs' Hroot) as (-> & _ & ->).
      exists l0. split; [done|]. split; [|done].
      rewrite elem_of_app, elem_of_cons. auto.
    + destruct (IHL (Some l0) HndL Hs' Hroot) as (p & -> & Hp & Hp').
      exists p. split; [done|]. split; [|done]. rewrite elem_of_app. auto.
  - destruct (decide (ptr R0 = Some l)) as [Hroot|Hroot].
    + destruct (psearch_at_root v R0 l s HndR Hs' Hroot) as (-> & _ & ->).
      exists l0. split; [done|]. split; [|done].
      rewrite elem_of_app, elem_of_cons. auto.
    + destruct (IHR (Some l0) HndR Hs' Hroot) as (p & -> & Hp & Hp').
      exists p. split; [done|]. split; [|done].
      rewrite elem_of_app, elem_of_cons. auto.
Qed.

(** That parent links the found node on the side the search took. *)
Lemma pparent_links v T l s h : ∀ parent p,
  NoDup (plocs T) → repr h T → psearch v T = Some (l, s) → ptr T ≠ Some l →
  pparent parent v T = (true, Some p, Some l) →
  ∃ pn, h !! p = Some pn ∧
        if js_lt v (value pn) then left pn = Some l else right pn = Some l.
Proof.
  induction T as [|l0 L0 IHL k0 s0 R0 IHR]; intros parent p Hnd Hr Hs Hptr; [done|].
  simpl in Hnd. apply NoDup_app in Hnd as (HndL & Hdisj & HndR).
  apply NoDup_cons in HndR as [HlR HndR].
  destruct Hr as (Hl0 & HL & HR).
  destruct (psearch_below_root v _ l s Hs Hptr)
    as (? & ? & ? & ? & ? & [= <- <- <- <- <-] & [(Hlt & Hs')|(Hlt & Hgt & Hs')]);
    simpl; rewrite Hlt, ?Hgt.
  - destruct (decide (ptr L0 = Some l)) as [Hroot|Hroot].
    + destruct (psearch_at_root v L0 l s HndL Hs' Hroot) as (_ & _ & ->).
      intros [= <-]. eexists. split; [done|]. simpl. by rewrite Hlt.
    + by apply IHL.
  - destruct (decide (ptr R0 = Some l)) as [Hroot|Hroot].
    + destruct (psearch_at_root v R0 l s HndR Hs' Hroot) as (_ & _ & ->).
      intros [= <-]. eexists. split; [done|]. simpl. by rewrite Hlt.
    + by apply IHR.
Qed.

Lemma ptr_preplace v N T l s :
  psearch v T = Some (l, s) → ptr T ≠ Some l → ptr (preplace v N T) = ptr T.
Proof.
  intros Hs Hptr.
  destruct (psearch_below_root v _ l s Hs Hptr)
    as (? & ? & ? & ? & ? & -> & [(Hlt & Hs')|(Hlt & Hgt & Hs')]);
    simpl; by rewrite Hlt, ?Hgt.
Qed.

(** Re-linking the parent to the root of [N'] puts [N'] in the place of
    the subtree found, when the store was changed inside that subtree
    only. *)
Lemma place_replace v N' T l s (c : node K) : ∀ parent h h',
  value c = v →
  NoDup (plocs T) → repr h T →
  psearch v T = Some (l, s) → ptr T ≠ Some l →
  (∀ x, x ∈ plocs T → x ∉ plocs (pfind v T) → h' !! x = h !! x) →
  repr h' N' → (∀ x, x ∈ plocs N' → x ∈ plocs (pfind v T)) →
  ∃ p pn, pparent parent v T = (true, Some p, Some l) ∧
          p ∈ plocs T ∧ p ∉ plocs (pfind v T) ∧
          h' !! p = Some pn ∧
          repr (relink h' c pn p (ptr N')) (preplace v N' T).
Proof.
  intros parent h h' Hc. subst v. revert parent h h'.
  induction T as [|l0 L0 IHL k0 s0 R0 IHR];
    intros parent h h' Hnd Hr Hs Hptr Hsame HN' Hsub; [done|].
  simpl in Hnd. apply NoDup_app in Hnd as (HndL & Hdisj & HndR).
  apply NoDup_cons in HndR as [HlR HndR].
  assert (l0 ∉ plocs L0) as HlL.
  { intros Hin. apply (Hdisj l0 Hin). by left. }
  destruct Hr as (Hl0 & HL & HR).
  destruct (psearch_below_root _ _ l s Hs Hptr)
    as (? & ? & ? & ? & ? & [= <- <- <- <- <-] & [(Hlt & Hs')|(Hlt & Hgt & Hs')]);
    simpl in Hsame, Hsub |- *; rewrite Hlt, ?Hgt in Hsame, Hsub |- *.
  - assert (∀ x, x ∈ plocs (pfind (value c) L0) → x ∈ plocs L0) as HinL
      by apply pfind_plocs.
    assert (h' !! l0 = Some (Node k0 (ptr L0) (ptr R0) s0)) as Hl0'.
    { rewrite Hsame; [done| |naive_solver]. rewrite elem_of_app, elem_of_cons. auto. }
    assert (repr h' R0) as HR'.
    { apply (repr_frame h); [done|]. intros x Hx. apply Hsame.
      - rewrite elem_of_app, elem_of_cons. auto.
      - intros Hin%HinL. apply (Hdisj x Hin). by right. }
    destruct (decide (ptr L0 = Some l)) as [Hroot|Hroot].
    + destruct (psearch_at_root _ L0 l s HndL Hs' Hroot) as (Hfind & -> & ->).
      rewrite Hfind in Hsub |- *.
      exists l0, (Node k0 (ptr L0) (ptr R0) s0). split; [done|].
      split; [rewrite elem_of_app, elem_of_cons; auto|].
      split; [done|]. split; [done|].
      unfold relink. simpl. rewrite Hlt. split_and!.
      * by rewrite (lookup_set_left _ _ _ _ Hl0').
      * apply (repr_frame h'); [done|]. intros x Hx.
        apply lookup_set_left_ne. intros ->. by apply HlL, Hsub.
      * apply (repr_frame h'); [done|]. intros x Hx.
        apply lookup_set_left_ne. by intros ->.
    + destruct (IHL (Some l0) h h' HndL HL Hs' Hroot)
        as (p & pn & -> & HpL & Hpout & Hp & Hr'); [|done|done|].
      { intros x Hx Hx'. apply Hsame; [|done]. rewrite elem_of_app. auto. }
      exists p, pn. split; [done|]. split; [rewrite elem_of_app; auto|].
      split; [done|]. split; [done|]. split_and!; [|done|].
      * rewrite lookup_relink_ne by (by intros ->).
        by rewrite Hl0', (ptr_preplace _ _ _ l s).
      * apply (repr_frame h'); [done|]. intros x Hx. apply lookup_relink_ne.
        intros ->. apply (Hdisj p HpL). by right.
  - assert (∀ x, x ∈ plocs (pfind (value c) R0) → x ∈ plocs R0) as HinR
      by apply pfind_plocs.
    assert (h' !! l0 = Some (Node k0 (ptr L0) (ptr R0) s0)) as Hl0'.
    { rewrite Hsame; [done| |naive_solver]. rewrite elem_of_app, elem_of_cons. auto. }
    assert (repr h' L0) as HL'.
    { apply (repr_frame h); [done|]. intros x Hx. apply Hsame.
      - rewrite elem_of_app. auto.
      - intros Hin%HinR. apply (Hdisj x Hx). by right. }
    destruct (decide (ptr R0 = Some l)) as [Hroot|Hroot].
    + destruct (psearch_at_root _ R0 l s HndR Hs' Hroot) as (Hfind & -> & ->).
      rewrite Hfind in Hsub |- *.
      exists l0, (Node k0 (ptr L0) (ptr R0) s0). split; [done|].
      split; [rewrite elem_of_app, elem_of_cons; auto|].
      split; [done|]. split; [done|].
      unfold relink. simpl. rewrite Hlt. split_and!.
      * by rewrite (lookup_set_right _ _ _ _ Hl0').
      * apply (repr_frame h'); [done|]. intros x Hx.
        apply lookup_set_right_ne. by intros ->.
      * apply (repr_frame h'); [done|]. intros x Hx.
        apply lookup_set_right_ne. intros ->. by apply HlR, Hsub.
    + destruct (IHR (Some l0) h h' HndR HR Hs' Hroot)
        as (p & pn & -> & HpR & Hpout & Hp & Hr'); [|done|done|].
      { intros x Hx Hx'. apply Hsame; [|done]. rewrite elem_of_app, elem_of_cons. auto. }
      exists p, pn. split; [done|].
      split; [rewrite elem_of_app, elem_of_cons; auto|].
      split; [done|]. split; [done|]. split_and!; [| |done].
      * rewrite lookup_relink_ne by (by intros ->).
        by rewrite Hl0', (ptr_preplace _ _ _ l s).
      * apply (repr_frame h'); [done|]. intros x Hx. apply lookup_relink_ne.
        intros ->. apply (Hdisj p Hx). by right.
Qed.

End Found.

(** ** The right-most node of the left subtree *)
Section Rightmost.
Context {K : Type} `{Compare K}.
Implicit Types (h : gmap loc (node K)) (T L R : ptree K).

Lemma rightmost_spec h : ∀ R l L k s fuel rp,
  repr h (Br l L k s R) → (pheight (Br l L k s R) ≤ fuel)%nat →
  rightmost fuel h rp l = Some (pmaxparent rp l R, (pmax l k s R).1.1).
Proof.
  induction R as [|l' L' _ k' s' R' IH]; intros l L k s fuel rp (Hl & HL & HR) Hf;
    (destruct fuel as [|fuel]; [simpl in Hf; lia|]); simpl; rewrite Hl; simpl; [done|].
  apply (IH l' L' k' s'); [done|]. simpl in Hf |- *. lia.
Qed.

Lemma pmax_node h : ∀ R l L k s,
  repr h (Br l L k s R) →
  h !! (pmax l k s R).1.1 =
    Some (Node (pmax l k s R).1.2 (ptr (pmaxleft L R)) None (pmax l k s R).2).
Proof.
  induction R as [|l' L' _ k' s' R' IH]; intros l L k s (Hl & HL & HR); simpl; [done|].
  by apply (IH l' L' k' s').
Qed.

Lemma pdelmax_Br l L k s R :
  R ≠ Leaf → pdelmax (Br l L k s R) = Br l L k s (pdelmax R).
Proof. by destruct R. Qed.

Lemma plocs_pdelmax : ∀ R l L k s,
  plocs (Br l L k s R) = plocs (pdelmax (Br l L k s R)) ++ [(pmax l k s R).1.1].
Proof.
  induction R as [|l' L' _ k' s' R' IH]; intros l L k s; [done|].
  rewrite pdelmax_Br by done.
  change (pmax l k s (Br l' L' k' s' R')) with (pmax l' k' s' R').
  change (plocs (Br l L k s (Br l' L' k' s' R')))
    with (plocs L ++ l :: plocs (Br l' L' k' s' R')).
  change (plocs (Br l L k s (pdelmax (Br l' L' k' s' R'))))
    with (plocs L ++ l :: plocs (pdelmax (Br l' L' k' s' R'))).
  rewrite (IH l' L' k' s'). by rewrite <- app_assoc.
Qed.

Lemma pitems_pdelmax : ∀ R l L k s,
  pitems (Br l L k s R) =
    pitems (pdelmax (Br l L k s R)) ++ [((pmax l k s R).1.2, (pmax l k s R).2)].
Proof.
  induction R as [|l' L' _ k' s' R' IH]; intros l L k s; [done|].
  rewrite pdelmax_Br by done.
  change (pmax l k s (Br l' L' k' s' R')) with (pmax l' k' s' R').
  change (pitems (Br l L k s (Br l' L' k' s' R')))
    with (pitems L ++ (k, s) :: pitems (Br l' L' k' s' R')).
  change (pitems (Br l L k s (pdelmax (Br l' L' k' s' R'))))
    with (pitems L ++ (k, s) :: pitems (pdelmax (Br l' L' k' s' R'))).
  rewrite (IH l' L' k' s'). by rewrite <- app_assoc.
Qed.

Lemma pdelmax_repr h : ∀ R l L k s rp,
  R ≠ Leaf → NoDup (plocs (Br l L k s R)) → repr h (Br l L k s R) →
  ∃ p, pmaxparent rp l R = ref p ∧
       p ∈ plocs (pdelmax (Br l L k s R)) ∧
       repr (set_right p (ptr (pmaxleft L R)) h) (pdelmax (Br l L k s R)).
Proof.
  induction R as [|l' L' _ k' s' R' IH]; intros l L k s rp Hne Hnd (Hl & HL & HR);
    [done|].
  simpl in Hnd. apply NoDup_app in Hnd as (HndL & Hdisj & HndR).
  apply NoDup_cons in HndR as [HlR HndR].
  assert (l ∉ plocs L) as HlL.
  { intros Hin. apply (Hdisj l Hin). by left. }
  rewrite pdelmax_Br by done.
  destruct (ptree_cases R') as [->|(lR & HpR & HneR)].
  - exists l. simpl in *. split; [done|].
    split; [rewrite elem_of_app, elem_of_cons; auto|].
    destruct HR as (Hl' & HL' & _).
    split_and!.
    + by rewrite (lookup_set_right _ _ _ _ Hl).
    + apply (repr_frame h); [done|]. intros x Hx.
      apply lookup_set_right_ne. by intros ->.
    + apply (repr_frame h); [done|]. intros x Hx.
      apply lookup_set_right_ne. intros ->. apply HlR.
      rewrite elem_of_app. auto.
  - destruct (IH l' L' k' s' (ref l) HneR HndR HR) as (p & Hp & Hpin & Hr').
    exists p. cbn [pmaxparent pmaxleft]. split; [done|].
    assert (p ∈ plocs (Br l' L' k' s' R')) as HpR'.
    { rewrite plocs_pdelmax, elem_of_app. auto. }
    split; [cbn [plocs]; rewrite elem_of_app, elem_of_cons; auto|].
    cbn [repr]. split_and!.
    + rewrite lookup_set_right_ne by (by intros ->).
      rewrite Hl. by rewrite pdelmax_Br.
    + apply (repr_frame h); [done|]. intros x Hx.
      apply lookup_set_right_ne. intros <-. apply (Hdisj p Hx). by right.
    + done.
Qed.

End Rightmost.

(** ** Moving the right-most node of the left subtree up *)
Section Splice.
Context {K : Type} `{Compare K}.
Implicit Types (h : gmap loc (node K)) (T L R : ptree K).

Lemma pmaxparent_indep rp rp' l R :
  R ≠ Leaf → pmaxparent rp l R = pmaxparent rp' l R.
Proof. by destruct R. Qed.

Lemma get_left_lookup h l n : h !! l = Some n → get_left h l = left n.
Proof. intros Hl. unfold get_left. by rewrite Hl. Qed.

Lemma get_right_lookup h l n : h !! l = Some n → get_right h l = right n.
Proof. intros Hl. unfold get_right. by rewrite Hl. Qed.

Lemma splice_repr h c ll LL kl sl LR k s R :
  LR ≠ Leaf →
  NoDup (plocs (Br c (Br ll LL kl sl LR) k s R)) →
  repr h (Br c (Br ll LL kl sl LR) k s R) →
  ∃ p, (∀ rp, pmaxparent rp ll LR = ref p) ∧
       p ∈ plocs (Br ll LL kl sl LR) ∧
       repr (splice h c p (pmax ll kl sl LR).1.1)
         (Br (pmax ll kl sl LR).1.1 (pdelmax (Br ll LL kl sl LR))
             (pmax ll kl sl LR).1.2 (pmax ll kl sl LR).2 R) ∧
       (∀ x, x ∉ plocs (Br ll LL kl sl LR) →
             splice h c p (pmax ll kl sl LR).1.1 !! x = h !! x) ∧
       NoDup (plocs (pdelmax (Br ll LL kl sl LR)) ++
              (pmax ll kl sl LR).1.1 :: plocs R).
Proof.
  intros HneLR Hnd (Hc & HL & HR).
  set (L := Br ll LL kl sl LR) in *.
  set (m := (pmax ll kl sl LR).1.1).
  change (plocs (Br c L k s R)) with (plocs L ++ c :: plocs R) in Hnd.
  apply NoDup_app in Hnd as (HndL & Hdisj & HndR).
  apply NoDup_cons in HndR as [HcR HndR].
  assert (c ∉ plocs L) as HcL.
  { intros Hin. apply (Hdisj c Hin). by left. }
  pose proof (plocs_pdelmax LR ll LL kl sl) as Hlocs. fold L m in Hlocs.
  pose proof HndL as HndL'. rewrite Hlocs in HndL'.
  apply NoDup_app in HndL' as (HndD & HdisjD & _).
  assert (m ∈ plocs L) as HmL.
  { rewrite Hlocs, elem_of_app, list_elem_of_singleton. auto. }
  assert (∀ x, x ∈ plocs (pdelmax L) → x ∈ plocs L) as HDL.
  { intros x Hx. rewrite Hlocs, elem_of_app. auto. }
  assert (m ∉ plocs (pdelmax L)) as HmD.
  { intros Hin. apply (HdisjD m Hin), list_elem_of_singleton. done. }
  destruct (pdelmax_repr h LR ll LL kl sl undefined HneLR HndL HL)
    as (p & Hp & HpD & Hr1). fold L in HpD, Hr1.
  pose proof (pmax_node h LR ll LL kl sl HL) as Hm. fold m in Hm.
  assert (p ≠ m) as Hpm by (by intros ->).
  assert (p ≠ c) as Hpc.
  { intros ->. by apply HcL, HDL. }
  assert (m ≠ c) as Hmc by (by intros <-).
  exists p. split.
  { intros rp. by rewrite (pmaxparent_indep rp undefined). }
  split; [by apply HDL|].
  unfold splice.
  rewrite (get_left_lookup h m _ Hm). simpl.
  set (h1 := set_right p (ptr (pmaxleft LL LR)) h) in *.
  assert (h1 !! c = Some (Node k (ptr L) (ptr R) s)) as Hc1.
  { subst h1. by rewrite lookup_set_right_ne. }
  assert (h1 !! m = h !! m) as Hm1.
  { subst h1. by rewrite lookup_set_right_ne. }
  rewrite (get_right_lookup h1 c _ Hc1). simpl.
  set (h2 := set_right m (ptr R) h1).
  assert (h2 !! c = Some (Node k (ptr L) (ptr R) s)) as Hc2.
  { subst h2. by rewrite lookup_set_right_ne. }
  rewrite (get_left_lookup h2 c _ Hc2). simpl.
  rewrite Hm in Hm1.
  assert (h2 !! m = Some (Node (pmax ll kl sl LR).1.2 (ptr (pmaxleft LL LR))
                               (ptr R) (pmax ll kl sl LR).2)) as Hm2.
  { subst h2. by rewrite (lookup_set_right _ _ _ _ Hm1). }
  split; [|split].
  - split_and!.
    + rewrite (lookup_set_left _ _ _ _ Hm2). simpl. by destruct LR.
    + apply (repr_frame h1); [done|]. intros x Hx.
      rewrite lookup_set_left_ne by (by intros <-). subst h2.
      rewrite lookup_set_right_ne by (by intros <-). done.
    + apply (repr_frame h); [done|]. intros x Hx.
      assert (x ∉ plocs L) as HxL.
      { intros Hin. apply (Hdisj x Hin). by right. }
      rewrite lookup_set_left_ne by (by intros <-). subst h2.
      rewrite lookup_set_right_ne by (by intros <-). subst h1.
      rewrite lookup_set_right_ne; [done|]. intros <-. by apply HxL, HDL.
  - intros x Hx.
    rewrite lookup_set_left_ne by (by intros <-). subst h2.
    rewrite lookup_set_right_ne by (by intros <-). subst h1.
    rewrite lookup_set_right_ne; [done|]. intros <-. by apply Hx, HDL.
  - apply NoDup_app. split; [done|]. split.
    + intros x Hx. rewrite elem_of_cons. intros [->|HxR]; [done|].
      apply (Hdisj x (HDL x Hx)). by right.
    + apply NoDup_cons. split; [|done]. intros Hin.
      apply (Hdisj m HmL). by right.
Qed.

End Splice.

(** ** Excising a node whose id set became empty *)
Section Excise.
Context {K : Type} `{Compare K}.
Implicit Types (h : gmap loc (node K)) (T L R N : ptree K) (t : BinarySearchTree K).

Lemma pexcise_items c L k s R N' :
  pexcise (Br c L k s R) = Some N' → pitems N' = pitems L ++ pitems R.
Proof.
  intros Hex. destruct L as [|ll LL kl sl LR].
  { simpl in Hex. by injection Hex as <-. }
  destruct R as [|lr RL kr sr RR].
  { assert (N' = Br ll LL kl sl LR) as -> by (destruct LR; by injection Hex as <-).
    by rewrite app_nil_r. }
  destruct LR as [|l1 L1 k1 s1 R1]; [done|].
  pose proof (pitems_pdelmax (Br l1 L1 k1 s1 R1) ll LL kl sl) as Hit.
  rewrite Hit. simpl in Hex.
  change (pmax ll kl sl (Br l1 L1 k1 s1 R1)) with (pmax l1 k1 s1 R1).
  destruct (pmax l1 k1 s1 R1) as [[m km] sm]. injection Hex as <-.
  transitivity (pitems (pdelmax (Br ll LL kl sl (Br l1 L1 k1 s1 R1))) ++
                (km, sm) :: pitems (Br lr RL kr sr RR)); [reflexivity|].
  cbn [fst snd]. by rewrite <- app_assoc.
Qed.

Lemma excise_subtree h0 c L k s R N' :
  NoDup (plocs (Br c L k s R)) → repr h0 (Br c L k s R) →
  pexcise (Br c L k s R) = Some N' →
  ∃ hf,
    remove_root (set_ids c ∅ h0) c (Node k (ptr L) (ptr R) ∅) =
      Returns (Tree (ptr N') hf) ∧
    (∀ t parent,
       remove_inner t (set_ids c ∅ h0) parent c (Node k (ptr L) (ptr R) ∅) =
         place (_root t) hf (Node k (ptr L) (ptr R) ∅) parent (ptr N')) ∧
    repr hf N' ∧
    (∀ x, x ∉ plocs (Br c L k s R) → hf !! x = h0 !! x) ∧
    (∀ x, x ∈ plocs N' → x ∈ plocs (Br c L k s R)) ∧
    NoDup (plocs N').
Proof.
  intros Hnd Hr Hex.
  set (h := set_ids c ∅ h0).
  pose proof Hnd as Hnd0.
  change (plocs (Br c L k s R)) with (plocs L ++ c :: plocs R) in Hnd.
  apply NoDup_app in Hnd as (HndL & Hdisj & HndR).
  apply NoDup_cons in HndR as [HcR HndR].
  assert (c ∉ plocs L) as HcL.
  { intros Hin. apply (Hdisj c Hin). by left. }
  destruct Hr as (Hc & HL & HR).
  assert (h !! c = Some (Node k (ptr L) (ptr R) ∅)) as Hc'.
  { subst h. by rewrite (lookup_set_ids _ _ _ _ Hc). }
  assert (∀ x, x ≠ c → h !! x = h0 !! x) as Hframe.
  { intros x Hx. subst h. by apply lookup_set_ids_ne. }
  assert (repr h L) as HL'.
  { apply (repr_frame h0); [done|]. intros x Hx. apply Hframe. by intros ->. }
  assert (repr h R) as HR'.
  { apply (repr_frame h0); [done|]. intros x Hx. apply Hframe. by intros ->. }
  assert (∀ x, x ∉ plocs (Br c L k s R) → h !! x = h0 !! x) as Hout.
  { intros x Hx. apply Hframe. intros ->. apply Hx.
    cbn [plocs]. rewrite elem_of_app, elem_of_cons. auto. }
  destruct L as [|ll LL kl sl LR].
  { simpl in Hex. injection Hex as <-. exists h.
    split; [by destruct R|]. split; [by destruct R|].
    split; [done|]. split; [done|]. split; [|done].
    intros x Hx. cbn [plocs]. rewrite elem_of_app, elem_of_cons. auto. }
  destruct R as [|lr RL kr sr RR].
  { assert (N' = Br ll LL kl sl LR) as -> by (destruct LR; by injection Hex as <-).
    exists h.
    split; [done|]. split; [done|].
    split; [done|]. split; [done|]. split; [|done].
    intros x Hx.
    change (x ∈ plocs (Br ll LL kl sl LR) ++ [c]). rewrite elem_of_app. auto. }
  destruct (ptree_cases LR) as [->|(l1 & Hl1 & HneLR)]; [done|].
  assert (N' = Br (pmax ll kl sl LR).1.1 (pdelmax (Br ll LL kl sl LR))
                  (pmax ll kl sl LR).1.2 (pmax ll kl sl LR).2
                  (Br lr RL kr sr RR)) as ->.
  { destruct LR as [|? ? ? ? ?]; [done|]. simpl in Hex |- *.
    destruct (pmax _ _ _ _) as [[m km] sm]. by injection Hex as <-. }
  destruct (splice_repr h c ll LL kl sl LR k ∅ (Br lr RL kr sr RR) HneLR)
    as (p & Hp & HpL & Hr3 & Hframe3 & Hnd3); [done|done|].
  exists (splice h c p (pmax ll kl sl LR).1.1).
  assert (rightmost_ok : ∀ rp,
    rightmost (fuel_of h) h rp ll = Some (ref p, (pmax ll kl sl LR).1.1)).
  { intros rp. rewrite (rightmost_spec h LR ll LL kl sl _ rp HL'), Hp; [done|].
    pose proof (fuel_enough h _ HL' HndL). lia. }
  split; [|split; [|split; [done|split; [|split; [|done]]]]].
  - unfold remove_root, childCount.
    rewrite (get_left_lookup h c _ Hc'). cbn [left right ptr Nat.add].
    rewrite rightmost_ok. reflexivity.
  - intros t parent. unfold remove_inner, childCount.
    cbn [left right ptr Nat.add]. rewrite rightmost_ok. reflexivity.
  - intros x Hx. rewrite Hframe3.
    + by apply Hout.
    + intros Hin. apply Hx.
      change (x ∈ plocs (Br ll LL kl sl LR) ++ c :: plocs (Br lr RL kr sr RR)).
      rewrite elem_of_app. auto.
  - intros x.
    change (plocs (Br c (Br ll LL kl sl LR) k s (Br lr RL kr sr RR)))
      with (plocs (Br ll LL kl sl LR) ++ c :: plocs (Br lr RL kr sr RR)).
    change (plocs (Br (pmax ll kl sl LR).1.1 (pdelmax (Br ll LL kl sl LR))
                      (pmax ll kl sl LR).1.2 (pmax ll kl sl LR).2 (Br lr RL kr sr RR)))
      with (plocs (pdelmax (Br ll LL kl sl LR)) ++
            (pmax ll kl sl LR).1.1 :: plocs (Br lr RL kr sr RR)).
    rewrite (plocs_pdelmax LR ll LL kl sl).
    rewrite !elem_of_app, !elem_of_cons. rewrite elem_of_nil. naive_solver.
Qed.

End Excise.

(** ** A tree with the found subtree replaced *)
Section Replace.
Context {K : Type} `{Compare K}.
Implicit Types (h : gmap loc (node K)) (T L R N : ptree K) (t : BinarySearchTree K).

Lemma plocs_preplace v N' T x :
  (∀ y, y ∈ plocs N' → y ∈ plocs (pfind v T)) →
  x ∈ plocs (preplace v N' T) → x ∈ plocs T.
Proof.
  induction T as [|l L IHL k s R IHR]; simpl; [done|].
  destruct (js_lt v k); [|destruct (js_gt v k)]; simpl; intros Hsub;
    rewrite ?elem_of_app, ?elem_of_cons.
  - intros [Hx|Hx]; [left; by apply IHL|by right].
  - intros [Hx|[Hx|Hx]]; [auto..|]. right; right. by apply IHR.
  - intros Hx. specialize (Hsub x Hx). by rewrite elem_of_app, elem_of_cons in Hsub.
Qed.

Lemma NoDup_preplace v N' T :
  NoDup (plocs T) → NoDup (plocs N') →
  (∀ y, y ∈ plocs N' → y ∈ plocs (pfind v T)) →
  NoDup (plocs (preplace v N' T)).
Proof.
  induction T as [|l L IHL k s R IHR]; simpl; [done|].
  intros (HL & Hdisj & HR)%NoDup_app HN'.
  apply NoDup_cons in HR as [HlR HR].
  destruct (js_lt v k); [|destruct (js_gt v k)]; simpl; intros Hsub; [| |done].
  - apply NoDup_app. split; [by apply IHL|]. split; [|by apply NoDup_cons].
    intros x Hx. apply plocs_preplace in Hx; [by apply Hdisj|done].
  - apply NoDup_app. split; [done|]. split.
    + intros x Hx. rewrite elem_of_cons. intros [->|Hx'].
      * apply (Hdisj l Hx). by left.
      * apply plocs_preplace in Hx'; [|done]. apply (Hdisj x Hx). by right.
    + apply NoDup_cons. split; [|by apply IHR].
      intros Hx. apply plocs_preplace in Hx; done.
Qed.

Lemma pitems_preplace v T l s :
  psearch v T = Some (l, s) →
  ∃ A B, pitems T = A ++ pitems (pfind v T) ++ B ∧
         ∀ N', pitems (preplace v N' T) = A ++ pitems N' ++ B.
Proof.
  induction T as [|l' L IHL k s' R IHR]; [done|].
  cbn [psearch pfind preplace].
  destruct (js_lt v k); [|destruct (js_gt v k)].
  - intros (A & B & HA & HB)%IHL. exists A, (B ++ (k, s') :: pitems R).
    cbn [pitems]. split.
    + rewrite HA. by rewrite <- !app_assoc.
    + intros N'. rewrite HB. by rewrite <- !app_assoc.
  - intros (A & B & HA & HB)%IHR. exists (pitems L ++ (k, s') :: A), B.
    cbn [pitems]. split.
    + rewrite HA. by rewrite <- !app_assoc.
    + intros N'. rewrite HB. by rewrite <- !app_assoc.
  - intros _. exists [], []. split; [by rewrite app_nil_r|].
    intros N'. by rewrite app_nil_r.
Qed.

Lemma bst_of_ascending T : ascending (pkeys T) → bst T.
Proof.
  induction T as [|l L IHL k s R IHR]; simpl; [done|].
  intros Hasc. pose proof Hasc as (Hlr & HaL & HaR)%StronglySorted_app.
  apply StronglySorted_cons in HaR as [Hk HaR].
  split_and!; [|by apply Forall_forall|by apply IHL|by apply IHR].
  intros x Hx. apply Hlr; [done|]. by left.
Qed.

Lemma pexcise_None c L k s R :
  pexcise (Br c L k s R) = None →
  ∃ ll LL kl sl lr, L = Br ll LL kl sl Leaf ∧ ptr R = Some lr.
Proof.
  destruct L as [|ll LL kl sl LR]; [done|].
  destruct LR as [|l1 L1 k1 s1 R1].
  - destruct R as [|lr RL kr sr RR]; [done|]. intros _. by exists ll, LL, kl, sl, lr.
  - destruct R as [|lr RL kr sr RR]; [done|]. simpl.
    by destruct (pmax l1 k1 s1 R1) as [[m km] sm].
Qed.

End Replace.

Section RemoveLast.
Context {K : Type} `{StrictTotal K}.
Implicit Types (h : gmap loc (node K)) (T L R N : ptree K) (t : BinarySearchTree K).

Lemma pfind_key v T l s :
  psearch v T = Some (l, s) → ∃ L R, pfind v T = Br l L v s R.
Proof.
  intros (L & k & R & Hf & Hlt & Hgt)%pfind_search.
  exists L, R. assert (v = k) as -> by (by apply lt_total). done.
Qed.

(** [remove] of the last id of a node, on the paths that keep the tree a
    tree. *)
Lemma remove_last_id v i t T c s N' :
  represents t T → psearch v T = Some (c, s) → s ∖ {[ i ]} = ∅ →
  pexcise (pfind v T) = Some N' →
  ∃ t', remove v i t = Returns t' ∧ represents t' (preplace v N' T).
Proof.
  intros Hrep Hs Hempty Hex.
  destruct (remove_search_found v t T c s Hrep Hs) as (Hsearch & p0 & Hp0).
  rewrite Hp0 in Hsearch. destruct Hrep as (Hroot & Hr & Hnd).
  destruct (pfind_key v T c s Hs) as (L & R & Hfind).
  pose proof (pfind_repr v T _ Hr) as HrN. rewrite Hfind in HrN.
  pose proof (pfind_NoDup v T Hnd) as HndN. rewrite Hfind in HndN.
  pose proof HrN as (Hc & _).
  rewrite (remove_found_excise v i t p0 c _ Hsearch Hc Hempty). cbn [value left right].
  rewrite Hfind in Hex.
  destruct (excise_subtree (heap t) c L v s R N' HndN HrN Hex)
    as (hf & Hrm_root & Hrm_inner & HrN' & Hframe & Hsub & HndN').
  destruct (decide (Some c = _root t)) as [Hisroot|Hnotroot].
  - rewrite Hrm_root. eexists. split; [done|].
    rewrite Hroot in Hisroot. symmetry in Hisroot.
    destruct (psearch_at_root v T c s Hnd Hs Hisroot) as (_ & -> & _).
    split; [done|]. split; done.
  - rewrite Hrm_inner. rewrite Hroot in Hnotroot.
    assert (ptr T ≠ Some c) as Hptr by (by intros Heq; apply Hnotroot).
    destruct (place_replace v N' T c s (Node v (ptr L) (ptr R) ∅) None (heap t) hf)
      as (p & pn & Hpp & _ & _ & Hp & Hr'); [done|done|done|done|done| |done| |].
    { intros x Hx Hx'. apply Hframe. by rewrite <- Hfind. }
    { intros x Hx. rewrite Hfind. by apply Hsub. }
    rewrite Hp0 in Hpp. injection Hpp as ->.
    unfold place. rewrite Hp. eexists. split; [done|].
    split; [|split; [done|]].
    + simpl. by rewrite Hroot, (ptr_preplace v N' T c s).
    + apply NoDup_preplace; [done|done|].
      intros x Hx. rewrite Hfind. by apply Hsub.
Qed.

End RemoveLast.

Section RemoveFacts.
Context {K : Type} `{StrictTotal K}.
Implicit Types (h : gmap loc (node K)) (T L R N : ptree K) (t : BinarySearchTree K).

Lemma found_node_spec v t T :
  represents t T → found_node v t = fst <$> psearch v T.
Proof.
  intros (Hroot & Hr & Hnd). unfold found_node.
  rewrite Hroot, (search_loop_spec v _ T) by eauto using fuel_enough.
  by destruct (psearch v T) as [[l s]|].
Qed.

Lemma found_node_psearch v t T c cn :
  represents t T → found_node v t = Some c → heap t !! c = Some cn →
  psearch v T = Some (c, ids cn) ∧
  ∃ L R, pfind v T = Br c L v (ids cn) R ∧ cn = Node v (ptr L) (ptr R) (ids cn).
Proof.
  intros Hrep Hfound Hcn. rewrite (found_node_spec v t T Hrep) in Hfound.
  destruct (psearch v T) as [[c' s]|] eqn:Hs; [|done]. injection Hfound as ->.
  destruct (pfind_key v T c s Hs) as (L & R & Hfind).
  destruct Hrep as (_ & Hr & _).
  pose proof (pfind_repr v T _ Hr) as HrN. rewrite Hfind in HrN.
  destruct HrN as (Hc & _). rewrite Hc in Hcn. injection Hcn as <-. simpl.
  split; [done|]. by exists L, R.
Qed.

Lemma ascending_remove_middle (A B : list K) (k : K) :
  ascending (A ++ k :: B) → ascending (A ++ B).
Proof.
  intros (Hlr & HA & HB)%StronglySorted_app.
  apply StronglySorted_cons in HB as [_ HB].
  apply StronglySorted_app_2; [|done..].
  intros x y Hx Hy. apply Hlr; [done|]. by right.
Qed.

Lemma valid_after_removal t T T' (A B : list (K * gset id)) k s :
  represents t T' → bst T → ids_nonempty T →
  pitems T = A ++ (k, s) :: B → pitems T' = A ++ B → valid t.
Proof.
  intros Hrep Hbst Hne HT HT'. exists T'. split; [done|]. split.
  - apply bst_of_ascending. rewrite <- pitems_keys, HT', fmap_app.
    apply (ascending_remove_middle _ _ k).
    apply bst_ascending in Hbst. by rewrite <- pitems_keys, HT, fmap_app in Hbst.
  - intros k' s' Hin. apply (Hne k' s'). rewrite HT. rewrite HT' in Hin.
    rewrite elem_of_app, elem_of_cons. apply elem_of_app in Hin. naive_solver.
Qed.

End RemoveFacts.

(** ** The two-children paths on a left child without right child *)
Section Defect.
Context {K : Type} `{Compare K}.
Implicit Types (h : gmap loc (node K)) (t : BinarySearchTree K).

(** The search loop of [remove] is the search loop of [contains] with
    the parent tracked besides. *)
Lemma remove_search_search v h : ∀ fuel parent current,
  search_loop fuel v h current =
    (λ r, (r.1.1, r.2)) <$> remove_search fuel v h parent current.
Proof.
  induction fuel as [|fuel IH]; intros parent current; simpl; [done|].
  destruct current as [c|]; [|done].
  destruct (h !! c) as [n|]; [|done].
  destruct (js_lt v (value n)); [apply IH|].
  destruct (js_gt v (value n)); [apply IH|done].
Qed.

Lemma found_node_remove_search v t c :
  found_node v t = Some c →
  ∃ parent, remove_search (fuel_of (heap t)) v (heap t) None (_root t) =
              Some (true, parent, Some c).
Proof.
  unfold found_node.
  rewrite (remove_search_search v (heap t) _ None).
  destruct (remove_search _ _ _ _ _) as [[[found parent] current]|]; [|done].
  simpl. destruct found; [|done]. destruct current as [c'|]; [|done].
  intros [= ->]. by exists parent.
Qed.

End Defect.

Lemma remove_root_defect {K : Type} `{Compare K}
    (t : BinarySearchTree K) (k : K) (i : id) (c : loc) (cn : node K) :
  found_node k t = Some c → _root t = Some c → heap t !! c = Some cn →
  ids cn ∖ {[ i ]} = ∅ → left_child_is_rightmost (heap t) cn →
  remove k i t = TypeError (Tree (Some c) (set_ids c ∅ (heap t))).
Proof.
  intros Hfound Hroot Hcn Hempty (l & r & ln & Hl & Hr & Hln & Hright).
  destruct (found_node_remove_search k t c Hfound) as (parent & Hsearch).
  rewrite (remove_found_excise k i t parent c cn Hsearch Hcn Hempty).
  rewrite decide_True by done.
  assert (l ≠ c) as Hlc.
  { intros ->. rewrite Hcn in Hln. injection Hln as <-. by rewrite Hr in Hright. }
  set (h := set_ids c ∅ (heap t)).
  assert (h !! c = Some (Node (value cn) (left cn) (right cn) ∅)) as Hc'.
  { subst h. by apply lookup_set_ids. }
  assert (h !! l = Some ln) as Hl'.
  { subst h. by rewrite lookup_set_ids_ne. }
  unfold remove_root, childCount. rewrite (get_left_lookup h c _ Hc').
  cbn [left right]. rewrite Hl, Hr. cbn [Nat.add].
  unfold fuel_of. cbn [rightmost]. by rewrite Hl', Hright.
Qed.


(** X13.  On every tree object: when the root has two children and its left
    child has no right child, [remove] of the root's last id throws a
    [TypeError]; the tree is left with the root in place, its links as
    they were and its id set empty. *)
Theorem remove_root_throws_on_left_child_without_right {K : Type} `{Compare K}
    (t : BinarySearchTree K) (k : K) (i : id) (c : loc) (cn : node K) :
  found_node k t = Some c → _root t = Some c → heap t !! c = Some cn →
  ids cn ∖ {[ i ]} = ∅ → left_child_is_rightmost (heap t) cn →
  remove k i t = TypeError (Tree (Some c) (set_ids c ∅ (heap t))).
Proof. apply remove_root_defect. Qed.

Section InnerDefect.
Context {K : Type} `{Compare K}.
Implicit Types (h : gmap loc (node K)) (t : BinarySearchTree K).

Lemma remove_inner_left_child_heap t (k : K) i p c l pn cn ln r :
  remove_search (fuel_of (heap t)) k (heap t) None (_root t) =
    Some (true, Some p, Some c) →
  _root t ≠ Some c → p ≠ c → p ≠ l →
  heap t !! p = Some pn → heap t !! c = Some cn → heap t !! l = Some ln →
  ids cn ∖ {[ i ]} = ∅ →
  left cn = Some l → right cn = Some r → right ln = None →
  ∃ t', remove k i t = Returns t' ∧ _root t' = _root t ∧
        heap t' !! l = Some (Node (value ln) (Some l) (left ln) (ids ln)) ∧
        heap t' !! p =
          Some (if js_lt (value cn) (value pn)
                then Node (value pn) (Some l) (right pn) (ids pn)
                else Node (value pn) (left pn) (Some l) (ids pn)) ∧
        ∀ x, x ≠ c → x ≠ l → x ≠ p → heap t' !! x = heap t !! x.
Proof.
  intros Hsearch Hroot Hpc Hpl Hp Hcn Hln Hempty Hl Hr Hright.
  rewrite (remove_found_excise k i t (Some p) c cn Hsearch Hcn Hempty).
  rewrite decide_False by (by intros Heq; apply Hroot).
  assert (l ≠ c) as Hlc.
  { intros ->. rewrite Hcn in Hln. injection Hln as <-. by rewrite Hr in Hright. }
  set (h := set_ids c ∅ (heap t)).
  assert (h !! c = Some (Node (value cn) (left cn) (right cn) ∅)) as Hc'.
  { subst h. by apply lookup_set_ids. }
  assert (h !! l = Some ln) as Hl'.
  { subst h. by rewrite lookup_set_ids_ne. }
  assert (h !! p = Some pn) as Hp'.
  { subst h. by rewrite lookup_set_ids_ne. }
  unfold remove_inner, childCount. cbn [left right]. rewrite Hl, Hr. cbn [Nat.add].
  unfold fuel_of. cbn [rightmost]. rewrite Hl', Hright.
  rewrite (get_left_lookup h l _ Hl').
  set (h1 := set_right c (left ln) h).
  assert (h1 !! c = Some (Node (value cn) (Some l) (left ln) ∅)) as Hc1.
  { subst h1. rewrite (lookup_set_right _ _ _ _ Hc'). simpl. by rewrite Hl. }
  assert (h1 !! l = Some ln) as Hl1.
  { subst h1. by rewrite lookup_set_right_ne. }
  rewrite (get_right_lookup h1 c _ Hc1). cbn [right].
  set (h2 := set_right l (left ln) h1).
  assert (h2 !! c = Some (Node (value cn) (Some l) (left ln) ∅)) as Hc2.
  { subst h2. by rewrite lookup_set_right_ne. }
  assert (h2 !! l = Some (Node (value ln) (left ln) (left ln) (ids ln))) as Hl2.
  { subst h2. by rewrite (lookup_set_right _ _ _ _ Hl1). }
  rewrite (get_left_lookup h2 c _ Hc2). cbn [left].
  set (h3 := set_left l (Some l) h2).
  assert (h3 !! l = Some (Node (value ln) (Some l) (left ln) (ids ln))) as Hl3.
  { subst h3. by rewrite (lookup_set_left _ _ _ _ Hl2). }
  assert (h3 !! p = Some pn) as Hp3.
  { subst h3 h2 h1. rewrite lookup_set_left_ne, !lookup_set_right_ne; done. }
  unfold place. rewrite Hp3. eexists. split; [done|]. split; [done|].
  cbn [heap]. unfold relink. cbn [value]. split; [|split].
  - destruct (js_lt (value cn) (value pn));
      [by rewrite lookup_set_left_ne|by rewrite lookup_set_right_ne].
  - destruct (js_lt (value cn) (value pn));
      [by rewrite (lookup_set_left _ _ _ _ Hp3)|by rewrite (lookup_set_right _ _ _ _ Hp3)].
  - intros x Hxc Hxl Hxp.
    assert (h3 !! x = heap t !! x) as <-.
    { subst h3 h2 h1 h.
      rewrite lookup_set_left_ne, !lookup_set_right_ne, lookup_set_ids_ne; done. }
    destruct (js_lt (value cn) (value pn));
      [by rewrite lookup_set_left_ne|by rewrite lookup_set_right_ne].
Qed.

End InnerDefect.

Lemma remove_inner_defect {K : Type} `{StrictTotal K}
    (t : BinarySearchTree K) (k : K) (i : id) (c l r : loc) (cn ln : node K) :
  valid t → found_node k t = Some c → _root t ≠ Some c →
  heap t !! c = Some cn → ids cn ∖ {[ i ]} = ∅ →
  left cn = Some l → right cn = Some r →
  heap t !! l = Some ln → right ln = None →
  ∃ t' p pn,
    remove k i t = Returns t' ∧ _root t' = _root t ∧
    heap t !! p = Some pn ∧
    (if js_lt k (value pn) then left pn = Some c else right pn = Some c) ∧
    heap t' !! l = Some (Node (value ln) (Some l) (left ln) (ids ln)) ∧
    heap t' !! p =
      Some (if js_lt k (value pn)
            then Node (value pn) (Some l) (right pn) (ids pn)
            else Node (value pn) (left pn) (Some l) (ids pn)).
Proof.
  intros (T & Hrep & Hbst & Hne) Hfound Hroot Hcn Hempty Hl Hr Hln Hright.
  destruct (found_node_psearch k t T c cn Hrep Hfound Hcn)
    as (Hs & L & R & Hfind & Hnode).
  destruct (remove_search_found k t T c _ Hrep Hs) as (Hsearch & p0 & Hp0).
  pose proof Hrep as (HrootT & HrT & HndT).
  assert (ptr T ≠ Some c) as Hptr by (by rewrite <- HrootT).
  destruct (pparent_found k T c _ None HndT Hs Hptr) as (p & Hpp & HpT & HpN).
  rewrite Hpp in Hsearch.
  destruct (pparent_links k T c _ (heap t) None p HndT HrT Hs Hptr Hpp)
    as (pn & Hp & Hlink).
  assert (l ∈ plocs (pfind k T)) as HlN.
  { rewrite Hfind. rewrite Hnode in Hl. simpl in Hl.
    destruct L as [|l' ? ? ? ?]; [done|]. injection Hl as ->.
    simpl. rewrite !elem_of_app, !elem_of_cons. auto. }
  assert (c ∈ plocs (pfind k T)) as HcN.
  { rewrite Hfind. simpl. rewrite !elem_of_app, !elem_of_cons. auto. }
  destruct (remove_inner_left_child_heap t k i p c l pn cn ln r)
    as (t' & Hrem & Hroot' & Hl' & Hp' & _); try done.
  { by intros ->. }
  { by intros ->. }
  exists t', p, pn. split; [done|]. split; [done|]. split; [done|].
  split; [done|]. split; [done|].
  rewrite Hnode in Hp'. by simpl in Hp'.
Qed.

(** X14.  On a tree of the data model: when a node that is not the root has two
    children and its left child has no right child, [remove] of the
    node's last id returns with the parent linked to that left child in
    the place of the node, but the left child has become its own left
    child and its former left link its right link; the node's former right
    child is linked from neither. *)
Theorem remove_inner_links_left_child_to_itself {K : Type} `{StrictTotal K}
    (t : BinarySearchTree K) (k : K) (i : id) (c l r : loc) (cn ln : node K) :
  valid t → found_node k t = Some c → _root t ≠ Some c →
  heap t !! c = Some cn → ids cn ∖ {[ i ]} = ∅ →
  left cn = Some l → right cn = Some r →
  heap t !! l = Some ln → right ln = None →
  ∃ t' p pn,
    remove k i t = Returns t' ∧ _root t' = _root t ∧
    heap t !! p = Some pn ∧
    (if js_lt k (value pn) then left pn = Some c else right pn = Some c) ∧
    heap t' !! l = Some (Node (value ln) (Some l) (left ln) (ids ln)) ∧
    heap t' !! p =
      Some (if js_lt k (value pn)
            then Node (value pn) (Some l) (right pn) (ids pn)
            else Node (value pn) (left pn) (Some l) (ids pn)).
Proof. apply remove_inner_defect. Qed.

(** ** remove that leaves ids under the key *)
Section Shrink.
Context {K : Type} `{StrictTotal K}.
Implicit Types (h : gmap loc (node K)) (T L R N : ptree K) (t : BinarySearchTree K).

Lemma repr_inplace v N' T l s : ∀ h h',
  NoDup (plocs T) → repr h T → psearch v T = Some (l, s) →
  (∀ x, x ∈ plocs T → x ∉ plocs (pfind v T) → h' !! x = h !! x) →
  repr h' N' → ptr N' = Some l → repr h' (preplace v N' T).
Proof.
  induction T as [|l0 L0 IHL k0 s0 R0 IHR]; intros h h' Hnd Hr Hs Hsame HN' Hptr;
    [done|].
  simpl in Hnd. apply NoDup_app in Hnd as (HndL & Hdisj & HndR).
  apply NoDup_cons in HndR as [HlR HndR].
  assert (l0 ∉ plocs L0) as HlL.
  { intros Hin. apply (Hdisj l0 Hin). by left. }
  destruct Hr as (Hl0 & HL & HR).
  simpl in Hs, Hsame |- *.
  destruct (js_lt v k0) eqn:Hlt; [|destruct (js_gt v k0) eqn:Hgt]; [| |done].
  - assert (ptr (preplace v N' L0) = ptr L0) as HptrL.
    { destruct (decide (ptr L0 = Some l)) as [Hroot|Hroot].
      - destruct (psearch_at_root v L0 l s HndL Hs Hroot) as (_ & -> & _). congruence.
      - by apply (ptr_preplace v N' L0 l s). }
    cbn [repr]. split_and!.
    + rewrite Hsame, Hl0, HptrL; [done| |].
      * rewrite elem_of_app, elem_of_cons. auto.
      * by intros Hin%pfind_plocs.
    + apply (IHL h h'); try done. intros x Hx Hx'. apply Hsame; [|done].
      rewrite elem_of_app. auto.
    + apply (repr_frame h); [done|]. intros x Hx. apply Hsame.
      * rewrite elem_of_app, elem_of_cons. auto.
      * intros Hin%pfind_plocs. apply (Hdisj x Hin). by right.
  - assert (ptr (preplace v N' R0) = ptr R0) as HptrR.
    { destruct (decide (ptr R0 = Some l)) as [Hroot|Hroot].
      - destruct (psearch_at_root v R0 l s HndR Hs Hroot) as (_ & -> & _). congruence.
      - by apply (ptr_preplace v N' R0 l s). }
    cbn [repr]. split_and!.
    + rewrite Hsame, Hl0, HptrR; [done| |].
      * rewrite elem_of_app, elem_of_cons. auto.
      * by intros Hin%pfind_plocs.
    + apply (repr_frame h); [done|]. intros x Hx. apply Hsame.
      * rewrite elem_of_app. auto.
      * intros Hin%pfind_plocs. apply (Hdisj x Hx). by right.
    + apply (IHR h h'); try done. intros x Hx Hx'. apply Hsame; [|done].
      rewrite elem_of_app, elem_of_cons. auto.
Qed.

Lemma psearch_preplace_ids v T l s s' L R :
  psearch v T = Some (l, s) → pfind v T = Br l L v s R →
  psearch v (preplace v (Br l L v s' R) T) = Some (l, s') ∧
  ∀ v', v' ≠ v → psearch v' (preplace v (Br l L v s' R) T) = psearch v' T.
Proof.
  induction T as [|l0 L0 IHL k0 s0 R0 IHR]; [done|].
  cbn [psearch pfind preplace].
  destruct (js_lt v k0) eqn:Hlt; [|destruct (js_gt v k0) eqn:Hgt].
  - intros Hs Hf. destruct (IHL Hs Hf) as (Hsame & Hother).
    cbn [psearch]. rewrite Hlt. split; [done|].
    intros v' Hv'. by rewrite (Hother v' Hv').
  - intros Hs Hf. destruct (IHR Hs Hf) as (Hsame & Hother).
    cbn [psearch]. rewrite Hlt, Hgt. split; [done|].
    intros v' Hv'. by rewrite (Hother v' Hv').
  - intros _ Hf. injection Hf as -> -> -> -> ->.
    cbn [psearch]. rewrite Hlt, Hgt. split; [done|].
    intros v' Hv'. unfold js_gt in *.
    destruct (js_lt v' v) eqn:H1; [done|]. destruct (js_lt v v') eqn:H2; [done|].
    destruct Hv'. by apply lt_total.
Qed.

Lemma remove_keep_represents t T (k : K) i c s0 L R :
  represents t T → psearch k T = Some (c, s0) → pfind k T = Br c L k s0 R →
  s0 ∖ {[ i ]} ≠ ∅ →
  remove k i t = Returns (Tree (_root t) (set_ids c (s0 ∖ {[ i ]}) (heap t))) ∧
  represents (Tree (_root t) (set_ids c (s0 ∖ {[ i ]}) (heap t)))
    (preplace k (Br c L k (s0 ∖ {[ i ]}) R) T).
Proof.
  intros Hrep Hs Hfind Hleft.
  destruct (remove_search_found k t T c s0 Hrep Hs) as (Hsearch & p0 & Hp0).
  rewrite Hp0 in Hsearch.
  pose proof Hrep as (Hroot & Hr & Hnd).
  pose proof (pfind_repr k T _ Hr) as HrN. rewrite Hfind in HrN.
  pose proof HrN as (Hc & HL & HR).
  pose proof (pfind_NoDup k T Hnd) as HndN. rewrite Hfind in HndN.
  assert (c ∉ plocs L ∧ c ∉ plocs R) as (HcL & HcR).
  { simpl in HndN. apply NoDup_app in HndN as (_ & Hdisj & HndR).
    apply NoDup_cons in HndR as [HcR _]. split; [|done].
    intros Hin. apply (Hdisj c Hin). by left. }
  set (t' := Tree (_root t) (set_ids c (s0 ∖ {[i]}) (heap t))).
  set (N' := Br c L k (s0 ∖ {[i]}) R).
  assert (repr (heap t') N') as HrN'.
  { subst t' N'. cbn [heap repr]. split_and!.
    - by rewrite (lookup_set_ids _ _ _ _ Hc).
    - apply (repr_frame (heap t)); [done|]. intros x Hx.
      apply lookup_set_ids_ne. by intros ->.
    - apply (repr_frame (heap t)); [done|]. intros x Hx.
      apply lookup_set_ids_ne. by intros ->. }
  split.
  { rewrite (remove_found_keep k i t p0 c _ Hsearch Hc); done. }
  split; [|split].
  - subst t'. cbn [_root]. rewrite Hroot.
    destruct (decide (ptr T = Some c)) as [Hisroot|Hnotroot].
    + destruct (psearch_at_root k T c s0 Hnd Hs Hisroot) as (_ & -> & _). done.
    + symmetry. by apply (ptr_preplace k N' T c s0).
  - apply (repr_inplace k N' T c s0 (heap t)); try done.
    intros x Hx Hx'. subst t'. cbn [heap]. apply lookup_set_ids_ne.
    intros ->. apply Hx'. rewrite Hfind. simpl.
    rewrite elem_of_app, elem_of_cons. auto.
  - apply NoDup_preplace; [done|done|]. intros x Hx. by rewrite Hfind.
Qed.

(** After a removal that took the entry of [k] out of the listing,
    [k] is not found and every other key is found as before. *)
Lemma psearch_after_removal T T' (A B : list (K * gset id)) k s :
  bst T → bst T' →
  pitems T = A ++ (k, s) :: B → pitems T' = A ++ B →
  psearch k T' = None ∧
  ∀ k', k' ≠ k →
    snd <$> psearch k' T' = snd <$> psearch k' T.
Proof.
  intros Hbst Hbst' HT HT'.
  pose proof (ascending_NoDup _ (bst_ascending T Hbst)) as Hnd.
  rewrite <- pitems_keys, HT, fmap_app, fmap_cons in Hnd. simpl in Hnd.
  apply NoDup_app in Hnd as (_ & HkA & HkB). apply NoDup_cons in HkB as [HkB _].
  split.
  - apply psearch_absent. rewrite <- pitems_keys, HT', fmap_app, elem_of_app.
    intros [Hin|Hin]; [|done]. apply (HkA k Hin). by left.
  - intros k' Hk'.
    destruct (psearch k' T) as [[l s']|] eqn:Hs.
    + apply psearch_item in Hs. rewrite HT in Hs.
      assert ((k', s') ∈ pitems T') as Hin.
      { rewrite HT'. rewrite elem_of_app, elem_of_cons in Hs.
        rewrite elem_of_app. destruct Hs as [?|[[= -> ->]|?]]; [auto|done|auto]. }
      destruct (psearch_present T' k' s' Hbst' Hin) as (l' & ->). done.
    + destruct (psearch k' T') as [[l s']|] eqn:Hs'; [|done].
      apply psearch_item in Hs'. rewrite HT' in Hs'.
      assert ((k', s') ∈ pitems T) as Hin.
      { rewrite HT. rewrite elem_of_app in Hs'.
        rewrite elem_of_app, elem_of_cons. destruct Hs' as [?|?]; auto. }
      destruct (psearch_present T k' s' Hbst Hin) as (l' & Hs2).
      by rewrite Hs2 in Hs.
Qed.

End Shrink.

(** X11.  [remove] of an id when other ids stay under the key: the call
    returns, root, keys and links of every node are as before, the tree
    is again one of the data model, [equals] at the key gives the former
    set without the id, [contains] and [equals] at every other key
    answer as before, and a second [remove] of the same id changes
    nothing. *)
Theorem remove_id_keeps_node {K : Type} `{StrictTotal K}
    (t : BinarySearchTree K) (k : K) (i : id) (s : gset id) :
  valid t → equals k t = Some s → s ∖ {[ i ]} ≠ ∅ →
  ∃ t', remove k i t = Returns t' ∧ valid t' ∧
        structure t' = structure t ∧
        contains k t' = Some true ∧
        equals k t' = Some (s ∖ {[ i ]}) ∧
        (∀ k', k' ≠ k →
           equals k' t' = equals k' t ∧ contains k' t' = contains k' t) ∧
        remove k i t' = Returns t'.
Proof.
  intros (T & Hrep & Hbst & Hne) Heq Hleft.
  rewrite (equals_spec k t T Hrep) in Heq. injection Heq as Heq.
  destruct (psearch k T) as [[c s0]|] eqn:Hs; simpl in Heq; subst s.
  2:{ destruct Hleft. set_solver. }
  destruct (pfind_key k T c s0 Hs) as (L & R & Hfind).
  destruct (remove_keep_represents t T k i c s0 L R Hrep Hs Hfind Hleft)
    as (Hrem & Hrep').
  set (t' := Tree (_root t) (set_ids c (s0 ∖ {[i]}) (heap t))) in *.
  destruct (psearch_preplace_ids k T c s0 (s0 ∖ {[i]}) L R Hs Hfind) as (Hsame & Hother).
  destruct (pitems_preplace k T c s0 Hs) as (A & B & HA & HB).
  specialize (HB (Br c L k (s0 ∖ {[i]}) R)). rewrite Hfind in HA.
  cbn [pitems] in HA, HB.
  exists t'. split; [done|]. split; [|split; [|split; [|split; [|split]]]].
  - exists (preplace k (Br c L k (s0 ∖ {[i]}) R) T). split; [done|]. split.
    + apply bst_of_ascending. apply bst_ascending in Hbst.
      rewrite <- pitems_keys in Hbst |- *. rewrite HA in Hbst. rewrite HB.
      by rewrite !fmap_app, !fmap_cons in Hbst |- *.
    + intros k' s' Hin. rewrite HB in Hin.
      rewrite !elem_of_app, elem_of_cons in Hin.
      destruct Hin as [Hin|[[Hin|[[= -> ->]|Hin]]|Hin]]; [| |done| |].
      all: apply (Hne k' s'); rewrite HA;
        rewrite !elem_of_app, elem_of_cons; auto.
  - subst t'. rewrite structure_set_ids. by destruct t.
  - by rewrite (contains_spec k t' _ Hrep'), Hsame.
  - by rewrite (equals_spec k t' _ Hrep'), Hsame.
  - intros k' Hk'.
    rewrite (equals_spec k' t' _ Hrep'), (contains_spec k' t' _ Hrep').
    rewrite (equals_spec k' t T Hrep), (contains_spec k' t T Hrep).
    by rewrite (Hother k' Hk').
  - apply (remove_id_absent k i t' _ c (s0 ∖ {[i]}) Hrep' Hsame); [set_solver|done].
Qed.

(** X12.  [remove] of the last id under a key, when the node of that key does
    not have both two children and a left child without a right child:
    the call returns, the tree is again one of the data model, and
    [toArray] lists what it listed before without the entry of that key.
    Afterwards [contains] is false and [equals] empty at that key, both
    answer as before at every other key, and a second [remove] of the
    same key and id changes nothing. *)
Theorem remove_last_id_excises_node {K : Type} `{StrictTotal K}
    (t : BinarySearchTree K) (k : K) (i : id) (c : loc) (cn : node K) :
  valid t → found_node k t = Some c → heap t !! c = Some cn →
  ids cn ∖ {[ i ]} = ∅ → ¬ left_child_is_rightmost (heap t) cn →
  ∃ t' A B,
    remove k i t = Returns t' ∧ valid t' ∧
    toArray t = Some (A ++ (k, ids cn) :: B) ∧
    toArray t' = Some (A ++ B) ∧
    contains k t' = Some false ∧ equals k t' = Some ∅ ∧
    (∀ k', k' ≠ k →
       equals k' t' = equals k' t ∧ contains k' t' = contains k' t) ∧
    remove k i t' = Returns t'.
Proof.
  intros (T & Hrep & Hbst & Hne) Hfound Hcn Hempty Hshape.
  destruct (found_node_psearch k t T c cn Hrep Hfound Hcn)
    as (Hs & L & R & Hfind & Hnode).
  destruct (pexcise (pfind k T)) as [N'|] eqn:Hex.
  2:{ rewrite Hfind in Hex.
      destruct (pexcise_None _ _ _ _ _ Hex) as (ll & LL & kl & sl & lr & -> & HR).
      destruct Hshape. exists ll, lr, (Node kl (ptr LL) None sl).
      rewrite Hnode. simpl. split; [done|]. split; [done|]. split; [|done].
      destruct Hrep as (_ & Hr & _).
      pose proof (pfind_repr k T _ Hr) as HrN. rewrite Hfind in HrN.
      by destruct HrN as (_ & (Hll & _) & _). }
  destruct (remove_last_id k i t T c (ids cn) N' Hrep Hs Hempty Hex)
    as (t' & Hrem & Hrep').
  destruct (pitems_preplace k T c (ids cn) Hs) as (A & B & HA & HB).
  specialize (HB N'). rewrite Hfind in HA, Hex.
  rewrite (pexcise_items _ _ _ _ _ _ Hex) in HB. cbn [pitems] in HA.
  exists t', (A ++ pitems L), (pitems R ++ B).
  assert (pitems T = (A ++ pitems L) ++ (k, ids cn) :: pitems R ++ B) as HT.
  { rewrite HA. by rewrite <- !app_assoc. }
  assert (pitems (preplace k N' T) = (A ++ pitems L) ++ pitems R ++ B) as HT'.
  { rewrite HB. by rewrite <- !app_assoc. }
  pose proof (valid_after_removal t' T _ _ _ k (ids cn) Hrep' Hbst Hne HT HT')
    as Hvalid'.
  assert (bst (preplace k N' T)) as Hbst'.
  { apply bst_of_ascending. rewrite <- pitems_keys, HT', fmap_app.
    apply (ascending_remove_middle _ _ k).
    apply bst_ascending in Hbst. by rewrite <- pitems_keys, HT, fmap_app in Hbst. }
  destruct (psearch_after_removal T _ _ _ k (ids cn) Hbst Hbst' HT HT')
    as (Hgone & Hother).
  split; [done|]. split; [done|].
  split; [by rewrite (toArray_spec t T Hrep), HT|].
  split; [by rewrite (toArray_spec t' _ Hrep'), HT'|].
  split; [by rewrite (contains_spec k t' _ Hrep'), Hgone|].
  split; [by rewrite (equals_spec k t' _ Hrep'), Hgone|].
  split; [|by apply (remove_not_found k i t' _ Hrep')].
  intros k' Hk'. specialize (Hother k' Hk').
  rewrite (equals_spec k' t' _ Hrep'), (contains_spec k' t' _ Hrep').
  rewrite (equals_spec k' t T Hrep), (contains_spec k' t T Hrep).
  destruct (psearch k' T) as [[l1 s1]|], (psearch k' (preplace k N' T)) as [[l2 s2]|];
    simpl in Hother |- *; try done.
Qed.

(** X16.  [remove] on a tree of the data model returns, except in one case:
    the key is at the root, the id is the last one there, and the root
    has two children of which the left one has no right child; then it
    throws. *)
Theorem remove_returns_unless_root_shape {K : Type} `{StrictTotal K}
    (t : BinarySearchTree K) (k : K) (i : id) :
  valid t →
  (∃ t', remove k i t = Returns t') ∨
  (∃ c cn,
     _root t = Some c ∧ found_node k t = Some c ∧ heap t !! c = Some cn ∧
     ids cn ∖ {[ i ]} = ∅ ∧ left_child_is_rightmost (heap t) cn ∧
     remove k i t = TypeError (Tree (Some c) (set_ids c ∅ (heap t)))).
Proof.
  intros Hvalid. pose proof Hvalid as (T & Hrep & Hbst & Hne).
  destruct (psearch k T) as [[c s]|] eqn:Hs.
  2:{ left. exists t. by apply (remove_not_found k i t T). }
  destruct (pfind_key k T c s Hs) as (L & R & Hfind).
  pose proof Hrep as (Hroot & Hr & Hnd).
  pose proof (pfind_repr k T _ Hr) as HrN. rewrite Hfind in HrN.
  pose proof HrN as (Hc & HL & HR).
  assert (found_node k t = Some c) as Hfound.
  { by rewrite (found_node_spec k t T Hrep), Hs. }
  destruct (decide (s ∖ {[i]} = ∅)) as [Hempty|Hleft].
  2:{ left. eexists. by apply (remove_keep_represents t T k i c s L R). }
  destruct (pexcise (pfind k T)) as [N'|] eqn:Hex.
  { left. destruct (remove_last_id k i t T c s N' Hrep Hs Hempty Hex) as (t' & Hrem & _).
    by exists t'. }
  rewrite Hfind in Hex.
  destruct (pexcise_None _ _ _ _ _ Hex) as (ll & LL & kl & sl & lr & -> & HptrR).
  destruct HL as (Hll & _).
  destruct (decide (_root t = Some c)) as [Hisroot|Hnotroot].
  - right. exists c, (Node k (Some ll) (ptr R) s).
    split; [done|]. split; [done|]. split; [done|]. split; [done|].
    assert (left_child_is_rightmost (heap t) (Node k (Some ll) (ptr R) s)) as Hshape.
    { exists ll, lr, (Node kl (ptr LL) None sl). by rewrite HptrR. }
    split; [done|].
    by apply (remove_root_defect t k i c (Node k (Some ll) (ptr R) s)).
  - left.
    destruct (remove_inner_defect t k i c ll lr (Node k (Some ll) (ptr R) s)
                (Node kl (ptr LL) None sl)) as (t' & _ & _ & Hrem & _); try done.
    by exists t'.
Qed.

Lemma remove_returns_unless_root_shape_witness :
  valid tree5 ∧
  ((∃ t', remove 5 "a" tree5 = Returns t') ∨
   (∃ c cn,
      _root tree5 = Some c ∧ found_node 5 tree5 = Some c ∧
      heap tree5 !! c = Some cn ∧
      ids cn ∖ {[ "a" ]} = ∅ ∧ left_child_is_rightmost (heap tree5) cn ∧
      remove 5 "a" tree5 = TypeError (Tree (Some c) (set_ids c ∅ (heap tree5))))).
Proof.
  split; [exact tree5_valid|].
  exact (remove_returns_unless_root_shape tree5 5 "a" tree5_valid).
Defined.

(** ** add followed by remove *)
Section RoundTrip.
Context {K : Type} `{StrictTotal K}.
Implicit Types (h : gmap loc (node K)) (T L R N : ptree K) (t : BinarySearchTree K).

Lemma pinsert_as_preplace nd v i T c s L R :
  psearch v T = Some (c, s) → pfind v T = Br c L v s R →
  pinsert nd v i T = preplace v (Br c L v (set_id i s) R) T.
Proof.
  induction T as [|l0 L0 IHL k0 s0 R0 IHR]; [done|].
  cbn [psearch pfind pinsert preplace].
  destruct (js_lt v k0); [|destruct (js_gt v k0)].
  - intros Hs Hf. by rewrite (IHL Hs Hf).
  - intros Hs Hf. by rewrite (IHR Hs Hf).
  - intros _ Hf. by injection Hf as -> -> -> -> ->.
Qed.

Lemma pfind_preplace v T c s L R N' :
  psearch v T = Some (c, s) → pfind v T = Br c L v s R →
  (∃ L' s' R', N' = Br c L' v s' R') →
  pfind v (preplace v N' T) = N' ∧
  ∀ N'', preplace v N'' (preplace v N' T) = preplace v N'' T.
Proof.
  intros Hs Hf (L' & s' & R' & ->). revert Hs Hf.
  induction T as [|l0 L0 IHL k0 s0 R0 IHR]; [done|].
  cbn [psearch pfind preplace].
  destruct (js_lt v k0) eqn:Hlt; [|destruct (js_gt v k0) eqn:Hgt].
  - intros Hs Hf. destruct (IHL Hs Hf) as (Hfind & Hrep).
    cbn [pfind preplace]. rewrite Hlt. split; [done|].
    intros N''. by rewrite Hrep.
  - intros Hs Hf. destruct (IHR Hs Hf) as (Hfind & Hrep).
    cbn [pfind preplace]. rewrite Hlt, Hgt. split; [done|].
    intros N''. by rewrite Hrep.
  - intros _ Hf. injection Hf as -> -> -> -> ->.
    cbn [pfind preplace]. by rewrite Hlt, Hgt.
Qed.

Lemma preplace_self v T : preplace v (pfind v T) T = T.
Proof.
  induction T as [|l0 L0 IHL k0 s0 R0 IHR]; [done|].
  cbn [pfind preplace].
  destruct (js_lt v k0); [by rewrite IHL|]. destruct (js_gt v k0); [by rewrite IHR|done].
Qed.

Lemma add_remove_represents (k : K) i t T :
  represents t T → i ∉ from_option snd ∅ (psearch k T) → ids_nonempty T →
  ∃ t1 t2, add k i t = Returns t1 ∧ remove k i t1 = Returns t2 ∧ represents t2 T.
Proof.
  intros Hrep Hi Hne.
  set (nd := fresh (dom (heap t))).
  assert (nd ∉ plocs T) as Hfresh.
  { intros Hin. apply (is_fresh (dom (heap t))).
    destruct Hrep as (_ & Hr & _). by eapply repr_dom. }
  assert (NoDup (plocs T)) as HndT by apply Hrep.
  destruct (add_spec k i t T Hrep) as (t1 & Hadd & Hrep1). fold nd in Hrep1.
  exists t1.
  destruct (psearch k T) as [[c s]|] eqn:Hs; simpl in Hi.
  - destruct (pfind_key k T c s Hs) as (L & R & Hfind).
    rewrite (pinsert_as_preplace nd k i T c s L R Hs Hfind) in Hrep1.
    destruct (psearch_preplace_ids k T c s (set_id i s) L R Hs Hfind) as (Hs1 & _).
    destruct (pfind_preplace k T c s L R (Br c L k (set_id i s) R) Hs Hfind)
      as (Hfind1 & Hrepl); [by eexists _, _, _|].
    assert (s ≠ ∅) as Hs_ne.
    { apply (Hne k s). by eapply psearch_item. }
    pose proof (set_id_difference i s Hi) as Hback.
    destruct (remove_keep_represents t1 _ k i c (set_id i s) L R Hrep1 Hs1 Hfind1)
      as (Hrem & Hrep2); [by rewrite Hback|].
    eexists. split; [done|]. split; [exact Hrem|].
    rewrite Hrepl in Hrep2. rewrite Hback in Hrep2 |- *.
    rewrite <- Hfind, preplace_self in Hrep2. done.
  - rewrite pinsert_absent in Hrep1 by done.
    destruct (remove_excise nd k i (set_id i ∅) T t1 (lt_irrefl k) Hs Hfresh HndT Hrep1)
      as (t2 & Hrem & Hrep2); [by apply set_id_difference|].
    by exists t2.
Qed.

End RoundTrip.

(** X17.  [add(k, i)] followed by [remove(k, i)], when [i] was not among the
    ids of [k]: both calls return and the tree is the one before the two
    calls, with the same root and the same node at every reachable
    address; so [toArray] returns what it returned before. *)
Theorem add_then_remove_restores {K : Type} `{StrictTotal K}
    (t : BinarySearchTree K) (k : K) (i : id) (s : gset id) :
  valid t → equals k t = Some s → i ∉ s →
  ∃ t1 t2,
    add k i t = Returns t1 ∧ remove k i t1 = Returns t2 ∧
    same_tree t t2 ∧ valid t2 ∧ toArray t2 = toArray t.
Proof.
  intros (T & Hrep & Hbst & Hne) Heq Hi.
  rewrite (equals_spec k t T Hrep) in Heq. injection Heq as <-.
  destruct (add_remove_represents k i t T Hrep Hi Hne) as (t1 & t2 & Hadd & Hrem & Hrep2).
  exists t1, t2. split; [done|]. split; [done|].
  split; [by exists T|]. split; [by exists T|].
  by rewrite (toArray_spec t2 T Hrep2), (toArray_spec t T Hrep).
Qed.

Lemma add_then_remove_restores_witness :
  valid tree5 ∧ equals 5 tree5 = Some {[ "a" ]} ∧ "b" ∉ ({[ "a" ]} : gset id) ∧
  ∃ t1 t2,
    add 5 "b" tree5 = Returns t1 ∧ remove 5 "b" t1 = Returns t2 ∧
    same_tree tree5 t2 ∧ valid t2 ∧ toArray t2 = toArray tree5.
Proof.
  assert ("b" ∉ ({[ "a" ]} : gset id)) as Hb.
  { intros Hin. apply elem_of_singleton in Hin. discriminate Hin. }
  split; [exact tree5_valid|]. split; [reflexivity|]. split; [exact Hb|].
  exact (add_then_remove_restores tree5 5 "b" _ tree5_valid eq_refl Hb).
Defined.

(** ** Instances on built trees *)

Lemma built_valid (ops : list (Z * id)) :
  Forall (λ op, op.2 ≠ "__proto__"%string) ops → valid (built ops).
Proof.
  intros Hops. unfold built.
  destruct (adds_valid ops new_tree Hops new_tree_valid) as (t & -> & Hv). done.
Qed.

Lemma tree_two_children_valid : valid tree_two_children.
Proof. apply built_valid. no_proto. Qed.

Lemma tree_inner_538_valid : valid tree_inner_538.
Proof. apply built_valid. no_proto. Qed.

Lemma tree_5ab_valid : valid (built [(5, "a"); (5, "b")]).
Proof. apply built_valid. no_proto. Qed.

Lemma remove_id_keeps_node_witness :
  valid (built [(5, "a"); (5, "b")]) ∧
  equals 5 (built [(5, "a"); (5, "b")]) = Some {[ "b"; "a" ]} ∧
  ({[ "b"; "a" ]} : gset id) ∖ {[ "a" ]} ≠ ∅ ∧
  ∃ t', remove 5 "a" (built [(5, "a"); (5, "b")]) = Returns t' ∧ valid t' ∧
        structure t' = structure (built [(5, "a"); (5, "b")]) ∧
        contains 5 t' = Some true ∧
        equals 5 t' = Some (({[ "b"; "a" ]} : gset id) ∖ {[ "a" ]}) ∧
        (∀ k', k' ≠ 5 →
           equals k' t' = equals k' (built [(5, "a"); (5, "b")]) ∧
           contains k' t' = contains k' (built [(5, "a"); (5, "b")])) ∧
        remove 5 "a" t' = Returns t'.
Proof.
  assert (({[ "b"; "a" ]} : gset id) ∖ {[ "a" ]} ≠ ∅) as Hleft.
  { intros Hempty.
    assert ("b" ∈ ({[ "b"; "a" ]} : gset id) ∖ {[ "a" ]}) as Hb.
    { apply elem_of_difference. split.
      - apply elem_of_union_l. by apply elem_of_singleton.
      - intros Hin. apply elem_of_singleton in Hin. discriminate Hin. }
    rewrite Hempty in Hb. by apply not_elem_of_empty in Hb. }
  split; [exact tree_5ab_valid|]. split; [vm_compute; reflexivity|].
  split; [exact Hleft|].
  exact (remove_id_keeps_node (built [(5, "a"); (5, "b")]) 5 "a" _
           tree_5ab_valid eq_refl Hleft).
Defined.

Lemma remove_last_id_excises_node_witness :
  valid tree_two_children ∧
  found_node 5 tree_two_children = Some 1%positive ∧
  heap tree_two_children !! 1%positive =
    Some (Node 5 (Some 2%positive) (Some 6%positive) {[ "e" ]}) ∧
  ({[ "e" ]} : gset id) ∖ {[ "e" ]} = ∅ ∧
  ¬ left_child_is_rightmost (heap tree_two_children)
      (Node 5 (Some 2%positive) (Some 6%positive) {[ "e" ]}) ∧
  ∃ t' A B,
    remove 5 "e" tree_two_children = Returns t' ∧ valid t' ∧
    toArray tree_two_children = Some (A ++ (5, {[ "e" ]}) :: B) ∧
    toArray t' = Some (A ++ B) ∧
    contains 5 t' = Some false ∧ equals 5 t' = Some ∅ ∧
    (∀ k', k' ≠ 5 →
       equals k' t' = equals k' tree_two_children ∧
       contains k' t' = contains k' tree_two_children) ∧
    remove 5 "e" t' = Returns t'.
Proof.
  assert (heap tree_two_children !! 1%positive =
    Some (Node 5 (Some 2%positive) (Some 6%positive) {[ "e" ]})) as Hcn
    by (vm_compute; reflexivity).
  assert (({[ "e" ]} : gset id) ∖ {[ "e" ]} = ∅) as Hempty
    by (vm_compute; reflexivity).
  assert (found_node 5 tree_two_children = Some 1%positive) as Hfound
    by (vm_compute; reflexivity).
  assert (¬ left_child_is_rightmost (heap tree_two_children)
      (Node 5 (Some 2%positive) (Some 6%positive) {[ "e" ]})) as Hshape.
  { intros (l & r & ln & Hl & _ & Hln & Hright). simpl in Hl.
    injection Hl as <-. vm_compute in Hln. injection Hln as <-.
    discriminate Hright. }
  split; [exact tree_two_children_valid|]. split; [exact Hfound|]. split; [exact Hcn|].
  split; [exact Hempty|]. split; [exact Hshape|].
  exact (remove_last_id_excises_node tree_two_children 5 "e" 1%positive _
           tree_two_children_valid Hfound Hcn Hempty Hshape).
Defined.

Lemma remove_root_throws_witness :
  found_node 5 tree_root_538 = Some 1%positive ∧
  _root tree_root_538 = Some 1%positive ∧
  heap tree_root_538 !! 1%positive =
    Some (Node 5 (Some 2%positive) (Some 3%positive) {[ "a" ]}) ∧
  ({[ "a" ]} : gset id) ∖ {[ "a" ]} = ∅ ∧
  left_child_is_rightmost (heap tree_root_538)
    (Node 5 (Some 2%positive) (Some 3%positive) {[ "a" ]}) ∧
  remove 5 "a" tree_root_538 =
    TypeError (Tree (Some 1%positive) (set_ids 1%positive ∅ (heap tree_root_538))).
Proof.
  assert (heap tree_root_538 !! 1%positive =
    Some (Node 5 (Some 2%positive) (Some 3%positive) {[ "a" ]})) as Hcn
    by (vm_compute; reflexivity).
  assert (({[ "a" ]} : gset id) ∖ {[ "a" ]} = ∅) as Hempty
    by (vm_compute; reflexivity).
  assert (found_node 5 tree_root_538 = Some 1%positive) as Hfound
    by (vm_compute; reflexivity).
  assert (_root tree_root_538 = Some 1%positive) as Hroot
    by (vm_compute; reflexivity).
  assert (left_child_is_rightmost (heap tree_root_538)
    (Node 5 (Some 2%positive) (Some 3%positive) {[ "a" ]})) as Hshape.
  { exists 2%positive, 3%positive, (Node 3 None None {[ "b" ]}).
    split; [reflexivity|]. split; [reflexivity|].
    split; [vm_compute; reflexivity|reflexivity]. }
  split; [exact Hfound|]. split; [exact Hroot|]. split; [exact Hcn|].
  split; [exact Hempty|]. split; [exact Hshape|].
  exact (remove_root_throws_on_left_child_without_right tree_root_538 5 "a"
           1%positive _ Hfound Hroot Hcn Hempty Hshape).
Defined.

Lemma remove_inner_links_witness :
  valid tree_inner_538 ∧
  found_node 5 tree_inner_538 = Some 2%positive ∧
  _root tree_inner_538 ≠ Some 2%positive ∧
  heap tree_inner_538 !! 2%positive =
    Some (Node 5 (Some 3%positive) (Some 4%positive) {[ "b" ]}) ∧
  ({[ "b" ]} : gset id) ∖ {[ "b" ]} = ∅ ∧
  heap tree_inner_538 !! 3%positive = Some (Node 3 None None {[ "c" ]}) ∧
  ∃ t' p pn,
    remove 5 "b" tree_inner_538 = Returns t' ∧
    _root t' = _root tree_inner_538 ∧
    heap tree_inner_538 !! p = Some pn ∧
    (if js_lt 5 (value pn) then left pn = Some 2%positive
     else right pn = Some 2%positive) ∧
    heap t' !! 3%positive = Some (Node 3 (Some 3%positive) None {[ "c" ]}) ∧
    heap t' !! p =
      Some (if js_lt 5 (value pn)
            then Node (value pn) (Some 3%positive) (right pn) (ids pn)
            else Node (value pn) (left pn) (Some 3%positive) (ids pn)).
Proof.
  assert (heap tree_inner_538 !! 2%positive =
    Some (Node 5 (Some 3%positive) (Some 4%positive) {[ "b" ]})) as Hcn
    by (vm_compute; reflexivity).
  assert (heap tree_inner_538 !! 3%positive = Some (Node 3 None None {[ "c" ]}))
    as Hln by (vm_compute; reflexivity).
  assert (({[ "b" ]} : gset id) ∖ {[ "b" ]} = ∅) as Hempty
    by (vm_compute; reflexivity).
  assert (found_node 5 tree_inner_538 = Some 2%positive) as Hfound
    by (vm_compute; reflexivity).
  assert (_root tree_inner_538 ≠ Some 2%positive) as Hroot
    by (vm_compute; discriminate).
  split; [exact tree_inner_538_valid|]. split; [exact Hfound|]. split; [exact Hroot|].
  split; [exact Hcn|]. split; [exact Hempty|]. split; [exact Hln|].
  exact (remove_inner_links_left_child_to_itself tree_inner_538 5 "b"
           2%positive 3%positive 4%positive _ _
           tree_inner_538_valid Hfound Hroot Hcn Hempty eq_refl eq_refl Hln eq_refl).
Defined.

(** ** The listing is a function of the lookups *)
Section Listing.
Context {K : Type} `{StrictTotal K}.
Implicit Types (T : ptree K) (t : BinarySearchTree K).

Lemma sorted_by_key (l : list (K * gset id)) :
  ascending l.*1 → StronglySorted (λ a b, js_lt a.1 b.1 = true) l.
Proof.
  induction l as [|x l IH]; [constructor|].
  rewrite fmap_cons. intros [Hx Hl]%StronglySorted_cons.
  constructor; [by apply IH|].
  rewrite Forall_fmap in Hx. done.
Qed.

Lemma pitems_determined T1 T2 :
  bst T1 → bst T2 →
  (∀ k, is_Some (psearch k T1) ↔ is_Some (psearch k T2)) →
  (∀ k, from_option snd ∅ (psearch k T1) = from_option snd ∅ (psearch k T2)) →
  pitems T1 = pitems T2.
Proof.
  intros Hb1 Hb2 Hkeys Heq.
  assert (∀ Ta Tb, bst Ta →
    (∀ k, is_Some (psearch k Ta) → is_Some (psearch k Tb)) →
    (∀ k, from_option snd ∅ (psearch k Ta) = from_option snd ∅ (psearch k Tb)) →
    ∀ x, x ∈ pitems Ta → x ∈ pitems Tb) as Hincl.
  { intros Ta Tb Hba Hka Hab [k s] Hin.
    destruct (psearch_present Ta k s Hba Hin) as (l & Hs).
    specialize (Hab k). specialize (Hka k). rewrite Hs in Hab, Hka. simpl in Hab.
    destruct Hka as [[l' s'] Hs']; [by eexists|].
    rewrite Hs' in Hab. simpl in Hab. subst s'. by eapply psearch_item. }
  pose proof (bst_ascending T1 Hb1) as Ha1.
  pose proof (bst_ascending T2 Hb2) as Ha2.
  rewrite <- pitems_keys in Ha1, Ha2.
  apply (StronglySorted_unique_strong (λ a b, js_lt a.1 b.1 = true)).
  - intros x1 x2 _ _ H12 H21. by rewrite (lt_asym _ _ H12) in H21.
  - by apply sorted_by_key.
  - by apply sorted_by_key.
  - apply NoDup_Permutation.
    + apply (NoDup_fmap_1 fst). by apply ascending_NoDup.
    + apply (NoDup_fmap_1 fst). by apply ascending_NoDup.
    + intros x. split.
      * apply Hincl; [done| |done]. intros k. apply Hkeys.
      * apply Hincl; [done| |]; intros k; [apply Hkeys|by rewrite Heq].
Qed.

End Listing.

(** ** The nodes that a traversal visits *)
Section Reach.
Context {K : Type} `{Compare K}.
Implicit Types (h : gmap loc (node K)) (T : ptree K) (t : BinarySearchTree K).

Lemma ptr_plocs T l : ptr T = Some l → l ∈ plocs T.
Proof.
  destruct T as [|l0 L k s R]; [done|]. intros [= ->]. simpl.
  rewrite elem_of_app, elem_of_cons. auto.
Qed.

Lemma plocs_pnodes h T :
  repr h T → Forall2 (λ l n, h !! l = Some n) (plocs T) (pnodes T).
Proof.
  induction T as [|l L IHL k s R IHR]; simpl; [constructor|].
  intros (Hl & HL & HR). apply Forall2_app; [by apply IHL|].
  constructor; [done|by apply IHR].
Qed.

Lemma repr_links h T l n :
  repr h T → l ∈ plocs T → h !! l = Some n →
  ∀ c, left n = Some c ∨ right n = Some c → c ∈ plocs T.
Proof.
  induction T as [|l0 L IHL k s R IHR]; simpl.
  - intros _ Hin. by apply elem_of_nil in Hin.
  - intros (Hl0 & HL & HR). rewrite elem_of_app, elem_of_cons.
    intros [Hin|[->|Hin]] Hl c Hc; rewrite elem_of_app, elem_of_cons.
    + left. by apply (IHL HL Hin Hl).
    + rewrite Hl0 in Hl. injection Hl as <-. simpl in Hc.
      destruct Hc as [Hc|Hc]; apply ptr_plocs in Hc; auto.
    + right; right. by apply (IHR HR Hin Hl).
Qed.

Lemma reachable_plocs t T l : represents t T → reachable t l ↔ l ∈ plocs T.
Proof.
  intros (Hroot & Hr & _). split.
  - induction 1 as [r Hr0|l n c _ IH Hl Hc|l n c _ IH Hl Hc].
    + apply ptr_plocs. by rewrite <- Hroot.
    + apply (repr_links _ T l n Hr IH Hl). by left.
    + apply (repr_links _ T l n Hr IH Hl). by right.
  - assert (∀ T', repr (heap t) T' → (∀ r, ptr T' = Some r → reachable t r) →
              ∀ x, x ∈ plocs T' → reachable t x) as Hsub.
    { induction T' as [|l0 L IHL k s R IHR]; simpl.
      - intros _ _ x Hin. by apply elem_of_nil in Hin.
      - intros (Hl0 & HL & HR) Htop x. rewrite elem_of_app, elem_of_cons.
        assert (reachable t l0) as Hl0r by by apply Htop.
        intros [Hin|[->|Hin]]; [|done|].
        + apply (IHL HL); [|done]. intros r Hptr.
          by apply (reach_left t l0 _ r Hl0r Hl0).
        + apply (IHR HR); [|done]. intros r Hptr.
          by apply (reach_right t l0 _ r Hl0r Hl0). }
    apply (Hsub T Hr). intros r Hptr. apply reach_root. by rewrite Hroot.
Qed.

End Reach.

(** X2.  [traverse] on a tree of the data model is a fold over the node
    objects of the tree, each one once, in ascending order of their
    keys: whatever the visitor, it is run on these nodes in this order,
    and [toArray] lists them. *)
Theorem traverse_is_fold_in_key_order {K : Type} `{StrictTotal K}
    (t : BinarySearchTree K) :
  valid t →
  ∃ (locs : list loc) (nodes : list (node K)),
    NoDup locs ∧ (∀ l, l ∈ locs ↔ reachable t l) ∧
    Forall2 (λ l n, heap t !! l = Some n) locs nodes ∧
    ascending (value <$> nodes) ∧
    toArray t = Some ((λ n, (value n, ids n)) <$> nodes) ∧
    size_ t = Some (length nodes) ∧
    ∀ (A : Type) (process : node K → A → A) (init : A),
      traverse process init t = Some (foldl (λ a n, process n a) init nodes).
Proof.
  intros (T & Hrep & Hbst & Hne). exists (plocs T), (pnodes T).
  split; [apply Hrep|].
  split; [intros l; symmetry; by apply reachable_plocs|].
  split; [apply plocs_pnodes, Hrep|]. split.
  { assert (value <$> pnodes T = pkeys T) as ->.
    { rewrite <- pitems_keys, <- pnodes_items, <- list_fmap_compose. done. }
    by apply bst_ascending. }
  split; [by rewrite pnodes_items; apply toArray_spec|].
  split.
  { rewrite (size_spec t T Hrep). f_equal.
    by rewrite <- pnodes_items, length_fmap. }
  intros A process init. destruct Hrep as (Hroot & Hr & Hnd).
  unfold traverse. rewrite Hroot. apply inOrder_spec; eauto using fuel_enough.
Qed.

Lemma traverse_is_fold_in_key_order_witness :
  valid tree_two_children ∧
  ∃ (locs : list loc) (nodes : list (node Z)),
    NoDup locs ∧ (∀ l, l ∈ locs ↔ reachable tree_two_children l) ∧
    Forall2 (λ l n, heap tree_two_children !! l = Some n) locs nodes ∧
    ascending (value <$> nodes) ∧
    toArray tree_two_children = Some ((λ n, (value n, ids n)) <$> nodes) ∧
    size_ tree_two_children = Some (length nodes) ∧
    ∀ (A : Type) (process : node Z → A → A) (init : A),
      traverse process init tree_two_children =
        Some (foldl (λ a n, process n a) init nodes).
Proof.
  split; [exact tree_two_children_valid|].
  exact (traverse_is_fold_in_key_order tree_two_children tree_two_children_valid).
Defined.

(** X10.  Two runs of [add] calls that add the same pairs of key and id, in
    whatever order and however often, end in trees on which [toArray]
    returns the same listing. *)
Theorem adds_order_is_irrelevant {K : Type} `{StrictTotal K}
    (ops ops' : list (K * id)) :
  (∀ p, p ∈ ops ↔ p ∈ ops') →
  ∃ t t' arr,
    adds ops new_tree = Returns t ∧ adds ops' new_tree = Returns t' ∧
    toArray t = Some arr ∧ toArray t' = Some arr.
Proof.
  intros Hsame.
  destruct (adds_lookup ops) as (t & T & Hrun & Hrep & Hbst & Hlook).
  destruct (adds_lookup ops') as (t' & T' & Hrun' & Hrep' & Hbst' & Hlook').
  exists t, t', (pitems T). split; [done|]. split; [done|].
  split; [by apply toArray_spec|].
  rewrite (toArray_spec t' T' Hrep'). f_equal.
  assert (∀ k, k ∈ ops.*1 ↔ k ∈ ops'.*1) as Hkeys.
  { intros k. rewrite !list_elem_of_fmap. split.
    - intros (p & -> & Hp). exists p. split; [done|]. by apply Hsame.
    - intros (p & -> & Hp). exists p. split; [done|]. by apply Hsame. }
  apply pitems_determined; try done.
  - intros k. destruct (Hlook k) as (Hk & _), (Hlook' k) as (Hk' & _).
    by rewrite Hk, Hk', Hkeys.
  - intros k. destruct (Hlook k) as (_ & Hids), (Hlook' k) as (_ & Hids').
    apply set_eq. intros i. by rewrite Hids, Hids', Hsame.
Qed.

Lemma adds_order_is_irrelevant_witness :
  (∀ p, p ∈ [(5, "a"); (2, "b"); (8, "c")] ↔ p ∈ [(8, "c"); (2, "b"); (5, "a"); (2, "b")]) ∧
  ∃ t t' arr,
    adds [(5, "a"); (2, "b"); (8, "c")] new_tree = Returns t ∧
    adds [(8, "c"); (2, "b"); (5, "a"); (2, "b")] new_tree = Returns t' ∧
    toArray t = Some arr ∧ toArray t' = Some arr.
Proof.
  assert (∀ p : Z * id,
    p ∈ [(5, "a"); (2, "b"); (8, "c")] ↔ p ∈ [(8, "c"); (2, "b"); (5, "a"); (2, "b")])
    as Hsame.
  { intros p. rewrite !elem_of_cons, !elem_of_nil. tauto. }
  split; [exact Hsame|].
  exact (adds_order_is_irrelevant (K := Z) _ _ Hsame).
Defined.

(** ** A traversal that meets a node linked to itself *)
Section DeadTraversal.
Context {K : Type} `{Compare K}.
Implicit Types (h : gmap loc (node K)) (T : ptree K).

Lemma inOrder_self_loop {A : Type} (f : node K → A → A) h l n :
  h !! l = Some n → left n = Some l →
  ∀ fuel acc, inOrder fuel h f (Some l) acc = None.
Proof.
  intros Hl Hleft. induction fuel as [|fuel IH]; intros acc; [done|].
  cbn [inOrder]. rewrite Hl, Hleft. by rewrite IH.
Qed.

Lemma inOrder_step {A : Type} (f : node K → A → A) h l n fuel acc :
  h !! l = Some n →
  inOrder (S fuel) h f (Some l) acc =
    match
      match left n with
      | None => Some acc
      | Some _ => inOrder fuel h f (left n) acc
      end
    with
    | None => None
    | Some acc1 =>
      match right n with
      | None => Some (f n acc1)
      | Some _ => inOrder fuel h f (right n) (f n acc1)
      end
    end.
Proof. intros Hl. cbn [inOrder]. by rewrite Hl. Qed.

Lemma psearch_not_Leaf v T l s : psearch v T = Some (l, s) → ∃ l0, ptr T = Some l0.
Proof. destruct T; [done|]. by eexists. Qed.

(** No traversal returns when the path of a search leads to a node that
    is linked to itself. *)
Lemma inOrder_dead_path {A : Type} (f : node K → A → A) v T c s h h' p pn l :
  ∀ parent,
  NoDup (plocs T) → repr h T → psearch v T = Some (c, s) → ptr T ≠ Some c →
  pparent parent v T = (true, Some p, Some c) →
  (∀ x, x ∈ plocs T → x ∉ plocs (pfind v T) → x ≠ p → h' !! x = h !! x) →
  h !! p = Some pn →
  h' !! p = Some (if js_lt v (value pn)
                  then Node (value pn) (Some l) (right pn) (ids pn)
                  else Node (value pn) (left pn) (Some l) (ids pn)) →
  (∀ fuel acc, inOrder fuel h' f (Some l) acc = None) →
  ∀ fuel acc, inOrder fuel h' f (ptr T) acc = None.
Proof.
  induction T as [|l0 L0 IHL k0 s0 R0 IHR];
    intros parent Hnd Hr Hs Hptr Hpp Hsame Hp Hp' Hdead fuel acc; [done|].
  destruct fuel as [|fuel]; [done|].
  simpl in Hnd. apply NoDup_app in Hnd as (HndL & Hdisj & HndR).
  apply NoDup_cons in HndR as [HlR HndR].
  assert (l0 ∉ plocs L0) as HlL.
  { intros Hin. apply (Hdisj l0 Hin). by left. }
  destruct Hr as (Hl0 & HL & HR).
  destruct (psearch_below_root v _ c s Hs Hptr)
    as (? & ? & ? & ? & ? & [= <- <- <- <- <-] & [(Hlt & Hs')|(Hlt & Hgt & Hs')]);
    simpl in Hpp, Hsame; rewrite Hlt, ?Hgt in Hpp, Hsame; cbn [ptr].
  - destruct (decide (ptr L0 = Some c)) as [Hroot|Hroot].
    + destruct (psearch_at_root v L0 c s HndL Hs' Hroot) as (_ & _ & Hpar).
      rewrite Hpar in Hpp. injection Hpp as <-.
      rewrite Hl0 in Hp. injection Hp as <-. simpl in Hp'. rewrite Hlt in Hp'.
      rewrite (inOrder_step f h' l0 _ fuel acc Hp'). cbn [left].
      by rewrite Hdead.
    + destruct (pparent_found v L0 c s (Some l0) HndL Hs' Hroot) as (p' & Hpp' & HpL & _).
      rewrite Hpp' in Hpp. injection Hpp as ->.
      assert (h' !! l0 = Some (Node k0 (ptr L0) (ptr R0) s0)) as Hl0'.
      { rewrite Hsame, Hl0; [done| | |by intros ->].
        - rewrite elem_of_app, elem_of_cons. auto.
        - by intros Hin%pfind_plocs. }
      rewrite (inOrder_step f h' l0 _ fuel acc Hl0'). cbn [left].
      destruct (psearch_not_Leaf v L0 c s Hs') as (lL & HlL0). rewrite HlL0.
      rewrite <- HlL0.
      rewrite (IHL (Some l0)); try done.
      intros x Hx Hx' Hxp. apply Hsame; [|done..]. rewrite elem_of_app. auto.
  - assert (∀ o : option A,
      match o with
      | None => None
      | Some acc1 =>
        inOrder fuel h' f (Some l) (f (Node k0 (ptr L0) (Some l) s0) acc1)
      end = None) as Hright_dead.
    { intros [acc1|]; [apply Hdead|done]. }
    destruct (decide (ptr R0 = Some c)) as [Hroot|Hroot].
    + destruct (psearch_at_root v R0 c s HndR Hs' Hroot) as (_ & _ & Hpar).
      rewrite Hpar in Hpp. injection Hpp as <-.
      rewrite Hl0 in Hp. injection Hp as <-. simpl in Hp'. rewrite Hlt in Hp'.
      rewrite (inOrder_step f h' l0 _ fuel acc Hp'). cbn [left right].
      apply Hright_dead.
    + destruct (pparent_found v R0 c s (Some l0) HndR Hs' Hroot) as (p' & Hpp' & HpR & _).
      rewrite Hpp' in Hpp. injection Hpp as ->.
      assert (h' !! l0 = Some (Node k0 (ptr L0) (ptr R0) s0)) as Hl0'.
      { rewrite Hsame, Hl0; [done| | |by intros ->].
        - rewrite elem_of_app, elem_of_cons. auto.
        - intros Hin%pfind_plocs. by apply HlR. }
      rewrite (inOrder_step f h' l0 _ fuel acc Hl0'). cbn [left right].
      destruct (psearch_not_Leaf v R0 c s Hs') as (lR & HlR0). rewrite HlR0.
      rewrite <- HlR0.
      destruct (match ptr L0 with
                | Some _ => inOrder fuel h' f (ptr L0) acc
                | None => Some acc
                end) as [acc1|]; [|done].
      rewrite (IHR (Some l0)); try done.
      intros x Hx Hx' Hxp. apply Hsame; [|done..].
      rewrite elem_of_app, elem_of_cons. auto.
Qed.

End DeadTraversal.

(** X15.  After such a removal (a node that is not the root, with two children
    and a left child without right child, loses its last id) no traversal
    of the tree returns, whatever the visitor and however long it runs:
    [toArray] and [size] have no result. *)
Theorem remove_inner_left_child_breaks_traversal {K : Type} `{StrictTotal K}
    (t : BinarySearchTree K) (k : K) (i : id) (c l r : loc) (cn ln : node K) :
  valid t → found_node k t = Some c → _root t ≠ Some c →
  heap t !! c = Some cn → ids cn ∖ {[ i ]} = ∅ →
  left cn = Some l → right cn = Some r →
  heap t !! l = Some ln → right ln = None →
  ∃ t', remove k i t = Returns t' ∧ toArray t' = None ∧ size_ t' = None ∧
        ∀ (A : Type) (process : node K → A → A) (fuel : nat) (acc : A),
          inOrder fuel (heap t') process (_root t') acc = None.
Proof.
  intros (T & Hrep & Hbst & Hne) Hfound Hroot Hcn Hempty Hl Hr Hln Hright.
  destruct (found_node_psearch k t T c cn Hrep Hfound Hcn)
    as (Hs & L & R & Hfind & Hnode).
  destruct (remove_search_found k t T c _ Hrep Hs) as (Hsearch & p0 & Hp0).
  pose proof Hrep as (HrootT & HrT & HndT).
  assert (ptr T ≠ Some c) as Hptr by (by rewrite <- HrootT).
  destruct (pparent_found k T c _ None HndT Hs Hptr) as (p & Hpp & HpT & HpN).
  rewrite Hpp in Hsearch.
  destruct (pparent_links k T c _ (heap t) None p HndT HrT Hs Hptr Hpp)
    as (pn & Hp & Hlink).
  assert (l ∈ plocs (pfind k T)) as HlN.
  { rewrite Hfind. rewrite Hnode in Hl. simpl in Hl.
    destruct L as [|l' ? ? ? ?]; [done|]. injection Hl as ->.
    simpl. rewrite !elem_of_app, !elem_of_cons. auto. }
  assert (c ∈ plocs (pfind k T)) as HcN.
  { rewrite Hfind. simpl. rewrite !elem_of_app, !elem_of_cons. auto. }
  destruct (remove_inner_left_child_heap t k i p c l pn cn ln r)
    as (t' & Hrem & Hroot' & Hl' & Hp' & Hframe); try done.
  { by intros ->. }
  { by intros ->. }
  rewrite Hnode in Hp'. simpl in Hp'.
  assert (∀ (A : Type) (f : node K → A → A) fuel acc,
            inOrder fuel (heap t') f (_root t') acc = None) as Hdead.
  { intros A f fuel acc. rewrite Hroot', HrootT.
    apply (inOrder_dead_path f k T c (ids cn) (heap t) (heap t') p pn l None);
      try done.
    - intros x Hx Hx' Hxp. apply Hframe; [by intros ->|by intros ->|done].
    - by apply (inOrder_self_loop f (heap t') l _ Hl'). }
  exists t'. split; [done|]. split; [apply Hdead|]. split; [apply Hdead|done].
Qed.

Lemma remove_inner_left_child_breaks_traversal_witness :
  valid tree_inner_538 ∧
  found_node 5 tree_inner_538 = Some 2%positive ∧
  _root tree_inner_538 ≠ Some 2%positive ∧
  heap tree_inner_538 !! 2%positive =
    Some (Node 5 (Some 3%positive) (Some 4%positive) {[ "b" ]}) ∧
  ({[ "b" ]} : gset id) ∖ {[ "b" ]} = ∅ ∧
  heap tree_inner_538 !! 3%positive = Some (Node 3 None None {[ "c" ]}) ∧
  ∃ t', remove 5 "b" tree_inner_538 = Returns t' ∧
        toArray t' = None ∧ size_ t' = None ∧
        ∀ (A : Type) (process : node Z → A → A) (fuel : nat) (acc : A),
          inOrder fuel (heap t') process (_root t') acc = None.
Proof.
  assert (heap tree_inner_538 !! 2%positive =
    Some (Node 5 (Some 3%positive) (Some 4%positive) {[ "b" ]})) as Hcn
    by (vm_compute; reflexivity).
  assert (heap tree_inner_538 !! 3%positive = Some (Node 3 None None {[ "c" ]}))
    as Hln by (vm_compute; reflexivity).
  assert (({[ "b" ]} : gset id) ∖ {[ "b" ]} = ∅) as Hempty
    by (vm_compute; reflexivity).
  assert (found_node 5 tree_inner_538 = Some 2%positive) as Hfound
    by (vm_compute; reflexivity).
  assert (_root tree_inner_538 ≠ Some 2%positive) as Hroot
    by (vm_compute; discriminate).
  split; [exact tree_inner_538_valid|]. split; [exact Hfound|]. split; [exact Hroot|].
  split; [exact Hcn|]. split; [exact Hempty|]. split; [exact Hln|].
  exact (remove_inner_left_child_breaks_traversal tree_inner_538 5 "b"
           2%positive 3%positive 4%positive _ _
           tree_inner_538_valid Hfound Hroot Hcn Hempty eq_refl eq_refl Hln eq_refl).
Defined.

Lemma contains_iff_equals_nonempty_witness :
  valid tree_two_children ∧
  ∃ b s, contains 4 tree_two_children = Some b ∧
         equals 4 tree_two_children = Some s ∧ (b = true ↔ s ≠ ∅).
Proof.
  split; [exact tree_two_children_valid|].
  exact (contains_iff_equals_nonempty tree_two_children 4 tree_two_children_valid).
Defined.
